(** * GraphRAG workbench: layout engine, community resolver, subtree selector

    A shallow embedding of [src/lib/forceSimulation.ts] (class
    [ForceSimulation3D]), of the data model it imports from [./graphData]
    (the interfaces [Entity], [Relationship], [Community], [GraphData]) and
    of [getCompleteHierarchyTree] in [src/app/page.tsx]; further, of what
    the application derives from a layout: the hooks [filteredLayout],
    [connectedLinks] and [visibleCommunities] of the page, [hierarchyInfo]
    and [connectedNodes] of the inspector panel, and the filters, the hero
    edges, [graphBounds] and [CommunityBoundary] of
    [src/components/GraphVisualizer.tsx].

    Conventions of the embedding
    - a JavaScript [number] is an exact rational ([Q]); rounding of IEEE
      doubles is not modelled.  A [level] is an integer ([Z]).
    - a JavaScript [Map] is a [gmap], a [Set] a [gset]; [Map.set] is
      insertion (the last write wins).
    - an object that is mutated after other objects captured it (a [Node3D],
      a [Community] annotated by the resolver) is named by its reference: the
      position it has in the array that owns it. *)

From Stdlib Require Import QArith Qminmax ZArith String Ascii List Lia.
From Stdlib Require Import Sorting.Sorted Qpower Lqa.
From stdpp Require Import gmap strings list fin_maps sets.

Local Open Scope general_if_scope.

(** ** Outcomes of a [try] block *)

Inductive outcome (A : Type) : Type :=
| Returned (a : A)
| Thrown.
Arguments Returned {A} a.
Arguments Thrown {A}.

(** ** JavaScript values and built-ins *)

Module Js.

(** The values compared with [===] in [precomputeCommunityData]: strings
    (the ids of the data model) and the numbers [parseInt] returns. *)
Inductive value : Type :=
| Str (s : string)
| Num (z : Z)
| NaN.

(** [a === b]: no conversion; values of different types differ and [NaN]
    equals nothing. *)
Definition strictEq (a b : value) : bool :=
  match a, b with
  | Str s, Str t => bool_decide (s = t)
  | Num m, Num n => bool_decide (m = n)
  | _, _ => false
  end.

Definition isWhiteSpace (c : ascii) : bool :=
  let n := nat_of_ascii c in
  bool_decide (n = 32 ∨ (9 ≤ n ∧ n ≤ 13))%nat.

Definition digitValue (c : ascii) : option Z :=
  let n := Z.of_nat (nat_of_ascii c) in
  if decide (48 ≤ n ≤ 57)%Z then Some (n - 48)%Z
  else if decide (97 ≤ n ≤ 122)%Z then Some (n - 87)%Z
  else if decide (65 ≤ n ≤ 90)%Z then Some (n - 55)%Z
  else None.

Fixpoint trimStart (s : string) : string :=
  match s with
  | String c s' => if isWhiteSpace c then trimStart s' else s
  | EmptyString => s
  end.

(** The longest prefix of digits of the radix, read as a number; [None]
    when there is no digit. *)
Fixpoint digits (radix : Z) (acc : option Z) (s : string) : option Z :=
  match s with
  | String c s' =>
      match digitValue c with
      | Some d =>
          if decide (d < radix)%Z
          then digits radix (Some (default 0 acc * radix + d)%Z) s'
          else acc
      | None => acc
      end
  | EmptyString => acc
  end.

Definition unsignedInt (s : string) : option Z :=
  match s with
  | String "0" (String "x" s') | String "0" (String "X" s') =>
      digits 16 None s'
  | _ => digits 10 None s
  end.

(** [parseInt(s)] with no radix. *)
Definition parseInt (s : string) : value :=
  let '(sign, body) :=
    match trimStart s with
    | String "-" s' => ((-1)%Z, s')
    | String "+" s' => (1%Z, s')
    | s' => (1%Z, s')
    end in
  match unsignedInt body with
  | Some n => Num (sign * n)
  | None => NaN
  end.

(** [Array.prototype.sort] with the comparator [key(a) - key(b)]: the sort
    is stable, so an element goes before the first one whose key is not
    smaller. *)
Fixpoint insertBy {A : Type} (key : A → Z) (a : A) (l : list A) : list A :=
  match l with
  | [] => [a]
  | b :: l' =>
      if (key a <=? key b)%Z then a :: b :: l'
      else b :: insertBy key a l'
  end.

Definition sortBy {A : Type} (key : A → Z) (l : list A) : list A :=
  foldr (insertBy key) [] l.

(** [x || d] on numbers: [0] is falsy. *)
Definition orElse (x d : Q) : Q := if Qeq_bool x 0%Q then d else x.

End Js.

(** ** Data model ([graphData.ts]) *)

Module Bounds.
Record t : Type := mk {
  center : Q * Q * Q;
  size : Q * Q * Q;
  padding : Q
}.
End Bounds.

Module Hierarchy.
(** The two lists hold references to communities: positions in the
    engine's [communities] array. *)
Record t : Type := mk {
  parentCommunities : list nat;
  childCommunities : list nat
}.
End Hierarchy.

Module Community.
(** [children] is [None] when the field holds no array at run time (the
    resolver guards for it with [Array.isArray]); the optional fields are
    [None] when absent. *)
Record t : Type := mk {
  id : string;
  human_readable_id : string;
  community : string;
  level : Z;
  parent : option string;
  children : option (list string);
  title : string;
  entity_ids : list string;
  relationship_ids : list string;
  text_unit_ids : list string;
  period : string;
  size : Q;
  computedBounds : option Bounds.t;
  computedHierarchy : option Hierarchy.t;
  computedColor : option string;
  computedOpacity : option Q
}.
End Community.

(** ** The subtree selector ([getCompleteHierarchyTree], page.tsx) *)

Module Selector.
Import Community.

(** [new Map(allCommunities.map(c => [String(c.human_readable_id), c]))] *)
Definition communityByHumanIdMap (allCommunities : list Community.t)
  : gmap string Community.t :=
  foldl (λ m c, <[human_readable_id c := c]> m) ∅ allCommunities.

(** The parent-child map: each community with a parent is pushed on the
    array stored under its parent's id. *)
Definition childrenByParentId_add
    (m : gmap string (list Community.t)) (c : Community.t)
  : gmap string (list Community.t) :=
  match parent c with
  | Some parentId => <[parentId := default [] (m !! parentId) ++ [c]]> m
  | None => m
  end.

Definition childrenByParentId (allCommunities : list Community.t)
  : gmap string (list Community.t) :=
  foldl childrenByParentId_add ∅ allCommunities.

(** Step 1, the upward walk.  [pathToRoot] grows by one at each turn and
    the loop leaves once it holds more than 10 entries, so the counter [n]
    (10 at the call) never runs out before the loop's own bound. *)
Fixpoint walkUp (n : nat) (byHumanId : gmap string Community.t)
    (currentCommunity : Community.t) (pathToRoot : list Community.t)
  : list Community.t :=
  match n with
  | O => pathToRoot
  | S n' =>
      match parent currentCommunity with
      | None => pathToRoot
      | Some parentId =>
          match byHumanId !! parentId with
          | None => pathToRoot
          | Some parentCommunity =>
              let pathToRoot' := parentCommunity :: pathToRoot in
              if decide (10 < length pathToRoot')%nat then pathToRoot'
              else walkUp n' byHumanId parentCommunity pathToRoot'
          end
      end
  end.

Definition rootCommunity (byHumanId : gmap string Community.t)
    (selectedCommunity : Community.t) : Community.t :=
  match walkUp 10 byHumanId selectedCommunity [selectedCommunity] with
  | r :: _ => r
  | [] => selectedCommunity
  end.

(** Step 2, the breadth-first descent.  The parent-child map is part of
    the state: [children.push] writes into the array the map holds. *)
Record bfs_state : Type := BfsState {
  queue : list Community.t;
  visited : gset string;
  subtreeCommunities : gset string;
  byParent : gmap string (list Community.t)
}.

Definition hasId (i : string) (c : Community.t) : bool :=
  bool_decide (id c = i).

(** One turn of [community.children.forEach]. *)
Definition addExplicitChild (byHumanId : gmap string Community.t)
    (children : list Community.t) (childHumanId : string)
  : list Community.t :=
  match byHumanId !! childHumanId with
  | Some childCommunity =>
      if existsb (hasId (id childCommunity)) children then children
      else children ++ [childCommunity]
  | None => children
  end.

(** The body of the [while] loop for a community not yet visited. *)
Definition visit (byHumanId : gmap string Community.t)
    (community : Community.t) (rest : list Community.t) (st : bfs_state)
  : outcome bfs_state :=
  let visited' := {[id community]} ∪ visited st in
  let key := human_readable_id community in
  match children community with
  | None => Thrown
  | Some explicit =>
      let children :=
        foldl (addExplicitChild byHumanId)
              (default [] (byParent st !! key)) explicit in
      Returned
        {| queue := rest ++ filter (λ c, id c ∉ visited') children;
           visited := visited';
           subtreeCommunities := {[id community]} ∪ subtreeCommunities st;
           byParent := match byParent st !! key with
                       | Some _ => <[key := children]> (byParent st)
                       | None => byParent st
                       end |}
  end.

(** The [while (queue.length > 0)] loop; [None] when [fuel] turns did not
    empty the queue. *)
Fixpoint bfs (fuel : nat) (byHumanId : gmap string Community.t)
    (st : bfs_state) : option (outcome (gset string)) :=
  match fuel with
  | O => None
  | S fuel' =>
      match queue st with
      | [] => Some (Returned (subtreeCommunities st))
      | community :: rest =>
          if decide (id community ∈ visited st)
          then bfs fuel' byHumanId
                 {| queue := rest; visited := visited st;
                    subtreeCommunities := subtreeCommunities st;
                    byParent := byParent st |}
          else match visit byHumanId community rest st with
               | Thrown => Some Thrown
               | Returned st' => bfs fuel' byHumanId st'
               end
      end
  end.

(** [.sort((a, b) => (a.level || 0) - (b.level || 0))] *)
Definition sortByLevel (l : list Community.t) : list Community.t :=
  Js.sortBy level l.

Definition initial (root : Community.t) (allCommunities : list Community.t)
  : bfs_state :=
  {| queue := [root]; visited := ∅; subtreeCommunities := ∅;
     byParent := childrenByParentId allCommunities |}.

(** The subtree collected from a given root (step 2 and the result). *)
Definition subtreeOf (fuel : nat) (root : Community.t)
    (allCommunities : list Community.t)
  : option (outcome (list Community.t)) :=
  match bfs fuel (communityByHumanIdMap allCommunities)
            (initial root allCommunities) with
  | None => None
  | Some Thrown => Some Thrown
  | Some (Returned ids) =>
      Some (Returned
              (sortByLevel (filter (λ c, id c ∈ ids) allCommunities)))
  end.

(** The [try] block. *)
Definition tryBlock (fuel : nat) (selectedCommunity : Community.t)
    (allCommunities : list Community.t)
  : option (outcome (list Community.t)) :=
  subtreeOf fuel
    (rootCommunity (communityByHumanIdMap allCommunities) selectedCommunity)
    allCommunities.

(** The function, called with a community and an array (the guard returns
    the empty list for an empty array).  [None] only when [fuel] turns of
    the descent loop were not enough; [loopBound] turns always are. *)
Definition getCompleteHierarchyTree (fuel : nat)
    (selectedCommunity : Community.t) (allCommunities : list Community.t)
  : option (list Community.t) :=
  match allCommunities with
  | [] => Some []
  | _ :: _ =>
      match tryBlock fuel selectedCommunity allCommunities with
      | None => None
      | Some (Returned result) => Some result
      | Some Thrown => Some [selectedCommunity]
      end
  end.

(** Turns of the descent loop that always suffice. *)
Definition loopBound (allCommunities : list Community.t) : nat :=
  2 + 2 * length allCommunities * S (length allCommunities).

(** *** Vocabulary of the statements about hierarchies *)

(** The communities of the list have distinct ids and distinct
    human-readable ids, and each holds an array of children. *)
Definition wellFormed (allCommunities : list Community.t) : Prop :=
  NoDup (id <$> allCommunities)
  ∧ NoDup (human_readable_id <$> allCommunities)
  ∧ ∀ c, c ∈ allCommunities → is_Some (children c).

(** [ancestor all k c r]: [k] parent links lead from [c] up to [r]. *)
Inductive ancestor (allCommunities : list Community.t)
  : nat → Community.t → Community.t → Prop :=
| ancestor_self c : ancestor allCommunities 0 c c
| ancestor_up k c p r :
    parent c = Some (human_readable_id p) →
    p ∈ allCommunities →
    ancestor allCommunities k p r →
    ancestor allCommunities (S k) c r.

(** No community of the list is the parent of [r]: [r] has no parent or
    its parent id matches nothing. *)
Definition topLevel (allCommunities : list Community.t) (r : Community.t)
  : Prop :=
  ∀ parentId c, parent r = Some parentId → c ∈ allCommunities →
                human_readable_id c ≠ parentId.

(** [c] is a child of [p]: it names [p] as its parent, or [p] lists it. *)
Definition childOf (allCommunities : list Community.t)
    (p c : Community.t) : Prop :=
  c ∈ allCommunities
  ∧ (parent c = Some (human_readable_id p)
     ∨ ∃ listed, children p = Some listed ∧ human_readable_id c ∈ listed).

Inductive descendant (allCommunities : list Community.t)
    (root : Community.t) : Community.t → Prop :=
| descendant_root : descendant allCommunities root root
| descendant_child p c :
    descendant allCommunities root p →
    childOf allCommunities p c →
    descendant allCommunities root c.

(** The ids met in a list. *)
Definition idsOf (l : list Community.t) : gset string :=
  list_to_set (id <$> l).

(** What the queue and the arrays of the parent-child map hold during
    the descent: communities of the list (or the root), and arrays that
    are no longer than the list plus the distinct ids they hold. *)
Definition bounded (allCommunities : list Community.t) (root : Community.t)
    (st : bfs_state) : Prop :=
  (∀ c, c ∈ queue st → c = root ∨ c ∈ allCommunities)
  ∧ ∀ k l, byParent st !! k = Some l →
           (∀ c, c ∈ l → c ∈ allCommunities)
           ∧ (length l ≤ length allCommunities + base.size (idsOf l))%nat.

(** The children the descent finds for [p] in its two maps, and what it
    can reach from the root through them. *)
Definition foundChild (allCommunities : list Community.t)
    (p c : Community.t) : Prop :=
  c ∈ default [] (childrenByParentId allCommunities !! human_readable_id p)
  ∨ ∃ listed h, children p = Some listed ∧ h ∈ listed
                ∧ communityByHumanIdMap allCommunities !! h = Some c.

Inductive reached (allCommunities : list Community.t)
    (root : Community.t) : Community.t → Prop :=
| reached_root : reached allCommunities root root
| reached_child p c :
    reached allCommunities root p →
    foundChild allCommunities p c →
    reached allCommunities root c.

(** The invariant of the descent loop. *)
Definition exploring (allCommunities : list Community.t)
    (root : Community.t) (st : bfs_state) : Prop :=
  (∀ c, c ∈ queue st → reached allCommunities root c)
  ∧ (∀ i, i ∈ visited st → ∃ c, reached allCommunities root c ∧ id c = i)
  ∧ (∀ p c, reached allCommunities root p → id p ∈ visited st →
            foundChild allCommunities p c →
            id c ∈ visited st ∨ c ∈ queue st)
  ∧ (id root ∈ visited st ∨ root ∈ queue st)
  ∧ (∀ k c, c ∈ default [] (byParent st !! k) →
            c ∈ default [] (childrenByParentId allCommunities !! k)
            ∨ reached allCommunities root c)
  ∧ (∀ k c, c ∈ default [] (childrenByParentId allCommunities !! k) →
            c ∈ default [] (byParent st !! k))
  ∧ subtreeCommunities st = visited st.

(** Non-decreasing levels. *)
Definition sortedByLevel (l : list Community.t) : Prop :=
  StronglySorted (λ a b, (level a ≤ level b)%Z) l.

(** *** Sample communities *)

Definition sample (i h : string) (lv : Z) (p : option string)
    (ch : list string) : Community.t :=
  {| id := i; human_readable_id := h; community := h; level := lv;
     parent := p; children := Some ch; title := i; entity_ids := [];
     relationship_ids := []; text_unit_ids := []; period := EmptyString;
     size := 0; computedBounds := None; computedHierarchy := None;
     computedColor := None; computedOpacity := None |}.

Definition commA : Community.t := sample "A" "0" 0 None ["1"].
Definition commB : Community.t := sample "B" "1" 1 (Some "0") ["2"].
Definition commC : Community.t := sample "C" "2" 2 (Some "1") [].

(** A chain of twelve communities, each the parent of the next. *)
Definition chainNames : list string :=
  ["c0"; "c1"; "c2"; "c3"; "c4"; "c5"; "c6"; "c7"; "c8"; "c9"; "c10";
   "c11"].

Definition link (i : nat) (name : string) : Community.t :=
  sample name name (Z.of_nat i)
         (match i with O => None | S j => chainNames !! j end) [].

Definition chain : list Community.t := imap link chainNames.
Definition top : Community.t := link 0 "c0".
Definition deepest : Community.t := link 11 "c11".

(** A community whose parent id names nothing, with one child. *)
Definition orphan : Community.t := sample "X" "7" 1 (Some "99") [].
Definition orphanChild : Community.t := sample "Y" "8" 2 (Some "7") [].

(** A community that holds no array of children. *)
Definition broken : Community.t :=
  {| id := "Z"; human_readable_id := "9"; community := "9"; level := 0;
     parent := None; children := None; title := "Z"; entity_ids := [];
     relationship_ids := []; text_unit_ids := []; period := EmptyString;
     size := 0; computedBounds := None; computedHierarchy := None;
     computedColor := None; computedOpacity := None |}.

End Selector.

(** ** Entities, relationships, nodes and links *)

Module Entity.
Record t : Type := mk {
  id : string;
  human_readable_id : string;
  title : string;
  type : string;
  description : string;
  text_unit_ids : list string;
  frequency : Q;
  degree : Q;
  x : option Q;
  y : option Q;
  z : option Q
}.
End Entity.

Module Relationship.
Record t : Type := mk {
  id : string;
  human_readable_id : string;
  source : string;
  target : string;
  description : string;
  weight : Q;
  combined_degree : Q;
  text_unit_ids : list string
}.
End Relationship.

Module GraphData.
(** [communityReports] is not read by the engine and is left out. *)
Record t : Type := mk {
  entities : list Entity.t;
  relationships : list Relationship.t;
  communities : list Community.t
}.
End GraphData.

Module Node3D.
(** [{...entity, x, y, z, ...}]: the entity's own fields are kept under
    [entity]; [community] is a reference into the engine's [communities];
    [abstractionLevel] is the extra field [preprocessData] stores. *)
Record t : Type := mk {
  entity : Entity.t;
  x : Q;
  y : Q;
  z : Q;
  vx : option Q;
  vy : option Q;
  vz : option Q;
  community : option nat;
  communityLevel : Z;
  abstractionLevel : Q;
  computedSize : Q;
  computedColor : string
}.
Definition id (n : t) : string := Entity.id (entity n).
Definition title (n : t) : string := Entity.title (entity n).
Definition degree (n : t) : Q := Entity.degree (entity n).
Definition frequency (n : t) : Q := Entity.frequency (entity n).
End Node3D.

Module Link3D.
(** [source] and [target] are references to nodes: positions in the
    engine's [nodes] array. *)
Record t : Type := mk {
  id : string;
  source : nat;
  target : nat;
  weight : Q;
  description : string
}.
End Link3D.

Module GraphLayout.
Record t : Type := mk {
  nodes : list Node3D.t;
  links : list Link3D.t;
  communities : list Community.t
}.
End GraphLayout.

Module ForceConfig.
Record t : Type := mk {
  chargeStrength : Q;
  linkDistance : Q;
  linkStrength : Q;
  collisionRadius : Q;
  communityStrength : Q;
  centerStrength : Q;
  spread3D : Q;
  levelSpacing : Q;
  sphericalConstraint : Q
}.

(** [Partial<ForceConfig>]: [None] for a key that is absent. *)
Record partial : Type := mkPartial {
  chargeStrength' : option Q;
  linkDistance' : option Q;
  linkStrength' : option Q;
  collisionRadius' : option Q;
  communityStrength' : option Q;
  centerStrength' : option Q;
  spread3D' : option Q;
  levelSpacing' : option Q;
  sphericalConstraint' : option Q
}.

Definition empty : partial :=
  mkPartial None None None None None None None None None.

(** [{ ...config, ...newConfig }] *)
Definition merge (c : t) (n : partial) : t :=
  {| chargeStrength := default (chargeStrength c) (chargeStrength' n);
     linkDistance := default (linkDistance c) (linkDistance' n);
     linkStrength := default (linkStrength c) (linkStrength' n);
     collisionRadius := default (collisionRadius c) (collisionRadius' n);
     communityStrength :=
       default (communityStrength c) (communityStrength' n);
     centerStrength := default (centerStrength c) (centerStrength' n);
     spread3D := default (spread3D c) (spread3D' n);
     levelSpacing := default (levelSpacing c) (levelSpacing' n);
     sphericalConstraint :=
       default (sphericalConstraint c) (sphericalConstraint' n) |}.
End ForceConfig.

Definition defaultForceConfig : ForceConfig.t :=
  {| ForceConfig.chargeStrength := (-100)%Q;
     ForceConfig.linkDistance := 30%Q;
     ForceConfig.linkStrength := 0.2%Q;
     ForceConfig.collisionRadius := 6%Q;
     ForceConfig.communityStrength := 0.2%Q;
     ForceConfig.centerStrength := 0.02%Q;
     ForceConfig.spread3D := 150%Q;
     ForceConfig.levelSpacing := 40%Q;
     ForceConfig.sphericalConstraint := 0.05%Q |}.

(** [calculateNodeSize] *)
Definition calculateNodeSize (degree frequency : Q) : Q :=
  let size := (0.8 + (degree + frequency * 0.1) * 0.15)%Q in
  Qmin size 4.0%Q.

(** [calculateLinkThickness] *)
Definition calculateLinkThickness (weight : Q) : Q :=
  let thickness := (0.2 + weight * 0.1)%Q in
  Qmin thickness 2.0%Q.

(** [ENTITY_COLORS[type] || ENTITY_COLORS.unnamed] *)
Definition entityColor (type : string) : string :=
  if decide (type = "ORGANIZATION") then "#ff6b6b"
  else if decide (type = "EVENT") then "#4ecdc4"
  else if decide (type = "PERSON") then "#45b7d1"
  else if decide (type = "GEO") then "#96ceb4"
  else if decide (type = "PROCESS") then "#feca57"
  else "#95a5a6".

(** ** The simulation object of d3-force-3d

    The library is a dependency of the repository; the engine's calls are
    modelled by their effect on this record.  A force keeps the accessor it
    was last given ([None]: the library's default).  The two custom forces
    are the closures of [addCommunityForces] and [addSphericalConstraint];
    they read the engine's fields at each tick and hold no state. *)

Module Simulation.

Record linkForce : Type := mkLink {
  links : list Link3D.t;
  distance : option (Link3D.t → Q);
  linkStrength : option (Link3D.t → Q)
}.

Record forces : Type := mkForces {
  link : option linkForce;
  charge : option (option (Node3D.t → Q));
  center : option (option Q);
  collision : option (option (Node3D.t → Q));
  community : bool;
  spherical : bool
}.

Record t : Type := mk {
  alpha : Q;
  alphaMin : Q;
  alphaDecay : Q;
  alphaTarget : Q;
  running : bool;
  force : forces
}.

Definition withForce (f : forces → forces) (s : t) : t :=
  {| alpha := alpha s; alphaMin := alphaMin s; alphaDecay := alphaDecay s;
     alphaTarget := alphaTarget s; running := running s;
     force := f (force s) |}.

(** [simulation.alpha(a).restart()] *)
Definition alphaRestart (a : Q) (s : t) : t :=
  {| alpha := a; alphaMin := alphaMin s; alphaDecay := alphaDecay s;
     alphaTarget := alphaTarget s; running := true; force := force s |}.

(** [simulation.restart()] *)
Definition restart (s : t) : t :=
  {| alpha := alpha s; alphaMin := alphaMin s; alphaDecay := alphaDecay s;
     alphaTarget := alphaTarget s; running := true; force := force s |}.

(** [simulation.stop()] *)
Definition stop (s : t) : t :=
  {| alpha := alpha s; alphaMin := alphaMin s; alphaDecay := alphaDecay s;
     alphaTarget := alphaTarget s; running := false; force := force s |}.

(** Modelled from the spec: the energy update of one tick of the library
    (not under src/), "starting at 1.0, decaying by a fixed 0.03 factor per
    tick": alpha moves toward [alphaTarget] by the fraction [alphaDecay].
    [Qred] keeps the fraction in lowest terms and does not change its
    value. *)
Definition decay (s : t) : t :=
  {| alpha := Qred (alpha s + (alphaTarget s - alpha s) * alphaDecay s);
     alphaMin := alphaMin s; alphaDecay := alphaDecay s;
     alphaTarget := alphaTarget s; running := running s;
     force := force s |}.

End Simulation.

(** ** The engine ([ForceSimulation3D]) *)

Module Engine.

Record center : Type := mkCenter {
  x : Q;
  y : Q;
  z : Q;
  radius : Q
}.

Record t : Type := mk {
  simulation : Simulation.t;
  nodes : list Node3D.t;
  links : list Link3D.t;
  communities : list Community.t;
  config : ForceConfig.t;
  communityCenters : gmap string center
}.

Definition withSimulation (f : Simulation.t → Simulation.t) (e : t) : t :=
  {| simulation := f (simulation e); nodes := nodes e; links := links e;
     communities := communities e; config := config e;
     communityCenters := communityCenters e |}.

Definition withCommunities (cs : list Community.t) (e : t) : t :=
  {| simulation := simulation e; nodes := nodes e; links := links e;
     communities := cs; config := config e;
     communityCenters := communityCenters e |}.

Definition withConfig (cfg : ForceConfig.t) (e : t) : t :=
  {| simulation := simulation e; nodes := nodes e; links := links e;
     communities := communities e; config := cfg;
     communityCenters := communityCenters e |}.

(** The constructor: four default forces, [alphaDecay(0.03)],
    [alphaMin(0.001)]; a new simulation starts with alpha 1, target 0 and
    its timer running. *)
Definition new (config : ForceConfig.t) : t :=
  {| simulation :=
       {| Simulation.alpha := 1%Q;
          Simulation.alphaMin := 0.001%Q;
          Simulation.alphaDecay := 0.03%Q;
          Simulation.alphaTarget := 0%Q;
          Simulation.running := true;
          Simulation.force :=
            {| Simulation.link := Some (Simulation.mkLink [] None None);
               Simulation.charge := Some None;
               Simulation.center := Some None;
               Simulation.collision := Some None;
               Simulation.community := false;
               Simulation.spherical := false |} |};
     nodes := []; links := []; communities := [];
     config := config; communityCenters := ∅ |}.

(** What a tick of the library writes into a node. *)
Record kinematics : Type := mkKinematics {
  kx : Q; ky : Q; kz : Q;
  kvx : Q; kvy : Q; kvz : Q
}.

Definition move (k : kinematics) (n : Node3D.t) : Node3D.t :=
  {| Node3D.entity := Node3D.entity n;
     Node3D.x := kx k; Node3D.y := ky k; Node3D.z := kz k;
     Node3D.vx := Some (kvx k); Node3D.vy := Some (kvy k);
     Node3D.vz := Some (kvz k);
     Node3D.community := Node3D.community n;
     Node3D.communityLevel := Node3D.communityLevel n;
     Node3D.abstractionLevel := Node3D.abstractionLevel n;
     Node3D.computedSize := Node3D.computedSize n;
     Node3D.computedColor := Node3D.computedColor n |}.

(** The calls of [updateIndividualForces] on the library. *)
Inductive call : Type :=
| charge_strength | link_distance | link_strength | center_strength
| collision_radius | community_force | spherical_force.

(** What the surroundings supply: the functions of [Math], the successive
    values of [Math.random] (one per entity), the motion the library's
    forces give the nodes at a tick, and which library call of an
    incremental update fails, if any. *)
Record host : Type := mkHost {
  sin : Q → Q;
  cos : Q → Q;
  acos : Q → Q;
  sqrt : Q → Q;
  PI : Q;
  random : nat → Q;
  physics : t → nat → kinematics;
  throws : call → bool
}.

(** The result of a block that may throw: the engine as the block left
    it. *)
Inductive exec : Type :=
| Done (e : t)
| Raised (e : t).

Definition andThen (r : exec) (k : t → exec) : exec :=
  match r with
  | Done e => k e
  | Raised e => Raised e
  end.

Definition stateOf (r : exec) : t :=
  match r with
  | Done e | Raised e => e
  end.

(** What a block leaves alone, whether it completes or throws: all but
    the forces and the cached community centers. *)
Definition kept (e : t) (r : exec) : Prop :=
  nodes (stateOf r) = nodes e ∧ links (stateOf r) = links e
  ∧ communities (stateOf r) = communities e
  ∧ config (stateOf r) = config e
  ∧ Simulation.alpha (simulation (stateOf r))
    = Simulation.alpha (simulation e).

End Engine.

Module ForceSimulation3D.
Import Engine.

Local Open Scope Q_scope.

Definition ofNat (n : nat) : Q := inject_Z (Z.of_nat n).

(** [Math.max(...xs)] and [Math.min(...xs)]; [None] is the infinity they
    return for no argument. *)
Definition mathMax (xs : list Q) : option Q :=
  foldl (λ acc v, match acc with
                  | None => Some v
                  | Some a => Some (Qmax a v)
                  end) None xs.

Definition mathMin (xs : list Q) : option Q :=
  foldl (λ acc v, match acc with
                  | None => Some v
                  | Some a => Some (Qmin a v)
                  end) None xs.

Definition abstractionScore (e : Entity.t) : Q :=
  Entity.degree e + Entity.frequency e * 0.5.

(** [maxAbstraction > minAbstraction ? ... : 0.5]; with no entity the
    comparison of the two infinities fails as well. *)
Definition normalizedAbstraction (entities : list Entity.t)
    (entity : Entity.t) : Q :=
  match mathMax (abstractionScore <$> entities),
        mathMin (abstractionScore <$> entities) with
  | Some maxAbstraction, Some minAbstraction =>
      if Qlt_le_dec minAbstraction maxAbstraction
      then (abstractionScore entity - minAbstraction)
           / (maxAbstraction - minAbstraction)
      else 0.5
  | _, _ => 0.5
  end.

(** [radius] and [finalRadius] of [preprocessData]. *)
Definition radius (cfg : ForceConfig.t) (normalized : Q) : Q :=
  let minRadius := ForceConfig.spread3D cfg * 0.1 in
  let maxRadius := ForceConfig.spread3D cfg in
  minRadius + (1 - normalized) * (maxRadius - minRadius).

Definition finalRadius (cfg : ForceConfig.t) (normalized : Q)
    (communityLevel : Z) : Q :=
  let communityOffset :=
    inject_Z communityLevel * ForceConfig.levelSpacing cfg * 0.3 in
  radius cfg normalized + communityOffset.

(** [targetRadius] of the spherical constraint ([addSphericalConstraint],
    [updateSphericalForce]). *)
Definition targetRadius (cfg : ForceConfig.t) (node : Node3D.t) : Q :=
  let minRadius := ForceConfig.spread3D cfg * 0.1 in
  let maxRadius := ForceConfig.spread3D cfg in
  let idealRadius :=
    minRadius
    + (1 - Js.orElse (Node3D.abstractionLevel node) 0.5)
      * (maxRadius - minRadius) in
  let communityOffset :=
    inject_Z (Node3D.communityLevel node)
    * ForceConfig.levelSpacing cfg * 0.3 in
  idealRadius + communityOffset.

(** [entityToCommunity]: the value is the reference of the community. *)
Definition entityToCommunity (communities : list Community.t)
  : gmap string nat :=
  foldl (λ m ic,
           foldl (λ m' entityId, <[entityId := ic.1]> m') m
                 (Community.entity_ids ic.2))
        ∅ (imap pair communities).

(** [nodeMap]: by id, and by title "as backup". *)
Definition nodeMap (nodes : list Node3D.t) : gmap string nat :=
  foldl (λ m ino, <[Node3D.title ino.2 := ino.1]>
                    (<[Node3D.id ino.2 := ino.1]> m))
        ∅ (imap pair nodes).

(** The callback of [graphData.relationships.map]: [None] is the [null] of
    a relationship with a missing node. *)
Definition toLink (nodeMap : gmap string nat) (rel : Relationship.t)
  : option Link3D.t :=
  match nodeMap !! Relationship.source rel,
        nodeMap !! Relationship.target rel with
  | Some sourceNode, Some targetNode =>
      Some {| Link3D.id := Relationship.id rel;
              Link3D.source := sourceNode;
              Link3D.target := targetNode;
              Link3D.weight := Relationship.weight rel;
              Link3D.description := Relationship.description rel |}
  | _, _ => None
  end.

(** The accessors given to the library. *)
Definition nodeChargeStrength (cfg : ForceConfig.t) (d : Node3D.t) : Q :=
  ForceConfig.chargeStrength cfg - Node3D.degree d * 5.

Definition linkDistance (cfg : ForceConfig.t) (d : Link3D.t) : Q :=
  let weightFactor := 1 / (Link3D.weight d * 0.05 + 1) in
  ForceConfig.linkDistance cfg * weightFactor.

Definition linkStrength (cfg : ForceConfig.t) (d : Link3D.t) : Q :=
  Qmin (Link3D.weight d * 0.05) (ForceConfig.linkStrength cfg).

Definition collisionRadius (cfg : ForceConfig.t) (d : Node3D.t) : Q :=
  ForceConfig.collisionRadius cfg
  + calculateNodeSize (Node3D.degree d) (Node3D.frequency d).

(** [node.community?.id] *)
Definition communityId (communities : list Community.t) (node : Node3D.t)
  : option string :=
  r ← Node3D.community node;
  Community.id <$> communities !! r.

Section Methods.
Variable h : host.

(** The callback of [graphData.entities.map]. *)
Definition makeNode (cfg : ForceConfig.t) (graphData : GraphData.t)
    (index : nat) (entity : Entity.t) : Node3D.t :=
  let community :=
    entityToCommunity (GraphData.communities graphData)
      !! Entity.id entity in
  let communityLevel :=
    match community ≫= (λ r, GraphData.communities graphData !! r) with
    | Some c => Community.level c
    | None => 0%Z
    end in
  let normalized :=
    normalizedAbstraction (GraphData.entities graphData) entity in
  let goldenAngle := PI h * (3 - sqrt h 5) in
  let phi :=
    acos h (1 - 2 * (ofNat index
                     / ofNat (length (GraphData.entities graphData)))) in
  let theta := goldenAngle * ofNat index in
  let randomFactor := 0.9 + random h index * 0.2 in
  let adjustedRadius :=
    finalRadius cfg normalized communityLevel * randomFactor in
  {| Node3D.entity := entity;
     Node3D.x := adjustedRadius * sin h phi * cos h theta;
     Node3D.y := adjustedRadius * sin h phi * sin h theta;
     Node3D.z := adjustedRadius * cos h phi;
     Node3D.vx := None; Node3D.vy := None; Node3D.vz := None;
     Node3D.community := community;
     Node3D.communityLevel := communityLevel;
     Node3D.abstractionLevel := normalized;
     Node3D.computedSize :=
       calculateNodeSize (Entity.degree entity) (Entity.frequency entity);
     Node3D.computedColor := entityColor (Entity.type entity) |}.

Definition preprocessData (graphData : GraphData.t) (e : t) : t :=
  let nodes :=
    imap (makeNode (config e) graphData) (GraphData.entities graphData) in
  {| simulation := simulation e;
     nodes := nodes;
     links := omap (toLink (nodeMap nodes))
                   (GraphData.relationships graphData);
     communities := GraphData.communities graphData;
     config := config e;
     communityCenters := communityCenters e |}.

(** The body of [this.communities.forEach] in
    [calculateCommunityCenters]: the center set for the community, if
    any. *)
Definition communityCenter (cfg : ForceConfig.t) (nodes : list Node3D.t)
    (communities : list Community.t) (communityIndex : nat)
    (community : Community.t) : option center :=
  let communityNodes :=
    filter (λ node, communityId communities node
                    = Some (Community.id community)) nodes in
  if decide (0 < length communityNodes)%nat then
    let avgAbstraction :=
      foldl (λ sum node,
               sum + Js.orElse (Node3D.abstractionLevel node) 0.5)
            0 communityNodes
      / ofNat (length communityNodes) in
    let minRadius := ForceConfig.spread3D cfg * 0.1 in
    let maxRadius := ForceConfig.spread3D cfg in
    let baseRadius :=
      minRadius + (1 - avgAbstraction) * (maxRadius - minRadius) in
    let communityRadius :=
      baseRadius
      + inject_Z (Community.level community)
        * ForceConfig.levelSpacing cfg * 0.2 in
    let goldenAngle := PI h * (3 - sqrt h 5) in
    let phi :=
      acos h (1 - 2 * (ofNat communityIndex
                       / ofNat (length communities))) in
    let theta := goldenAngle * ofNat communityIndex in
    Some {| Engine.x := communityRadius * sin h phi * cos h theta;
            Engine.y := communityRadius * sin h phi * sin h theta;
            Engine.z := communityRadius * cos h phi;
            Engine.radius := communityRadius |}
  else None.

(** One turn of the loop: [this.communityCenters.set(community.id, ...)]
    when the community has a member. *)
Definition storeCenter (cfg : ForceConfig.t) (nodes : list Node3D.t)
    (communities : list Community.t) (m : gmap string center)
    (ic : nat * Community.t) : gmap string center :=
  match communityCenter cfg nodes communities ic.1 ic.2 with
  | Some c => <[Community.id ic.2 := c]> m
  | None => m
  end.

Definition calculateCommunityCenters (e : t) : t :=
  {| simulation := simulation e; nodes := nodes e; links := links e;
     communities := communities e; config := config e;
     communityCenters :=
       foldl (storeCenter (config e) (nodes e) (communities e))
             ∅ (imap pair (communities e)) |}.

Definition installCommunity (f : Simulation.forces) : Simulation.forces :=
  {| Simulation.link := Simulation.link f;
     Simulation.charge := Simulation.charge f;
     Simulation.center := Simulation.center f;
     Simulation.collision := Simulation.collision f;
     Simulation.community := true;
     Simulation.spherical := Simulation.spherical f |}.

Definition installSpherical (f : Simulation.forces) : Simulation.forces :=
  {| Simulation.link := Simulation.link f;
     Simulation.charge := Simulation.charge f;
     Simulation.center := Simulation.center f;
     Simulation.collision := Simulation.collision f;
     Simulation.community := Simulation.community f;
     Simulation.spherical := true |}.

Definition addCommunityForces (e : t) : t :=
  withSimulation (Simulation.withForce installCommunity)
                 (calculateCommunityCenters e).

Definition addSphericalConstraint (e : t) : t :=
  withSimulation (Simulation.withForce installSpherical) e.

(** [setupForces]: four new library forces (the new link force holds no
    link yet), then the two custom forces. *)
Definition setupForces (e : t) : t :=
  let cfg := config e in
  let e1 :=
    withSimulation
      (Simulation.withForce (λ f,
         {| Simulation.link :=
              Some (Simulation.mkLink []
                      (Some (linkDistance cfg)) (Some (linkStrength cfg)));
            Simulation.charge := Some (Some (nodeChargeStrength cfg));
            Simulation.center :=
              Some (Some (ForceConfig.centerStrength cfg));
            Simulation.collision := Some (Some (collisionRadius cfg));
            Simulation.community := Simulation.community f;
            Simulation.spherical := Simulation.spherical f |})) e in
  addSphericalConstraint (addCommunityForces e1).


(** A call on the library inside the [try] block of [updateConfig]. *)
Definition libraryCall (c : call) (f : Simulation.forces → Simulation.forces)
    (e : t) : exec :=
  if throws h c then Raised e
  else Done (withSimulation (Simulation.withForce f) e).

Definition updateCommunityForce (e : t) : exec :=
  libraryCall community_force installCommunity
              (calculateCommunityCenters e).

Definition updateSphericalForce (e : t) : exec :=
  libraryCall spherical_force installSpherical e.

Definition setCharge (a : Node3D.t → Q) (f : Simulation.forces)
  : Simulation.forces :=
  {| Simulation.link := Simulation.link f;
     Simulation.charge := Some (Some a);
     Simulation.center := Simulation.center f;
     Simulation.collision := Simulation.collision f;
     Simulation.community := Simulation.community f;
     Simulation.spherical := Simulation.spherical f |}.

Definition setLink (l : Simulation.linkForce) (f : Simulation.forces)
  : Simulation.forces :=
  {| Simulation.link := Some l;
     Simulation.charge := Simulation.charge f;
     Simulation.center := Simulation.center f;
     Simulation.collision := Simulation.collision f;
     Simulation.community := Simulation.community f;
     Simulation.spherical := Simulation.spherical f |}.

Definition setCenter (a : Q) (f : Simulation.forces)
  : Simulation.forces :=
  {| Simulation.link := Simulation.link f;
     Simulation.charge := Simulation.charge f;
     Simulation.center := Some (Some a);
     Simulation.collision := Simulation.collision f;
     Simulation.community := Simulation.community f;
     Simulation.spherical := Simulation.spherical f |}.

Definition setCollision (a : Node3D.t → Q) (f : Simulation.forces)
  : Simulation.forces :=
  {| Simulation.link := Simulation.link f;
     Simulation.charge := Simulation.charge f;
     Simulation.center := Simulation.center f;
     Simulation.collision := Some (Some a);
     Simulation.community := Simulation.community f;
     Simulation.spherical := Simulation.spherical f |}.

Definition updateCharge (changes : ForceConfig.partial) (e : t) : exec :=
  if ForceConfig.chargeStrength' changes is Some _ then
    match Simulation.charge (Simulation.force (simulation e)) with
    | Some _ =>
        libraryCall charge_strength
                    (setCharge (nodeChargeStrength (config e))) e
    | None => Done e
    end
  else Done e.

Definition updateLinkDistance (changes : ForceConfig.partial) (e : t)
  : exec :=
  match ForceConfig.linkDistance' changes,
        Simulation.link (Simulation.force (simulation e)) with
  | Some _, Some l =>
      libraryCall link_distance
        (setLink (Simulation.mkLink (Simulation.links l)
                    (Some (linkDistance (config e)))
                    (Simulation.linkStrength l))) e
  | _, _ => Done e
  end.

Definition updateLinkStrength (changes : ForceConfig.partial) (e : t)
  : exec :=
  match ForceConfig.linkStrength' changes,
        Simulation.link (Simulation.force (simulation e)) with
  | Some _, Some l =>
      libraryCall link_strength
        (setLink (Simulation.mkLink (Simulation.links l)
                    (Simulation.distance l)
                    (Some (linkStrength (config e))))) e
  | _, _ => Done e
  end.

Definition updateCenter (changes : ForceConfig.partial) (e : t) : exec :=
  if ForceConfig.centerStrength' changes is Some _ then
    match Simulation.center (Simulation.force (simulation e)) with
    | Some _ =>
        libraryCall center_strength
                    (setCenter (ForceConfig.centerStrength (config e))) e
    | None => Done e
    end
  else Done e.

Definition updateCollision (changes : ForceConfig.partial) (e : t)
  : exec :=
  if ForceConfig.collisionRadius' changes is Some _ then
    match Simulation.collision (Simulation.force (simulation e)) with
    | Some _ =>
        libraryCall collision_radius
          (setCollision (collisionRadius (config e))) e
    | None => Done e
    end
  else Done e.

Definition spatialChange (changes : ForceConfig.partial) : bool :=
  bool_decide (is_Some (ForceConfig.communityStrength' changes)
               ∨ is_Some (ForceConfig.spread3D' changes)
               ∨ is_Some (ForceConfig.levelSpacing' changes)
               ∨ is_Some (ForceConfig.sphericalConstraint' changes)).

Definition updateIndividualForces (oldConfig : ForceConfig.t)
    (changes : ForceConfig.partial) (e : t) : exec :=
  andThen (updateCharge changes e) (λ e,
  andThen (updateLinkDistance changes e) (λ e,
  andThen (updateLinkStrength changes e) (λ e,
  andThen (updateCenter changes e) (λ e,
  andThen (updateCollision changes e) (λ e,
  if spatialChange changes
  then andThen (updateCommunityForce e) updateSphericalForce
  else Done e))))).

Definition updateConfig (newConfig : ForceConfig.partial) (e : t) : t :=
  let oldConfig := config e in
  let e1 := withConfig (ForceConfig.merge (config e) newConfig) e in
  if decide (length (nodes e1) = 0)%nat then e1
  else
    match updateIndividualForces oldConfig newConfig e1 with
    | Done e2 => withSimulation (Simulation.alphaRestart 0.1) e2
    | Raised e2 =>
        withSimulation (Simulation.alphaRestart 0.05) (setupForces e2)
    end.

(** *** The resolver: [precomputeCommunityData] *)

(** The six running extrema of the bounding box; [None] before the first
    node, when they are the infinities. *)
Definition grow (acc : option (Q * Q * (Q * Q) * (Q * Q)))
    (node : Node3D.t) : option (Q * Q * (Q * Q) * (Q * Q)) :=
  match acc with
  | None =>
      Some (Node3D.x node, Node3D.x node,
            (Node3D.y node, Node3D.y node),
            (Node3D.z node, Node3D.z node))
  | Some (minX, maxX, (minY, maxY), (minZ, maxZ)) =>
      Some (Qmin minX (Node3D.x node), Qmax maxX (Node3D.x node),
            (Qmin minY (Node3D.y node), Qmax maxY (Node3D.y node)),
            (Qmin minZ (Node3D.z node), Qmax maxZ (Node3D.z node)))
  end.

Definition bounds (previous : option Bounds.t)
    (communityNodes : list Node3D.t) : option Bounds.t :=
  match foldl grow None communityNodes with
  | Some (minX, maxX, (minY, maxY), (minZ, maxZ)) =>
      let padding := 35 in
      Some {| Bounds.center :=
                ((minX + maxX) / 2, (minY + maxY) / 2, (minZ + maxZ) / 2);
              Bounds.size :=
                (maxX - minX + padding, maxY - minY + padding,
                 maxZ - minZ + padding);
              Bounds.padding := padding |}
  | None => previous
  end.

(** [typeof parent === 'string' ? parseInt(parent) : parent]: a parent
    that is present is a string. *)
Definition parentId (c : Community.t) : option Js.value :=
  Js.parseInt <$> Community.parent c.

(** [this.communities.find(c => c.human_readable_id === v)], as a
    reference. *)
Definition findByHumanId (communities : list Community.t) (v : Js.value)
  : option nat :=
  fst <$> list_find
            (λ c, Js.strictEq (Js.Str (Community.human_readable_id c)) v
                  = true) communities.

Definition parentCommunities (communities : list Community.t)
    (community : Community.t) : list nat :=
  match parentId community with
  | Some v =>
      match findByHumanId communities v with
      | Some parentCommunity => [parentCommunity]
      | None => []
      end
  | None => []
  end.

Definition isChildOf (community other : Community.t) : bool :=
  match parentId other with
  | Some v =>
      Js.strictEq v (Js.Str (Community.human_readable_id community))
  | None => false
  end.

Definition sameId (communities : list Community.t) (r r' : nat) : bool :=
  bool_decide (Community.id <$> communities !! r'
               = Community.id <$> communities !! r).

Definition addListedChild (communities : list Community.t)
    (childCommunities : list nat) (childHumanId : string) : list nat :=
  match findByHumanId communities (Js.parseInt childHumanId) with
  | Some childCommunity =>
      if existsb (sameId communities childCommunity) childCommunities
      then childCommunities
      else childCommunities ++ [childCommunity]
  | None => childCommunities
  end.

Definition childCommunities (communities : list Community.t)
    (community : Community.t) : list nat :=
  let byParent :=
    fst <$> filter (λ ic, isChildOf community ic.2 = true)
                   (imap pair communities) in
  match Community.children community with
  | Some listed => foldl (addListedChild communities) byParent listed
  | None => byParent
  end.

Definition levelOf (communities : list Community.t) (r : nat) : Z :=
  match communities !! r with
  | Some c => Community.level c
  | None => 0%Z
  end.

Definition colors : list string :=
  ["#ff6b6b"; "#4ecdc4"; "#45b7d1"; "#96ceb4"; "#feca57"]%string.

(** [colors[level % colors.length]]; the remainder has the sign of the
    level and a negative index yields [undefined]. *)
Definition paletteColor (level : Z) : option string :=
  let r := Z.rem level (Z.of_nat (length colors)) in
  if decide (0 ≤ r)%Z then colors !! Z.to_nat r else None.

(** The body of the second [this.communities.forEach]. *)
Definition annotate (nodes : list Node3D.t)
    (communities : list Community.t) (community : Community.t)
  : Community.t :=
  let communityNodes :=
    filter (λ node, Node3D.id node ∈ Community.entity_ids community)
           nodes in
  {| Community.id := Community.id community;
     Community.human_readable_id := Community.human_readable_id community;
     Community.community := Community.community community;
     Community.level := Community.level community;
     Community.parent := Community.parent community;
     Community.children := Community.children community;
     Community.title := Community.title community;
     Community.entity_ids := Community.entity_ids community;
     Community.relationship_ids := Community.relationship_ids community;
     Community.text_unit_ids := Community.text_unit_ids community;
     Community.period := Community.period community;
     Community.size := Community.size community;
     Community.computedBounds :=
       bounds (Community.computedBounds community) communityNodes;
     Community.computedHierarchy :=
       Some {| Hierarchy.parentCommunities :=
                 Js.sortBy (levelOf communities)
                           (parentCommunities communities community);
               Hierarchy.childCommunities :=
                 Js.sortBy (levelOf communities)
                           (childCommunities communities community) |};
     Community.computedColor := paletteColor (Community.level community);
     Community.computedOpacity := Some 0.15 |}.

(** The communities are annotated in place, one after the other: each
    turn reads the array as the turns before left it. *)
Definition annotateAt (nodes : list Node3D.t)
    (communities : list Community.t) (i : nat) : list Community.t :=
  match communities !! i with
  | Some community => <[i := annotate nodes communities community]>
                        communities
  | None => communities
  end.

Definition precomputeCommunityData (e : t) : t :=
  withCommunities
    (foldl (annotateAt (nodes e)) (communities e)
           (seq 0 (length (communities e)))) e.

(** *** [generateLayout] *)

(** One tick of the library, before its listeners run: the energy
    decays and the forces move the nodes. *)
Definition tick (e : t) : t :=
  let e1 := withSimulation Simulation.decay e in
  {| simulation := simulation e1;
     nodes := imap (λ i n, move (physics h e1 i) n) (nodes e1);
     links := links e1; communities := communities e1;
     config := config e1; communityCenters := communityCenters e1 |}.

Definition maxIterations : nat := 500.

(** [iterationCount >= maxIterations || this.simulation.alpha() < 0.001] *)
Definition settled (iterationCount : nat) (e : t) : bool :=
  bool_decide (maxIterations ≤ iterationCount)%nat
  || (if Qlt_le_dec (Simulation.alpha (simulation e)) 0.001
      then true else false).

Definition layoutOf (e : t) : GraphLayout.t :=
  {| GraphLayout.nodes := nodes e;
     GraphLayout.links := links e;
     GraphLayout.communities := communities e |}.

(** What became of the promise after some ticks. *)
Inductive run : Type :=
| Resolved (iterationCount : nat) (layout : GraphLayout.t) (e : t)
| Ended (iterationCount : nat) (e : t)
| Pending (iterationCount : nat) (e : t).

(** The timer loop.  At each tick the library decays the energy and
    moves the nodes, calls the listener of [generateLayout], and stops
    by itself once alpha is below [alphaMin] ([Ended]: the simulation is
    over and the promise was not resolved).  [Pending]: [fuel] ticks
    were not enough. *)
Fixpoint ticks (fuel iterationCount : nat) (e : t) : run :=
  match fuel with
  | O => Pending iterationCount e
  | S fuel' =>
      let e1 := tick e in
      let iterationCount' := S iterationCount in
      if settled iterationCount' e1 then
        let e2 :=
          precomputeCommunityData (withSimulation Simulation.stop e1) in
        Resolved iterationCount' (layoutOf e2) e2
      else if Qlt_le_dec (Simulation.alpha (simulation e1))
                         (Simulation.alphaMin (simulation e1))
      then Ended iterationCount' (withSimulation Simulation.stop e1)
      else ticks fuel' iterationCount' e1
  end.

(** [this.simulation.force('link').links(this.links)] *)
Definition giveLinks (ls : list Link3D.t) (f : Simulation.forces)
  : Simulation.forces :=
  match Simulation.link f with
  | Some l =>
      setLink (Simulation.mkLink ls (Simulation.distance l)
                                 (Simulation.linkStrength l)) f
  | None => f
  end.

(** The engine when the timer starts: data preprocessed, forces set
    up, nodes and links handed to the library. *)
Definition start (graphData : GraphData.t) (e : t) : t :=
  let e1 := setupForces (preprocessData graphData e) in
  withSimulation
    (λ s, Simulation.restart
            (Simulation.withForce (giveLinks (links e1)) s)) e1.

Definition generateLayout (fuel : nat) (graphData : GraphData.t) (e : t)
  : run :=
  ticks fuel 0 (start graphData e).

(** The value the promise resolved with, if it did. *)
Definition resolvedLayout (r : run) : option GraphLayout.t :=
  match r with
  | Resolved _ layout _ => Some layout
  | _ => None
  end.

(** *** Vocabulary of the statements *)

(** Two communities with the same loaded fields: they differ at most
    in what the resolver attaches. *)
Definition sameSource (c c' : Community.t) : Prop :=
  Community.id c = Community.id c'
  ∧ Community.human_readable_id c = Community.human_readable_id c'
  ∧ Community.community c = Community.community c'
  ∧ Community.level c = Community.level c'
  ∧ Community.parent c = Community.parent c'
  ∧ Community.children c = Community.children c'
  ∧ Community.title c = Community.title c'
  ∧ Community.entity_ids c = Community.entity_ids c'
  ∧ Community.relationship_ids c = Community.relationship_ids c'
  ∧ Community.text_unit_ids c = Community.text_unit_ids c'
  ∧ Community.period c = Community.period c'
  ∧ Community.size c = Community.size c'.

(** The energy after some ticks, from its value [a] before them. *)
Definition energy (decay target a : Q) (ticks : nat) : Q :=
  Nat.iter ticks (λ a, Qred (a + (target - a) * decay)) a.

Definition energyLow (ticks : nat) : bool :=
  if Qlt_le_dec (energy 0.03 0 1 ticks) 0.001 then true else false.

(** The mean of a list of numbers. *)
Definition mean (xs : list Q) : Q :=
  foldr Qplus 0 xs / ofNat (length xs).

(** The point of the golden-angle spiral with the given index among
    [total] points, at distance [r] from the origin. *)
Definition onSpiral (index total : nat) (r : Q) : Q * Q * Q :=
  let goldenAngle := PI h * (3 - sqrt h 5) in
  let phi := acos h (1 - 2 * (ofNat index / ofNat total)) in
  let theta := goldenAngle * ofNat index in
  (r * sin h phi * cos h theta, r * sin h phi * sin h theta,
   r * cos h phi).

(** The nodes [calculateCommunityCenters] counts as members. *)
Definition members (nodes : list Node3D.t)
    (communities : list Community.t) (community : Community.t)
  : list Node3D.t :=
  filter (λ node, communityId communities node
                  = Some (Community.id community)) nodes.

End Methods.

End ForceSimulation3D.

(** ** Sample inputs of the engine *)

Module Samples.
Import Engine.

(** A host whose trigonometry is constant and whose forces leave every
    node at the origin. *)
Definition host : Engine.host :=
  {| sin := λ _, 0%Q; cos := λ _, 1%Q; acos := λ _, 0%Q;
     sqrt := λ _, 2%Q; PI := 3%Q; random := λ _, 0.5%Q;
     physics := λ _ _, mkKinematics 0 0 0 0 0 0;
     throws := λ _, false |}.

(** The same host, whose library fails when asked for a new charge
    strength. *)
Definition faultyHost : Engine.host :=
  {| sin := λ _, 0%Q; cos := λ _, 1%Q; acos := λ _, 0%Q;
     sqrt := λ _, 2%Q; PI := 3%Q; random := λ _, 0.5%Q;
     physics := λ _ _, mkKinematics 0 0 0 0 0 0;
     throws := λ c, match c with charge_strength => true | _ => false end |}.

Definition entity (i : string) (degree frequency : Q) : Entity.t :=
  {| Entity.id := i; Entity.human_readable_id := i; Entity.title := i;
     Entity.type := "PERSON"; Entity.description := EmptyString;
     Entity.text_unit_ids := []; Entity.frequency := frequency;
     Entity.degree := degree;
     Entity.x := None; Entity.y := None; Entity.z := None |}.

Definition relationship (i source target : string) : Relationship.t :=
  {| Relationship.id := i; Relationship.human_readable_id := i;
     Relationship.source := source; Relationship.target := target;
     Relationship.description := EmptyString; Relationship.weight := 1%Q;
     Relationship.combined_degree := 0%Q;
     Relationship.text_unit_ids := [] |}.

Definition community (i hrid : string) (level : Z) (parent : option string)
    (children entity_ids : list string) : Community.t :=
  {| Community.id := i; Community.human_readable_id := hrid;
     Community.community := hrid; Community.level := level;
     Community.parent := parent; Community.children := Some children;
     Community.title := i; Community.entity_ids := entity_ids;
     Community.relationship_ids := []; Community.text_unit_ids := [];
     Community.period := EmptyString; Community.size := 0%Q;
     Community.computedBounds := None; Community.computedHierarchy := None;
     Community.computedColor := None; Community.computedOpacity := None |}.

(** Two entities in two communities (the second the child of the first),
    a relationship between them and one whose target names no entity. *)
Definition graph : GraphData.t :=
  {| GraphData.entities := [entity "e1" 1 2; entity "e2" 3 4];
     GraphData.relationships :=
       [relationship "r1" "e1" "e2"; relationship "r2" "e1" "nobody"];
     GraphData.communities :=
       [community "A" "0" 0 None ["1"] ["e1"];
        community "B" "1" 1 (Some "0") [] ["e2"]] |}.

(** Two entities with the same abstraction score, 1 + 0.5 * 2 and
    2 + 0.5 * 0. *)
Definition flatGraph : GraphData.t :=
  {| GraphData.entities := [entity "e1" 1 2; entity "e2" 2 0];
     GraphData.relationships := [];
     GraphData.communities :=
       [community "A" "0" 0 None ["1"] ["e1"];
        community "B" "1" 1 (Some "0") [] ["e2"]] |}.

(** The engine after the preprocessing of a graph and the computation of
    the community centers. *)
Definition prepared (g : GraphData.t) : Engine.t :=
  ForceSimulation3D.calculateCommunityCenters host
    (ForceSimulation3D.preprocessData host g (new defaultForceConfig)).

(** A change of the charge strength alone. *)
Definition chargeOnly : ForceConfig.partial :=
  {| ForceConfig.chargeStrength' := Some (-50)%Q;
     ForceConfig.linkDistance' := None;
     ForceConfig.linkStrength' := None;
     ForceConfig.collisionRadius' := None;
     ForceConfig.communityStrength' := None;
     ForceConfig.centerStrength' := None;
     ForceConfig.spread3D' := None;
     ForceConfig.levelSpacing' := None;
     ForceConfig.sphericalConstraint' := None |}.

End Samples.

(** ** The two custom forces

    The closures [addCommunityForces] and [addSphericalConstraint] give
    the library: what a call of each does to the nodes. *)

Module CustomForce.
Import Engine.

Local Open Scope Q_scope.

(** [node.vx || 0] *)
Definition velocity (v : option Q) : Q :=
  match v with
  | Some x => Js.orElse x 0
  | None => 0
  end.

(** [node.vx = (node.vx || 0) + dvx], and the same for [vy] and [vz]. *)
Definition push (node : Node3D.t) (dvx dvy dvz : Q) : Node3D.t :=
  {| Node3D.entity := Node3D.entity node;
     Node3D.x := Node3D.x node; Node3D.y := Node3D.y node;
     Node3D.z := Node3D.z node;
     Node3D.vx := Some (velocity (Node3D.vx node) + dvx);
     Node3D.vy := Some (velocity (Node3D.vy node) + dvy);
     Node3D.vz := Some (velocity (Node3D.vz node) + dvz);
     Node3D.community := Node3D.community node;
     Node3D.communityLevel := Node3D.communityLevel node;
     Node3D.abstractionLevel := Node3D.abstractionLevel node;
     Node3D.computedSize := Node3D.computedSize node;
     Node3D.computedColor := Node3D.computedColor node |}.

(** The body of [this.nodes.forEach] in the community force. *)
Definition attract (e : t) (node : Node3D.t) : Node3D.t :=
  match ForceSimulation3D.communityId (communities e) node with
  | Some i =>
      match communityCenters e !! i with
      | Some center =>
          let dx := Engine.x center - Node3D.x node in
          let dy := Engine.y center - Node3D.y node in
          let dz := Engine.z center - Node3D.z node in
          let communityStrength :=
            ForceConfig.communityStrength (config e) in
          push node (dx * communityStrength) (dy * communityStrength)
               (dz * communityStrength)
      | None => node
      end
  | None => node
  end.

(** The body of [this.nodes.forEach] in the spherical constraint. *)
Definition constrain (h : host) (e : t) (node : Node3D.t) : Node3D.t :=
  let targetRadius := ForceSimulation3D.targetRadius (config e) node in
  let currentDistance :=
    sqrt h (Node3D.x node * Node3D.x node + Node3D.y node * Node3D.y node
            + Node3D.z node * Node3D.z node) in
  if Qlt_le_dec 0 currentDistance then
    let radiusDiff := targetRadius - currentDistance in
    let adjustmentStrength := ForceConfig.sphericalConstraint (config e) in
    let dirX := Node3D.x node / currentDistance in
    let dirY := Node3D.y node / currentDistance in
    let dirZ := Node3D.z node / currentDistance in
    let force := radiusDiff * adjustmentStrength in
    push node (dirX * force) (dirY * force) (dirZ * force)
  else node.

Definition withNodes (ns : list Node3D.t) (e : t) : t :=
  {| simulation := simulation e; nodes := ns; links := links e;
     communities := communities e; config := config e;
     communityCenters := communityCenters e |}.

(** A call of each closure: every node is visited once, and a visit reads
    and writes that node only. *)
Definition communityForce (e : t) : t :=
  withNodes (attract e <$> nodes e) e.

Definition sphericalForce (h : host) (e : t) : t :=
  withNodes (constrain h e <$> nodes e) e.

(** *** Vocabulary of the statements *)

(** The change of velocity between a node and what a force made of it. *)
Definition impulse (node node' : Node3D.t) : Q * Q * Q :=
  (velocity (Node3D.vx node') - velocity (Node3D.vx node),
   velocity (Node3D.vy node') - velocity (Node3D.vy node),
   velocity (Node3D.vz node') - velocity (Node3D.vz node)).

Definition dot (u v : Q * Q * Q) : Q :=
  u.1.1 * v.1.1 + u.1.2 * v.1.2 + u.2 * v.2.

Definition position (node : Node3D.t) : Q * Q * Q :=
  (Node3D.x node, Node3D.y node, Node3D.z node).

Definition centerPoint (c : center) : Q * Q * Q :=
  (Engine.x c, Engine.y c, Engine.z c).

Definition minus (u v : Q * Q * Q) : Q * Q * Q :=
  (u.1.1 - v.1.1, u.1.2 - v.1.2, u.2 - v.2).

(** Two nodes that differ at most in their velocity. *)
Definition sameButVelocity (node node' : Node3D.t) : Prop :=
  Node3D.entity node' = Node3D.entity node
  ∧ position node' = position node
  ∧ Node3D.community node' = Node3D.community node
  ∧ Node3D.communityLevel node' = Node3D.communityLevel node
  ∧ Node3D.abstractionLevel node' = Node3D.abstractionLevel node
  ∧ Node3D.computedSize node' = Node3D.computedSize node
  ∧ Node3D.computedColor node' = Node3D.computedColor node.



(** The links the library's link force holds ([None]: no link force). *)
Definition heldLinks (e : t) : option (list Link3D.t) :=
  Simulation.links <$> Simulation.link (Simulation.force (simulation e)).

(** The cached centers are the ones [calculateCommunityCenters] computes
    from the engine's present nodes, communities and configuration. *)
Definition coherent (h : host) (e : t) : Prop :=
  communityCenters e
  = communityCenters (ForceSimulation3D.calculateCommunityCenters h e).

End CustomForce.

(** ** The page ([src/app/page.tsx]): filters and visible communities *)

Module Page.

(** The state the hooks below read.  [selectedNode] is a node of the
    layout. *)
Record state : Type := mkState {
  layout : option GraphLayout.t;
  graphData : option GraphData.t;
  selectedEntityTypes : gset string;
  selectedLevel : option Z;
  minRelationshipWeight : Q;
  selectedNode : option Node3D.t;
  inspectorMode : bool
}.

(** [node.type] *)
Definition type (node : Node3D.t) : string :=
  Entity.type (Node3D.entity node).

(** [link.source.id] and [link.target.id]: the id of the node a
    reference names in the array [owner] of the full layout. *)
Definition endpointId (owner : list Node3D.t) (r : nat) : option string :=
  Node3D.id <$> owner !! r.

(** [node.community]: the community a node's reference names in the
    array [communities]. *)
Definition communityOf (communities : list Community.t) (node : Node3D.t)
  : option Community.t :=
  match Node3D.community node with
  | Some r => communities !! r
  | None => None
  end.

(** [visibleNodeIds.has(link.source.id)] *)
Definition visibleEnd (owner : list Node3D.t) (visibleNodeIds : gset string)
    (r : nat) : bool :=
  match endpointId owner r with
  | Some i => bool_decide (i ∈ visibleNodeIds)
  | None => false
  end.

(** [filteredLayout].  The links of the result keep their references
    into the node array of the full layout ([layout.nodes]); the result's
    own [nodes] is the filtered array. *)
Definition filteredLayout (s : state) : option GraphLayout.t :=
  match layout s, graphData s with
  | Some layout, Some _ =>
      let filteredNodes := GraphLayout.nodes layout in
      let filteredLinks := GraphLayout.links layout in
      let filteredNodes :=
        if decide (0 < base.size (selectedEntityTypes s))%nat
        then filter (λ node, type node ∈ selectedEntityTypes s)
                    filteredNodes
        else filteredNodes in
      let filteredNodes :=
        match selectedLevel s with
        | Some level =>
            filter (λ node, Node3D.communityLevel node = level)
                   filteredNodes
        | None => filteredNodes
        end in
      let visibleNodeIds : gset string :=
        list_to_set (Node3D.id <$> filteredNodes) in
      let filteredLinks :=
        filter (λ link,
                  Qle_bool (minRelationshipWeight s) (Link3D.weight link)
                  && visibleEnd (GraphLayout.nodes layout) visibleNodeIds
                                (Link3D.source link)
                  && visibleEnd (GraphLayout.nodes layout) visibleNodeIds
                                (Link3D.target link) = true)
               filteredLinks in
      Some {| GraphLayout.nodes := filteredNodes;
              GraphLayout.links := filteredLinks;
              GraphLayout.communities := GraphLayout.communities layout |}
  | _, _ => None
  end.

(** [link.source.id === selectedNode.id || link.target.id ===
    selectedNode.id] *)
Definition touches (owner : list Node3D.t) (selected : Node3D.t)
    (link : Link3D.t) : bool :=
  bool_decide (endpointId owner (Link3D.source link)
               = Some (Node3D.id selected))
  || bool_decide (endpointId owner (Link3D.target link)
                  = Some (Node3D.id selected)).

(** [connectedLinks] *)
Definition connectedLinks (s : state) : list Link3D.t :=
  match selectedNode s, filteredLayout s, layout s with
  | Some selected, Some filtered, Some layout =>
      filter (λ link, touches (GraphLayout.nodes layout) selected link
                      = true)
             (GraphLayout.links filtered)
  | _, _, _ => []
  end.

(** [visibleCommunities]; [None] only when [fuel] turns of the selector's
    loop were not enough. *)
Definition visibleCommunities (fuel : nat) (s : state)
  : option (list Community.t) :=
  match layout s with
  | None => Some []
  | Some layout =>
      match inspectorMode s, selectedNode s with
      | true, Some selected =>
          match communityOf (GraphLayout.communities layout) selected with
          | Some community =>
              Selector.getCompleteHierarchyTree
                fuel community (GraphLayout.communities layout)
          | None => Some []
          end
      | _, _ => Some (GraphLayout.communities layout)
      end
  end.

End Page.

(** ** The inspector panel: [hierarchyInfo] and [connectedNodes] *)

Module Inspector.

Inductive communityMode : Type := off | auto | all.

Record info : Type := mkInfo {
  selected : Community.t;
  parents : list Community.t;
  children : list Community.t
}.

(** [visibleCommunities.find(c => c.human_readable_id === v)] *)
Definition find (visibleCommunities : list Community.t) (v : Js.value)
  : option Community.t :=
  snd <$> list_find
            (λ c, Js.strictEq (Js.Str (Community.human_readable_id c)) v
                  = true) visibleCommunities.

(** One turn of [selectedCommunity.children.forEach]: the listed id is a
    string and is compared as it is. *)
Definition addListedChild (visibleCommunities : list Community.t)
    (children : list Community.t) (childHumanId : string)
  : list Community.t :=
  match find visibleCommunities (Js.Str childHumanId) with
  | Some childCommunity =>
      if existsb (Selector.hasId (Community.id childCommunity)) children
      then children
      else children ++ [childCommunity]
  | None => children
  end.

(** [hierarchyInfo]; [communities] is the array the node's reference
    points into. *)
Definition hierarchyInfo (communities : list Community.t)
    (selectedNode : option Node3D.t)
    (visibleCommunities : list Community.t) (mode : communityMode)
  : option info :=
  match selectedNode ≫= Page.communityOf communities, mode with
  | None, _ | _, off => None
  | Some selectedCommunity, _ =>
      let parents : list Community.t :=
        match ForceSimulation3D.parentId selectedCommunity with
        | Some parentId =>
            match find visibleCommunities parentId with
            | Some parentCommunity => [parentCommunity]
            | None => []
            end
        | None => []
        end in
      let children : list Community.t :=
        filter (λ community,
                  ForceSimulation3D.isChildOf selectedCommunity community
                  = true) visibleCommunities in
      let children :=
        match Community.children selectedCommunity with
        | Some listed =>
            foldl (addListedChild visibleCommunities) children listed
        | None => children
        end in
      Some {| selected := selectedCommunity;
              parents := Js.sortBy Community.level parents;
              children := Js.sortBy Community.level children |}
  end.

(** An entry of [connectedNodesMap]: the reference of the other node and
    the largest weight met. *)
Record entry : Type := mkEntry {
  node : nat;
  maxWeight : Q
}.

(** [connectedNodesMap.set(key, value)] on a map kept in insertion order:
    a key already present keeps its place. *)
Fixpoint mapSet (key : string) (value : entry)
    (m : list (string * entry)) : list (string * entry) :=
  match m with
  | [] => [(key, value)]
  | kv :: m' =>
      if decide (kv.1 = key) then (key, value) :: m'
      else kv :: mapSet key value m'
  end.

Definition mapGet (key : string) (m : list (string * entry))
  : option entry :=
  (λ found, found.2.2) <$> list_find (λ kv, kv.1 = key) m.

(** [link.source.id === selectedNode.id ? link.target : link.source] *)
Definition otherNode (owner : list Node3D.t) (selectedNode : Node3D.t)
    (link : Link3D.t) : nat :=
  if bool_decide (Page.endpointId owner (Link3D.source link)
                  = Some (Node3D.id selectedNode))
  then Link3D.target link else Link3D.source link.

(** The body of [connectedLinks.forEach]; [owner] is the node array of
    the layout.  A link whose other end is no node is skipped. *)
Definition record (owner : list Node3D.t) (selectedNode : Node3D.t)
    (m : list (string * entry)) (link : Link3D.t)
  : list (string * entry) :=
  let otherNode := otherNode owner selectedNode link in
  match Page.endpointId owner otherNode with
  | Some otherId =>
      match mapGet otherId m with
      | Some existing =>
          if Qlt_le_dec (maxWeight existing) (Link3D.weight link)
          then mapSet otherId (mkEntry otherNode (Link3D.weight link)) m
          else m
      | None => mapSet otherId (mkEntry otherNode (Link3D.weight link)) m
      end
  | None => m
  end.

Definition connectedNodesMap (owner : list Node3D.t)
    (selectedNode : Node3D.t) (connectedLinks : list Link3D.t)
  : list (string * entry) :=
  foldl (record owner selectedNode) [] connectedLinks.

(** [Array.prototype.sort] with the comparator [key(b) - key(a)] on
    numbers: stable, largest key first. *)
Fixpoint insertDesc {A : Type} (key : A → Q) (a : A) (l : list A)
  : list A :=
  match l with
  | [] => [a]
  | b :: l' =>
      if Qle_bool (key b) (key a) then a :: b :: l'
      else b :: insertDesc key a l'
  end.

Definition sortDesc {A : Type} (key : A → Q) (l : list A) : list A :=
  foldr (insertDesc key) [] l.

(** The id of a link's other end. *)
Definition otherId (owner : list Node3D.t) (selectedNode : Node3D.t)
    (link : Link3D.t) : option string :=
  Page.endpointId owner (otherNode owner selectedNode link).

(** What the map holds once the links were recorded: one entry for
    each id met at the other end of a link, with a link of the largest
    weight among those that lead to this id. *)
Definition recorded (owner : list Node3D.t) (selectedNode : Node3D.t)
    (links : list Link3D.t) (m : list (string * entry)) : Prop :=
  NoDup m.*1
  ∧ (∀ k e, (k, e) ∈ m →
       ∃ l, l ∈ links ∧ otherId owner selectedNode l = Some k
            ∧ otherNode owner selectedNode l = node e
            ∧ Link3D.weight l = maxWeight e)
  ∧ (∀ k e l, (k, e) ∈ m → l ∈ links →
              otherId owner selectedNode l = Some k →
              (Link3D.weight l <= maxWeight e)%Q)
  ∧ (∀ l k, l ∈ links → otherId owner selectedNode l = Some k →
            k ∈ m.*1).

(** [connectedNodes], as references. *)
Definition connectedNodes (owner : list Node3D.t) (selectedNode : Node3D.t)
    (connectedLinks : list Link3D.t) : list nat :=
  node <$> sortDesc maxWeight
                    (snd <$> connectedNodesMap owner selectedNode
                                               connectedLinks).

End Inspector.

(** ** The visualizer ([src/components/GraphVisualizer.tsx]) *)

Module Visualizer.

(** The callback of [layout.nodes.filter] in [filteredNodes]. *)
Definition keep (selectedEntityTypes : gset string)
    (selectedLevel : option Z) (node : Node3D.t) : bool :=
  if bool_decide (0 < base.size selectedEntityTypes)%nat
     && negb (bool_decide (Page.type node ∈ selectedEntityTypes))
  then false
  else match selectedLevel with
       | Some level =>
           if bool_decide (Node3D.communityLevel node ≠ level) then false
           else true
       | None => true
       end.

(** [filteredNodes]; the layout is the one the page hands over. *)
Definition filteredNodes (layout : option GraphLayout.t)
    (selectedEntityTypes : gset string) (selectedLevel : option Z)
  : list Node3D.t :=
  match layout with
  | None => []
  | Some layout =>
      filter (λ node, keep selectedEntityTypes selectedLevel node = true)
             (GraphLayout.nodes layout)
  end.

(** [filteredLinks]; [owner] is the node array the links refer to. *)
Definition filteredLinks (owner : list Node3D.t)
    (layout : option GraphLayout.t) (filteredNodes : list Node3D.t)
    (minRelationshipWeight : Q) : list Link3D.t :=
  match layout with
  | None => []
  | Some layout =>
      let visibleNodeIds : gset string :=
        list_to_set (Node3D.id <$> filteredNodes) in
      filter (λ link,
                (if Qlt_le_dec (Link3D.weight link) minRelationshipWeight
                 then false
                 else Page.visibleEnd owner visibleNodeIds
                                      (Link3D.source link)
                      && Page.visibleEnd owner visibleNodeIds
                                         (Link3D.target link)) = true)
             (GraphLayout.links layout)
  end.

(** [Array.prototype.sort] with the comparator [a - b] on numbers. *)
Fixpoint insertAsc (a : Q) (l : list Q) : list Q :=
  match l with
  | [] => [a]
  | b :: l' =>
      if Qle_bool a b then a :: b :: l' else b :: insertAsc a l'
  end.

Definition sortAsc (l : list Q) : list Q := foldr insertAsc [] l.

(** [weights[Math.min(weights.length - 1, Math.max(0, qIndex))]] with
    [qIndex = Math.floor(weights.length * 0.9)]. *)
Definition threshold (weights : list Q) : option Q :=
  let qIndex := (length weights * 9 / 10)%nat in
  weights !! Nat.min (length weights - 1) (Nat.max 0 qIndex).

(** The links the effect picks as hero edges, and the set of their ids
    it stores; with no layout the stored set is left as it was. *)
Definition heroLinks (layout : GraphLayout.t) : list Link3D.t :=
  let weights := sortAsc (Link3D.weight <$> GraphLayout.links layout) in
  match threshold weights with
  | Some threshold =>
      filter (λ l, Qle_bool threshold (Link3D.weight l) = true)
             (GraphLayout.links layout)
  | None => []
  end.

Definition heroEdgeIds (layout : option GraphLayout.t)
    (previous : gset string) : gset string :=
  match layout with
  | None => previous
  | Some layout => list_to_set (Link3D.id <$> heroLinks layout)
  end.

(** What [CommunityBoundary] draws. *)
Record boundary : Type := mkBoundary {
  color : string;
  opacity : Q;
  bounds : Bounds.t
}.

(** [list.some(other => other.id === community.id)] on a list of
    references into [communities]. *)
Definition someSameId (communities : list Community.t)
    (community : Community.t) (refs : list nat) : bool :=
  existsb (λ r, bool_decide (Community.id <$> communities !! r
                             = Some (Community.id community))) refs.

(** [community.computedColor || '#95a5a6'] *)
Definition colorOr (c : option string) (d : string) : string :=
  match c with
  | Some (String a s) => String a s
  | _ => d
  end.

(** [community.computedOpacity || 0.15] *)
Definition opacityOr (o : option Q) (d : Q) : Q :=
  match o with
  | Some x => Js.orElse x d
  | None => d
  end.

(** [CommunityBoundary]: [None] when nothing is drawn.  [communities]
    is the array the references of [computedHierarchy] point into. *)
Definition communityBoundary (communities : list Community.t)
    (community : Community.t) (visible : bool)
    (selectedCommunity : option Community.t)
    (mode : Inspector.communityMode) : option boundary :=
  let isSelected :=
    match selectedCommunity with
    | Some s => bool_decide (Community.id community = Community.id s)
    | None => false
    end in
  let isAncestor :=
    match selectedCommunity ≫= Community.computedHierarchy with
    | Some hierarchy =>
        someSameId communities community
                   (Hierarchy.parentCommunities hierarchy)
    | None => false
    end in
  let isDescendant :=
    match selectedCommunity ≫= Community.computedHierarchy with
    | Some hierarchy =>
        someSameId communities community
                   (Hierarchy.childCommunities hierarchy)
    | None => false
    end in
  let color :=
    if isSelected then "#ffaa00"
    else if isAncestor then "#4a90e2"
    else if isDescendant then "#7ed321"
    else colorOr (Community.computedColor community) "#95a5a6" in
  let baseOpacity :=
    if isSelected then 0.25%Q
    else if isAncestor then 0.2%Q
    else if isDescendant then 0.18%Q
    else opacityOr (Community.computedOpacity community) 0.15%Q in
  let op :=
    match mode with
    | Inspector.auto => (baseOpacity + 0.2)%Q
    | _ => baseOpacity
    end in
  match visible, Community.computedBounds community with
  | true, Some b => Some {| color := color; opacity := op; bounds := b |}
  | _, _ => None
  end.



End Visualizer.

(** ** More sample inputs *)

Module MoreSamples.
Import Engine.

(** A node at a given place, with the fields of the first sample
    entity. *)
Definition nodeAt (x y z : Q) (community : option nat) : Node3D.t :=
  {| Node3D.entity := Samples.entity "e1" 1 2;
     Node3D.x := x; Node3D.y := y; Node3D.z := z;
     Node3D.vx := None; Node3D.vy := None; Node3D.vz := None;
     Node3D.community := community; Node3D.communityLevel := 0;
     Node3D.abstractionLevel := 0.5%Q; Node3D.computedSize := 1%Q;
     Node3D.computedColor := "#45b7d1" |}.

(** The layout of the sample graph before any tick, and a page that
    shows it with the filters of the application. *)
Definition layout : GraphLayout.t :=
  ForceSimulation3D.layoutOf (Samples.prepared Samples.graph).

Definition page (level : option Z) (selected : option Node3D.t)
    (inspector : bool) : Page.state :=
  {| Page.layout := Some layout;
     Page.graphData := Some Samples.graph;
     Page.selectedEntityTypes := ∅;
     Page.selectedLevel := level;
     Page.minRelationshipWeight := 1%Q;
     Page.selectedNode := selected;
     Page.inspectorMode := inspector |}.

End MoreSamples.

(** * Facts about the JavaScript built-ins *)

Section SortBy.
Context {A : Type} (key : A → Z).

Lemma insertBy_perm a l : Js.insertBy key a l ≡ₚ a :: l.
Proof.
  induction l as [|b l IH]; simpl; [done|].
  destruct (key a <=? key b)%Z; [done|].
  rewrite IH. apply Permutation_swap.
Qed.

Lemma sortBy_perm l : Js.sortBy key l ≡ₚ l.
Proof.
  unfold Js.sortBy. induction l as [|a l IH]; simpl; [done|].
  by rewrite insertBy_perm, IH.
Qed.

Lemma sortBy_elem a l : a ∈ Js.sortBy key l ↔ a ∈ l.
Proof. by rewrite sortBy_perm. Qed.

Lemma insertBy_sorted a l :
  StronglySorted (λ x y, (key x ≤ key y)%Z) l →
  StronglySorted (λ x y, (key x ≤ key y)%Z) (Js.insertBy key a l).
Proof.
  induction 1 as [|b l Hs IH Hb]; simpl; [repeat constructor|].
  destruct (key a <=? key b)%Z eqn:E.
  - apply Z.leb_le in E. constructor; [by constructor|].
    constructor; [done|]. eapply Forall_impl; [exact Hb|]. simpl. lia.
  - apply Z.leb_gt in E. constructor; [done|].
    rewrite insertBy_perm. constructor; [lia | done].
Qed.

Lemma sortBy_sorted l :
  StronglySorted (λ x y, (key x ≤ key y)%Z) (Js.sortBy key l).
Proof.
  unfold Js.sortBy. induction l as [|a l IH]; simpl; [constructor|].
  by apply insertBy_sorted.
Qed.
End SortBy.

(** * Facts about the subtree selector *)

Section SelectorFacts.
Import Community Selector.

Implicit Types (c p r : Community.t) (l all : list Community.t).

(** The two lookup maps. *)

Lemma byHumanId_snoc all c :
  communityByHumanIdMap (all ++ [c])
  = <[human_readable_id c := c]> (communityByHumanIdMap all).
Proof. unfold communityByHumanIdMap. by rewrite foldl_snoc. Qed.

Lemma byHumanId_sound all k c :
  communityByHumanIdMap all !! k = Some c →
  c ∈ all ∧ human_readable_id c = k.
Proof.
  induction all as [|d all IH] using rev_ind; [done|].
  rewrite byHumanId_snoc, lookup_insert.
  case_decide as Hk.
  - intros [= ->]. split; [set_solver | done].
  - intros Hl. destruct (IH Hl) as [Hin Hid]. split; [set_solver | done].
Qed.

Lemma byHumanId_complete all c :
  NoDup (human_readable_id <$> all) → c ∈ all →
  communityByHumanIdMap all !! human_readable_id c = Some c.
Proof.
  induction all as [|d all IH] using rev_ind; [set_solver|].
  rewrite fmap_app, byHumanId_snoc. intros Hnd Hin.
  apply NoDup_app in Hnd as (Hnd & Hdisj & _).
  rewrite lookup_insert. case_decide as Hk.
  - apply elem_of_app in Hin as [Hin | Hin].
    + exfalso. apply (Hdisj (human_readable_id c)).
      * by apply list_elem_of_fmap_2.
      * rewrite <- Hk. set_solver.
    + apply list_elem_of_singleton in Hin. by subst.
  - apply elem_of_app in Hin as [Hin | Hin]; [by apply IH|].
    apply list_elem_of_singleton in Hin. by subst.
Qed.

Lemma byHumanId_none all k :
  (∀ c, c ∈ all → human_readable_id c ≠ k) →
  communityByHumanIdMap all !! k = None.
Proof.
  intros Hno. destruct (communityByHumanIdMap all !! k) as [c|] eqn:E; [|done].
  apply byHumanId_sound in E as [Hin Hid]. by destruct (Hno c Hin).
Qed.

Lemma byParent_snoc all c :
  childrenByParentId (all ++ [c])
  = childrenByParentId_add (childrenByParentId all) c.
Proof. unfold childrenByParentId. by rewrite foldl_snoc. Qed.

Lemma byParent_spec all k c :
  c ∈ default [] (childrenByParentId all !! k)
  ↔ c ∈ all ∧ parent c = Some k.
Proof.
  induction all as [|d all IH] using rev_ind.
  - unfold childrenByParentId. simpl. rewrite lookup_empty. simpl. set_solver.
  - rewrite byParent_snoc. unfold childrenByParentId_add.
    destruct (parent d) as [pid|] eqn:Hp.
    + rewrite lookup_insert. case_decide as Hk.
      * subst pid. simpl. rewrite elem_of_app, IH, elem_of_app.
        rewrite !list_elem_of_singleton. split.
        -- intros [[? ?] | ->]; auto.
        -- intros [[? | ->] ?]; auto.
      * rewrite IH, elem_of_app, list_elem_of_singleton. split.
        -- intros [? ?]; auto.
        -- intros [[? | ->] ?]; [auto | congruence].
    + rewrite IH, elem_of_app, list_elem_of_singleton. split.
      * intros [? ?]; auto.
      * intros [[? | ->] ?]; [auto | congruence].
Qed.

Lemma byParent_length all k :
  (length (default [] (childrenByParentId all !! k)) ≤ length all)%nat.
Proof.
  induction all as [|d all IH] using rev_ind.
  - unfold childrenByParentId. simpl. rewrite lookup_empty. simpl. lia.
  - rewrite byParent_snoc, length_app. simpl. unfold childrenByParentId_add.
    destruct (parent d) as [pid|]; [|lia].
    rewrite lookup_insert. case_decide as Hk.
    + subst. simpl. rewrite length_app. simpl. lia.
    + lia.
Qed.
End SelectorFacts.

Section WalkUp.
Import Community Selector.
Implicit Types (c p r : Community.t) (l all : list Community.t).

(** The counter of [walkUp] is never what stops the walk. *)
Lemma walkUp_head n (m : gmap string Community.t) c path :
  ∃ r rest, walkUp n m c (c :: path) = r :: rest.
Proof.
  revert c path. induction n as [|n IH]; intros c path; simpl; [eauto|].
  destruct (parent c) as [pid|]; [|eauto].
  destruct (m !! pid) as [p|]; [|eauto].
  case_decide; [eauto|]. apply IH.
Qed.

Lemma walkUp_climb all k : ∀ n c r path,
  NoDup (human_readable_id <$> all) →
  ancestor all k c r → topLevel all r →
  (k ≤ n)%nat → (length (c :: path) + k ≤ 11)%nat →
  ∃ rest, walkUp n (communityByHumanIdMap all) c (c :: path) = r :: rest.
Proof.
  induction k as [|k IH]; intros n c r path Hnd Hanc Htop Hn Hlen.
  - inversion Hanc; subst. destruct n as [|n]; simpl; [eauto|].
    destruct (parent r) as [pid|] eqn:Hp; [|eauto].
    rewrite byHumanId_none; [eauto|]. intros d Hd. by apply Htop.
  - inversion Hanc as [|k' c' p r' Hp Hin Hanc']; subst.
    destruct n as [|n]; [lia|]. simpl. rewrite Hp.
    rewrite byHumanId_complete by done.
    case_decide as Hlong.
    + assert (k = 0)%nat as -> by (simpl in *; lia).
      inversion Hanc'; subst. eauto.
    + apply IH; try done; simpl in *; lia.
Qed.

Lemma rootCommunity_climb all k sel r :
  NoDup (human_readable_id <$> all) →
  ancestor all k sel r → topLevel all r → (k ≤ 10)%nat →
  rootCommunity (communityByHumanIdMap all) sel = r.
Proof.
  intros Hnd Hanc Htop Hk. unfold rootCommunity.
  destruct (walkUp_climb all k 10 sel r [] Hnd Hanc Htop Hk) as [rest ->];
    [simpl; lia | done].
Qed.

(** A community whose parent id matches nothing is its own root. *)
Lemma rootCommunity_unresolved (m : gmap string Community.t) sel :
  (∀ pid, parent sel = Some pid → m !! pid = None) →
  rootCommunity m sel = sel.
Proof.
  intros Hno. unfold rootCommunity. simpl.
  destruct (parent sel) as [pid|] eqn:Hp; [|done].
  by rewrite (Hno pid eq_refl).
Qed.

Lemma rootCommunity_in all sel :
  rootCommunity (communityByHumanIdMap all) sel = sel
  ∨ rootCommunity (communityByHumanIdMap all) sel ∈ all.
Proof.
  unfold rootCommunity.
  assert (∀ n c path, (c = sel ∨ c ∈ all) →
            match walkUp n (communityByHumanIdMap all) c (c :: path) with
            | r :: _ => r = sel ∨ r ∈ all | [] => True end) as H.
  { induction n as [|n IH]; intros c path Hc; simpl; [done|].
    destruct (parent c) as [pid|]; [|done].
    destruct (communityByHumanIdMap all !! pid) as [p|] eqn:E; [|done].
    apply byHumanId_sound in E as [Hin _].
    case_decide; [auto|]. apply IH. auto. }
  specialize (H 10%nat sel [] (or_introl eq_refl)).
  destruct (walkUp 10 _ sel [sel]); [auto | done].
Qed.
End WalkUp.

Section Descent.
Import Community Selector.
Implicit Types (c p r : Community.t) (l all : list Community.t).

Lemma idsOf_size l : (base.size (idsOf l) ≤ length l)%nat.
Proof.
  unfold idsOf. induction l as [|c l IH].
  - rewrite fmap_nil, list_to_set_nil, size_empty. simpl. lia.
  - rewrite fmap_cons, list_to_set_cons. simpl length.
    rewrite size_union_alt, size_singleton.
    assert (base.size (list_to_set (id <$> l) ∖ {[id c]} : gset string)
            ≤ base.size (list_to_set (id <$> l) : gset string))%nat
      by (apply subseteq_size; set_solver).
    lia.
Qed.

Lemma idsOf_elem l c : c ∈ l → id c ∈ idsOf l.
Proof.
  intros Hin. unfold idsOf. apply elem_of_list_to_set.
  by apply list_elem_of_fmap_2.
Qed.

Lemma existsb_hasId i l :
  existsb (hasId i) l = true ↔ ∃ c, c ∈ l ∧ id c = i.
Proof.
  rewrite existsb_exists. unfold hasId. split.
  - intros (c & Hin & Hc). apply bool_decide_eq_true in Hc.
    exists c. by rewrite <- list_elem_of_In in Hin.
  - intros (c & Hin & Hc). exists c. split; [by apply list_elem_of_In|].
    by apply bool_decide_eq_true.
Qed.

(** What [community.children.forEach] leaves in [children]. *)
Section Explicit.
Variable m : gmap string Community.t.

Lemma addExplicit_keeps cur listed c :
  c ∈ cur → c ∈ foldl (addExplicitChild m) cur listed.
Proof.
  revert cur. induction listed as [|h listed IH]; intros cur Hin; [done|].
  simpl. apply IH. unfold addExplicitChild.
  destruct (m !! h) as [cc|]; [|done].
  destruct (existsb _ _); [done | set_solver].
Qed.

Lemma addExplicit_from cur listed c :
  c ∈ foldl (addExplicitChild m) cur listed →
  c ∈ cur ∨ ∃ h, h ∈ listed ∧ m !! h = Some c.
Proof.
  revert cur. induction listed as [|h listed IH]; intros cur Hin; [auto|].
  simpl in Hin. apply IH in Hin as [Hin | (h' & Hh' & Hm)].
  - unfold addExplicitChild in Hin.
    destruct (m !! h) as [cc|] eqn:E; [|auto].
    destruct (existsb _ _); [auto|].
    apply elem_of_app in Hin as [? | Hin]; [auto|].
    apply list_elem_of_singleton in Hin. subst. right. exists h.
    split; [set_solver | done].
  - right. exists h'. split; [set_solver | done].
Qed.

Lemma addExplicit_covers cur listed h c :
  h ∈ listed → m !! h = Some c →
  ∃ c', c' ∈ foldl (addExplicitChild m) cur listed ∧ id c' = id c.
Proof.
  revert cur. induction listed as [|h' listed IH]; intros cur Hh Hm;
    [set_solver|].
  apply elem_of_cons in Hh as [-> | Hh]; [|by apply IH].
  simpl. unfold addExplicitChild at 2. rewrite Hm.
  destruct (existsb _ _) eqn:E.
  - apply existsb_hasId in E as (c' & Hin & Hid).
    exists c'. split; [by apply addExplicit_keeps | done].
  - exists c. split; [|done]. apply addExplicit_keeps. set_solver.
Qed.

(** Each push brings an id the array did not hold. *)
Lemma addExplicitChild_length cur h :
  (length (addExplicitChild m cur h) + base.size (idsOf cur)
   ≤ length cur + base.size (idsOf (addExplicitChild m cur h)))%nat.
Proof.
  unfold addExplicitChild. destruct (m !! h) as [cc|]; [|lia].
  destruct (existsb (hasId (id cc)) cur) eqn:Ex; [lia|].
  assert (id cc ∉ idsOf cur) as Hfresh.
  { intros Hin. apply elem_of_list_to_set, list_elem_of_fmap in Hin
      as (c' & Hid & Hin).
    assert (existsb (hasId (id cc)) cur = true) as Ht
      by (apply existsb_hasId; eauto).
    congruence. }
  unfold idsOf in *. rewrite fmap_app, list_to_set_app_L, length_app.
  rewrite fmap_cons, fmap_nil, list_to_set_cons, list_to_set_nil.
  rewrite union_empty_r_L, size_union by set_solver.
  rewrite size_singleton. simpl length. lia.
Qed.

Lemma addExplicit_length cur listed :
  (length (foldl (addExplicitChild m) cur listed) + base.size (idsOf cur)
   ≤ length cur
     + base.size (idsOf (foldl (addExplicitChild m) cur listed)))%nat.
Proof.
  revert cur. induction listed as [|h listed IH]; intros cur; [simpl; lia|].
  simpl. specialize (IH (addExplicitChild m cur h)).
  pose proof (addExplicitChild_length cur h). lia.
Qed.
End Explicit.
End Descent.

Section Termination.
Import Community Selector.
Implicit Types (c p r : Community.t) (l : list Community.t).
Variables (all : list Community.t) (root : Community.t).

Lemma bounded_initial : bounded all root (initial root all).
Proof.
  split; simpl.
  - intros c Hc. apply list_elem_of_singleton in Hc. auto.
  - intros k l Hl. split.
    + intros c Hc. apply (byParent_spec all k c). by rewrite Hl.
    + pose proof (byParent_length all k) as Hlen. rewrite Hl in Hlen.
      simpl in Hlen. lia.
Qed.

Lemma bounded_skip c rest vis sub bp :
  bounded all root (BfsState (c :: rest) vis sub bp) →
  bounded all root (BfsState rest vis sub bp).
Proof. intros [Hq Hm]. split; [|done]. intros d Hd. apply Hq. set_solver. Qed.

(** The array of children a visit works on. *)
Lemma children_bounded st key listed :
  bounded all root st →
  let children :=
    foldl (addExplicitChild (communityByHumanIdMap all))
          (default [] (byParent st !! key)) listed in
  (∀ c, c ∈ children → c ∈ all)
  ∧ (length children ≤ length all + base.size (idsOf children))%nat.
Proof.
  intros [_ Hm] children.
  assert ((∀ c, c ∈ default [] (byParent st !! key) → c ∈ all)
          ∧ (length (default [] (byParent st !! key))
             ≤ length all
               + base.size (idsOf (default [] (byParent st !! key))))%nat)
    as [Hin Hlen].
  { destruct (byParent st !! key) as [l|] eqn:E; [by apply (Hm key)|].
    simpl. split; [set_solver | lia]. }
  split.
  - intros c Hc. apply addExplicit_from in Hc as [Hc | (h & _ & Hc)]; [auto|].
    by apply byHumanId_sound in Hc as [? _].
  - pose proof (addExplicit_length (communityByHumanIdMap all)
                  (default [] (byParent st !! key)) listed).
    fold children in H. lia.
Qed.

Lemma children_length st key listed :
  bounded all root st →
  (length (foldl (addExplicitChild (communityByHumanIdMap all))
                 (default [] (byParent st !! key)) listed)
   ≤ 2 * length all)%nat.
Proof.
  intros Hb. destruct (children_bounded st key listed Hb) as [Hin Hlen].
  set (children := foldl _ _ _) in *.
  assert (base.size (idsOf children) ≤ base.size (idsOf all))%nat.
  { apply subseteq_size. intros i Hi.
    apply elem_of_list_to_set, list_elem_of_fmap in Hi as (c & -> & Hc).
    apply idsOf_elem. auto. }
  pose proof (idsOf_size all). lia.
Qed.

Lemma bounded_visit p rest st st' :
  bounded all root st → queue st = p :: rest →
  visit (communityByHumanIdMap all) p rest st = Returned st' →
  bounded all root st'
  ∧ (length (queue st') ≤ length rest + 2 * length all)%nat
  ∧ visited st' = {[id p]} ∪ visited st.
Proof.
  intros Hb Hq. unfold visit.
  destruct (children p) as [listed|]; [|done]. intros [= <-]. simpl.
  destruct (children_bounded st (human_readable_id p) listed Hb)
    as [Hin Hlen].
  pose proof (children_length st (human_readable_id p) listed Hb) as Hcap.
  set (children := foldl _ _ _) in *.
  split; [split; simpl|split; [|done]].
  - intros c Hc. apply elem_of_app in Hc as [Hc | Hc].
    + apply Hb. rewrite Hq. set_solver.
    + apply list_elem_of_filter in Hc as [_ Hc]. auto.
  - intros k l. destruct (byParent st !! human_readable_id p) eqn:E.
    + rewrite lookup_insert. case_decide.
      * intros [= <-]. done.
      * apply Hb.
    + apply Hb.
  - rewrite length_app.
    pose proof (length_filter (λ c, id c ∉ {[id p]} ∪ visited st) children).
    lia.
Qed.

(** Enough turns empty the queue. *)
Lemma bfs_terminates fuel : ∀ st,
  bounded all root st →
  (length (queue st)
   + 2 * length all * base.size (idsOf (root :: all) ∖ visited st) < fuel)%nat →
  is_Some (bfs fuel (communityByHumanIdMap all) st).
Proof.
  induction fuel as [|fuel IH]; intros st Hb Hfuel; [lia|].
  simpl. destruct (queue st) as [|p rest] eqn:Hq; [eauto|].
  case_decide as Hvis.
  - apply IH; [destruct st; simpl in *; subst; by eapply bounded_skip|].
    simpl in *. lia.
  - destruct (visit _ p rest st) as [st'|] eqn:Hv; [|eauto].
    destruct (bounded_visit p rest st st' Hb Hq Hv) as (Hb' & Hlen & Hvis').
    apply IH; [done|]. rewrite Hvis'.
    assert (id p ∈ idsOf (root :: all)) as HU.
    { destruct Hb as [Hqs _]. destruct (Hqs p) as [-> | Hin];
        [rewrite Hq; set_solver | |]; apply idsOf_elem; set_solver. }
    assert (idsOf (root :: all) ∖ visited st
            = {[id p]} ∪ idsOf (root :: all) ∖ ({[id p]} ∪ visited st))
      as Hsplit.
    { apply set_eq. intros i. destruct (decide (i = id p)); set_solver. }
    rewrite Hsplit in Hfuel. rewrite size_union in Hfuel by set_solver.
    rewrite size_singleton in Hfuel. simpl in Hfuel. nia.
Qed.

Lemma bfs_within_loopBound fuel :
  (loopBound all ≤ fuel)%nat →
  is_Some (bfs fuel (communityByHumanIdMap all) (initial root all)).
Proof.
  intros Hfuel. apply bfs_terminates; [apply bounded_initial|].
  simpl. unfold loopBound in Hfuel.
  assert (base.size (idsOf (root :: all) ∖ ∅) ≤ S (length all))%nat.
  { etransitivity; [apply subseteq_size|apply (idsOf_size (root :: all))].
    set_solver. }
  nia.
Qed.
End Termination.

Section Correctness.
Import Community Selector.
Implicit Types (c p r : Community.t) (l : list Community.t).
Variables (all : list Community.t) (root : Community.t).

Lemma foundChild_in p c : foundChild all p c → c ∈ all.
Proof.
  intros [Hc | (listed & h & _ & _ & Hc)].
  - by apply byParent_spec in Hc as [? _].
  - by apply byHumanId_sound in Hc as [? _].
Qed.

Lemma reached_in c : reached all root c → c = root ∨ c ∈ all.
Proof. destruct 1; [auto|]. right. by eapply foundChild_in. Qed.

Lemma exploring_initial : exploring all root (initial root all).
Proof.
  repeat split; simpl; try set_solver.
  intros c Hc. apply list_elem_of_singleton in Hc as ->. constructor.
Qed.

Lemma exploring_skip c rest vis sub bp :
  id c ∈ vis →
  exploring all root (BfsState (c :: rest) vis sub bp) →
  exploring all root (BfsState rest vis sub bp).
Proof.
  intros Hc (I1 & I2 & I3 & I4 & I5 & I6 & I7). simpl in *.
  split; [|split; [|split; [|split]]]; simpl; try done.
  - intros d Hd. apply I1. set_solver.
  - intros p d Hp Hv Hd. destruct (I3 p d Hp Hv Hd) as [? | Hin]; [auto|].
    apply elem_of_cons in Hin as [-> | ?]; auto.
  - destruct I4 as [? | Hin]; [auto|].
    apply elem_of_cons in Hin as [-> | ?]; auto.
Qed.

(** Communities that share an id are the same community. *)
Hypothesis id_inj : ∀ c c',
  (c = root ∨ c ∈ all) → (c' = root ∨ c' ∈ all) → id c = id c' → c = c'.

Lemma exploring_visit p rest st st' :
  exploring all root st → queue st = p :: rest → id p ∉ visited st →
  visit (communityByHumanIdMap all) p rest st = Returned st' →
  exploring all root st'.
Proof.
  intros (I1 & I2 & I3 & I4 & I5 & I6 & I7) Hq Hnew. unfold visit.
  destruct (children p) as [listed|] eqn:Hch; [|done]. intros [= <-].
  assert (reached all root p) as Hp by (apply I1; rewrite Hq; set_solver).
  set (cur := default [] (byParent st !! human_readable_id p)).
  set (found := foldl (addExplicitChild (communityByHumanIdMap all)) cur listed).
  assert (∀ c, c ∈ default [] (childrenByParentId all
                                 !! human_readable_id p) → c ∈ cur)
    as Hcur by apply I6.
  assert (∀ c, c ∈ found → reached all root c) as Hfound.
  { intros c Hc. apply addExplicit_from in Hc as [Hc | (h & Hh & Hc)].
    - destruct (I5 _ _ Hc) as [Hc0 | ?]; [|done].
      eapply reached_child; [exact Hp | by left].
    - eapply reached_child; [exact Hp|]. right. eauto. }
  assert (∀ c, foundChild all p c → c ∈ found) as Hall.
  { intros c Hc. pose proof (reached_child _ _ _ _ Hp Hc) as Hrc.
    destruct Hc as [Hc | (listed' & h & Hl & Hh & Hc)].
    - apply addExplicit_keeps. by apply I6.
    - rewrite Hch in Hl. injection Hl as <-.
      destruct (addExplicit_covers _ cur listed h c Hh Hc) as (c' & Hc' & Hid).
      fold found in Hc'.
      assert (c' = c) as <-; [|done].
      apply id_inj; [apply reached_in; auto | by apply reached_in | done]. }
  assert (∀ c, c ∈ found →
               id c ∈ {[id p]} ∪ visited st
               ∨ c ∈ rest ++ filter (λ c, id c ∉ {[id p]} ∪ visited st) found)
    as Hseen.
  { intros c Hc. destruct (decide (id c ∈ {[id p]} ∪ visited st)); [auto|].
    right. apply elem_of_app. right. by apply list_elem_of_filter. }
  split; [|split; [|split; [|split; [|split; [|split]]]]]; simpl.
  - intros c Hc. apply elem_of_app in Hc as [Hc | Hc].
    + apply I1. rewrite Hq. set_solver.
    + apply list_elem_of_filter in Hc as [_ Hc]. auto.
  - intros i Hi. apply elem_of_union in Hi as [Hi | Hi]; [|auto].
    apply elem_of_singleton in Hi as ->. eauto.
  - intros p' c Hp' Hv Hc. apply elem_of_union in Hv as [Hv | Hv].
    + apply elem_of_singleton in Hv.
      assert (p' = p) as -> by (apply id_inj; auto using reached_in).
      auto.
    + destruct (I3 p' c Hp' Hv Hc) as [? | Hin]; [set_solver|].
      rewrite Hq in Hin. apply elem_of_cons in Hin as [-> | ?];
        [set_solver|]. right. set_solver.
  - destruct I4 as [? | Hin]; [set_solver|]. rewrite Hq in Hin.
    apply elem_of_cons in Hin as [-> | ?]; [set_solver|]. right. set_solver.
  - intros k c. destruct (byParent st !! human_readable_id p) eqn:E;
      [|apply I5].
    rewrite lookup_insert. case_decide; [|apply I5]. simpl. auto.
  - intros k c Hc. destruct (byParent st !! human_readable_id p) eqn:E;
      [|by apply I6].
    rewrite lookup_insert. case_decide as Hk; [|by apply I6]. simpl.
    subst k. by apply addExplicit_keeps, Hcur.
  - by rewrite I7.
Qed.

(** The descent, once over, has visited exactly what can be reached. *)
Lemma bfs_reached fuel : ∀ st ids,
  exploring all root st →
  bfs fuel (communityByHumanIdMap all) st = Some (Returned ids) →
  ∀ c, (c = root ∨ c ∈ all) → id c ∈ ids ↔ reached all root c.
Proof.
  induction fuel as [|fuel IH]; intros st ids Hinv; [done|]. simpl.
  destruct (queue st) as [|p rest] eqn:Hq.
  - intros [= <-] c Hc.
    destruct Hinv as (I1 & I2 & I3 & I4 & I5 & I6 & ->).
    rewrite Hq in *. split.
    + intros Hi. destruct (I2 _ Hi) as (c' & Hr & Hid).
      assert (c' = c) as <-; [|done].
      apply id_inj; auto using reached_in.
    + clear Hc. induction 1 as [|p c Hp IHp Hc].
      * destruct I4 as [? | ?]; [done | set_solver].
      * destruct (I3 p c Hp) as [? | ?]; [by apply IHp|done|done|set_solver].
  - case_decide as Hvis.
    + apply IH. destruct st; simpl in *; subst. by eapply exploring_skip.
    + destruct (visit _ p rest st) as [st'|] eqn:Hv; [|done].
      apply IH. by eapply exploring_visit.
Qed.

(** A visit throws only on a reachable community without children
    array. *)
Lemma bfs_thrown fuel : ∀ st,
  exploring all root st →
  bfs fuel (communityByHumanIdMap all) st = Some Thrown →
  ∃ c, reached all root c ∧ children c = None.
Proof.
  induction fuel as [|fuel IH]; intros st Hinv; [done|]. simpl.
  destruct (queue st) as [|p rest] eqn:Hq; [done|].
  case_decide as Hvis.
  - apply IH. destruct st; simpl in *; subst. by eapply exploring_skip.
  - destruct (visit _ p rest st) as [st'|] eqn:Hv.
    + apply IH. by eapply exploring_visit.
    + intros _. exists p. split.
      * destruct Hinv as (I1 & _). apply I1. rewrite Hq. set_solver.
      * unfold visit in Hv. by destruct (children p).
Qed.
End Correctness.

Section Trees.
Import Community Selector.
Implicit Types (c p r : Community.t) (l all : list Community.t).

Lemma bfs_more_fuel (m : gmap string Community.t) fuel : ∀ fuel' st res,
  bfs fuel m st = Some res → (fuel ≤ fuel')%nat → bfs fuel' m st = Some res.
Proof.
  induction fuel as [|fuel IH]; intros fuel' st res; [done|].
  destruct fuel' as [|fuel']; [lia|]. simpl. intros H Hle.
  destruct (queue st) as [|p rest]; [done|].
  case_decide; [apply IH; [done | lia]|].
  destruct (visit m p rest st); [|done]. apply IH; [done | lia].
Qed.

Lemma id_injective all c c' :
  NoDup (id <$> all) → c ∈ all → c' ∈ all → id c = id c' → c = c'.
Proof.
  intros Hnd Hc Hc' Hid.
  apply list_elem_of_lookup in Hc as [i Hi].
  apply list_elem_of_lookup in Hc' as [j Hj].
  assert (i = j) as ->; [|congruence].
  apply (NoDup_lookup (id <$> all) i j (id c)); [exact Hnd | |].
  - by rewrite list_lookup_fmap, Hi.
  - by rewrite list_lookup_fmap, Hj, Hid.
Qed.

Lemma ancestor_in all k c r : c ∈ all → ancestor all k c r → r ∈ all.
Proof. intros Hc. induction 1; auto. Qed.

Lemma foundChild_childOf all p c :
  NoDup (human_readable_id <$> all) →
  foundChild all p c ↔ childOf all p c.
Proof.
  intros Hnd. unfold foundChild, childOf. rewrite byParent_spec. split.
  - intros [[? ?] | (listed & h & Hl & Hh & Hc)]; [auto|].
    apply byHumanId_sound in Hc as [Hin <-]. eauto.
  - intros [Hin [? | (listed & Hl & Hh)]]; [auto|].
    right. exists listed, (human_readable_id c).
    split; [done|]. split; [done|]. by apply byHumanId_complete.
Qed.

Lemma reached_descendant all root c :
  NoDup (human_readable_id <$> all) →
  reached all root c ↔ descendant all root c.
Proof.
  intros Hnd. split; induction 1; try constructor.
  - econstructor; [eassumption|]. by apply foundChild_childOf.
  - econstructor; [eassumption|]. by apply foundChild_childOf.
Qed.

(** The subtree collected from a root of a well-formed list. *)
Lemma subtreeOf_spec all root fuel :
  wellFormed all → root ∈ all → (loopBound all ≤ fuel)%nat →
  ∃ result,
    subtreeOf fuel root all = Some (Returned result)
    ∧ sortedByLevel result
    ∧ ∀ c, c ∈ result ↔ c ∈ all ∧ descendant all root c.
Proof.
  intros (Hid & Hhid & Hch) Hroot Hfuel. unfold subtreeOf.
  assert (∀ c c', (c = root ∨ c ∈ all) → (c' = root ∨ c' ∈ all) →
                  id c = id c' → c = c') as Hinj.
  { intros c c' Hc Hc'. apply (id_injective all); [done| |].
    - by destruct Hc as [-> | ?].
    - by destruct Hc' as [-> | ?]. }
  destruct (bfs_within_loopBound all root fuel Hfuel) as [[ids|] Hbfs];
    rewrite Hbfs.
  - eexists. split; [done|]. split; [apply sortBy_sorted|].
    intros c. unfold sortByLevel. rewrite sortBy_elem, list_elem_of_filter.
    rewrite <- reached_descendant by done. split.
    + intros [Hi Hc]. split; [done|].
      apply (bfs_reached all root Hinj fuel _ ids
               (exploring_initial all root) Hbfs); auto.
    + intros [Hc Hr]. split; [|done].
      apply (bfs_reached all root Hinj fuel _ ids
               (exploring_initial all root) Hbfs); auto.
  - destruct (bfs_thrown all root Hinj fuel _
                (exploring_initial all root) Hbfs) as (c & Hr & Hnone).
    apply reached_in in Hr. destruct (Hch c) as [? Hsome].
    + by destruct Hr as [-> | ?].
    + congruence.
Qed.
End Trees.

Section SelectorClaims.
Import Community Selector.
Implicit Types (c p r : Community.t) (l all : list Community.t).

Lemma wellFormed_sample_ABC : wellFormed [commA; commB; commC].
Proof.
  split; [|split].
  - apply (bool_decide_unpack _). by vm_compute.
  - apply (bool_decide_unpack _). by vm_compute.
  - intros c Hc. repeat (apply elem_of_cons in Hc as [-> | Hc]; [by eexists|]).
    by apply not_elem_of_nil in Hc.
Qed.

Lemma topLevel_commA : topLevel [commA; commB; commC] commA.
Proof. intros pid c Hp. discriminate Hp. Qed.

Lemma ancestor_C_A : ancestor [commA; commB; commC] 2 commC commA.
Proof.
  apply (ancestor_up _ 1 commC commB commA); [done | set_solver |].
  apply (ancestor_up _ 0 commB commA commA); [done | set_solver |].
  constructor.
Qed.

Lemma ancestor_B_A : ancestor [commA; commB; commC] 1 commB commA.
Proof.
  apply (ancestor_up _ 0 commB commA commA); [done | set_solver |].
  constructor.
Qed.

Lemma chain_climb j : ∀ name,
  chainNames !! j = Some name → ancestor chain j (link j name) top.
Proof.
  induction j as [|j IH]; intros name Hname.
  - injection Hname as <-. constructor.
  - assert (j < length chainNames)%nat as Hj
      by (apply lookup_lt_Some in Hname; lia).
    apply lookup_lt_is_Some in Hj as [name' Hname'].
    apply (ancestor_up _ j _ (link j name')); [| |by apply IH].
    + unfold link at 1, sample. simpl parent. by rewrite Hname'.
    + apply list_elem_of_lookup. exists j. unfold chain.
      by rewrite list_lookup_imap, Hname'.
Qed.

(** C3 as stated fails: twelve communities in a chain form a hierarchy,
    yet selecting the deepest one does not return what selecting its root
    returns. *)
Lemma deep_selection_differs_from_root :
  wellFormed chain
  ∧ deepest ∈ chain
  ∧ ancestor chain 11 deepest top
  ∧ topLevel chain top
  ∧ getCompleteHierarchyTree (loopBound chain) deepest chain
    ≠ getCompleteHierarchyTree (loopBound chain) top chain.
Proof.
  split; [|split; [|split; [|split]]].
  - split; [|split].
    + apply (bool_decide_unpack _). by vm_compute.
    + apply (bool_decide_unpack _). by vm_compute.
    + intros c Hc. apply list_elem_of_lookup in Hc as [i Hi].
      unfold chain in Hi. rewrite list_lookup_imap in Hi.
      destruct (chainNames !! i); [|done]. injection Hi as <-. by eexists.
  - apply list_elem_of_lookup. by exists 11%nat.
  - by apply chain_climb.
  - intros pid c Hp. discriminate Hp.
  - vm_compute. discriminate.
Qed.

(** C3 (amended): in a list of communities with distinct ids and distinct
    human-readable ids, each holding an array of children, when the
    selected community lies at most ten parent links below a community
    [r] that has no parent in the list,
    [getCompleteHierarchyTree] returns the same list for the selection
    and for [r]; the list is sorted by level ascending and holds exactly
    the communities of the input that descend from [r].  In the scenario
    A (root), B (parent A), C (parent B), selecting C and selecting B both
    return [A, B, C]. *)
Theorem hierarchy_tree_within_ten_hops :
  (∀ all sel r k fuel,
     wellFormed all → sel ∈ all → ancestor all k sel r → topLevel all r →
     (k ≤ 10)%nat → (loopBound all ≤ fuel)%nat →
     ∃ result,
       getCompleteHierarchyTree fuel sel all = Some result
       ∧ getCompleteHierarchyTree fuel r all = Some result
       ∧ sortedByLevel result
       ∧ ∀ c, c ∈ result ↔ c ∈ all ∧ descendant all r c)
  ∧ getCompleteHierarchyTree (loopBound [commA; commB; commC]) commC
      [commA; commB; commC] = Some [commA; commB; commC]
  ∧ getCompleteHierarchyTree (loopBound [commA; commB; commC]) commB
      [commA; commB; commC] = Some [commA; commB; commC].
Proof.
  split; [|split; by vm_compute].
  intros all sel r k fuel.
  intros Hwf Hsel Hanc Htop Hk Hfuel.
  pose proof (ancestor_in all k sel r Hsel Hanc) as Hr.
  destruct (subtreeOf_spec all r fuel Hwf Hr Hfuel)
    as (result & Hsub & Hsorted & Hmem).
  exists result. destruct Hwf as (_ & Hhid & _).
  unfold getCompleteHierarchyTree, tryBlock.
  rewrite (rootCommunity_climb all k sel r Hhid Hanc Htop Hk).
  rewrite (rootCommunity_climb all 0 r r Hhid (ancestor_self all r) Htop)
    by lia.
  rewrite Hsub. destruct all; [by apply not_elem_of_nil in Hsel | done].
Qed.

Lemma hierarchy_tree_within_ten_hops_witness :
  ∃ result,
    getCompleteHierarchyTree 26 commC [commA; commB; commC] = Some result
    ∧ getCompleteHierarchyTree 26 commA [commA; commB; commC] = Some result
    ∧ sortedByLevel result
    ∧ ∀ c, c ∈ result
           ↔ c ∈ [commA; commB; commC]
             ∧ descendant [commA; commB; commC] commA c.
Proof.
  apply (proj1 hierarchy_tree_within_ten_hops
           [commA; commB; commC] commC commA 2%nat 26%nat).
  - exact wellFormed_sample_ABC.
  - set_solver.
  - exact ancestor_C_A.
  - exact topLevel_commA.
  - lia.
  - vm_compute. lia.
Defined.

(** C7: a community whose parent id matches no community of the list (or
    that has no parent) is the root the upward walk resolves, and
    selecting it returns the subtree collected from it: in a well-formed
    list, the communities that descend from it, sorted by level. *)
Theorem unresolved_parent_is_own_root all sel fuel :
  topLevel all sel → (loopBound all ≤ fuel)%nat →
  rootCommunity (communityByHumanIdMap all) sel = sel
  ∧ tryBlock fuel sel all = subtreeOf fuel sel all
  ∧ (wellFormed all → sel ∈ all →
     ∃ result,
       getCompleteHierarchyTree fuel sel all = Some result
       ∧ sortedByLevel result
       ∧ ∀ c, c ∈ result ↔ c ∈ all ∧ descendant all sel c).
Proof.
  intros Htop Hfuel.
  assert (rootCommunity (communityByHumanIdMap all) sel = sel) as Hroot.
  { apply rootCommunity_unresolved. intros pid Hp.
    apply byHumanId_none. intros c Hc. by apply (Htop pid c). }
  split; [done|]. unfold getCompleteHierarchyTree, tryBlock.
  rewrite Hroot. split; [done|]. intros Hwf Hsel.
  destruct (subtreeOf_spec all sel fuel Hwf Hsel Hfuel)
    as (result & -> & Hsorted & Hmem).
  exists result. destruct all; [by apply not_elem_of_nil in Hsel | done].
Qed.

Lemma unresolved_parent_is_own_root_witness :
  topLevel [commA; orphan; orphanChild] orphan
  ∧ getCompleteHierarchyTree 26 orphan [commA; orphan; orphanChild]
    = Some [orphan; orphanChild].
Proof.
  assert (topLevel [commA; orphan; orphanChild] orphan) as Htop.
  { intros pid c Hp Hc. injection Hp as <-.
    repeat (apply elem_of_cons in Hc as [-> | Hc]; [done|]).
    by apply not_elem_of_nil in Hc. }
  split; [exact Htop|].
  destruct (unresolved_parent_is_own_root
              [commA; orphan; orphanChild] orphan 26 Htop)
    as (_ & Htry & _); [vm_compute; lia|].
  unfold getCompleteHierarchyTree. rewrite Htry. by vm_compute.
Defined.

(** C8: [getCompleteHierarchyTree] returns a list for every selection and
    every list of communities (the descent loop ends within [loopBound]
    turns and no exception leaves the function), and when its [try]
    block throws the result is the selection alone. *)
Theorem getCompleteHierarchyTree_fail_soft all sel fuel :
  (loopBound all ≤ fuel)%nat →
  (∃ result, getCompleteHierarchyTree fuel sel all = Some result)
  ∧ (all ≠ [] → tryBlock fuel sel all = Some Thrown →
     getCompleteHierarchyTree fuel sel all = Some [sel]).
Proof.
  intros Hfuel. split.
  - unfold getCompleteHierarchyTree, tryBlock, subtreeOf.
    destruct all as [|c0 all']; [eauto|].
    destruct (bfs_within_loopBound (c0 :: all')
                (rootCommunity (communityByHumanIdMap (c0 :: all')) sel)
                fuel Hfuel) as [[ids|] ->]; eauto.
  - intros Hne Hthrown. unfold getCompleteHierarchyTree.
    rewrite Hthrown. by destruct all.
Qed.

Lemma getCompleteHierarchyTree_fail_soft_witness :
  tryBlock 14 broken [broken; commA] = Some Thrown
  ∧ getCompleteHierarchyTree 14 broken [broken; commA] = Some [broken].
Proof.
  assert (tryBlock 14 broken [broken; commA] = Some Thrown) as Hthrown
    by (by vm_compute).
  split; [exact Hthrown|].
  apply (getCompleteHierarchyTree_fail_soft [broken; commA] broken 14).
  - vm_compute. lia.
  - done.
  - exact Hthrown.
Defined.
End SelectorClaims.

(** * Facts about the resolver *)

Section Resolver.
Import Engine ForceSimulation3D.
Implicit Types (c : Community.t) (cs : list Community.t)
               (ns : list Node3D.t).

(** A string never equals what [parseInt] returns. *)
Lemma strictEq_Str_parseInt s t : Js.strictEq (Js.Str s) (Js.parseInt t) = false.
Proof.
  unfold Js.parseInt. destruct (match Js.trimStart t with
                                | String "-" s' => _ | _ => _ end) as [sg body].
  by destruct (Js.unsignedInt body).
Qed.

Lemma strictEq_parseInt_Str s t : Js.strictEq (Js.parseInt t) (Js.Str s) = false.
Proof.
  unfold Js.parseInt. destruct (match Js.trimStart t with
                                | String "-" s' => _ | _ => _ end) as [sg body].
  by destruct (Js.unsignedInt body).
Qed.

Lemma findByHumanId_parseInt cs t : findByHumanId cs (Js.parseInt t) = None.
Proof.
  unfold findByHumanId.
  destruct (list_find _ cs) as [[i c]|] eqn:E; [|done].
  apply list_find_Some in E as (_ & Hc & _).
  by rewrite strictEq_Str_parseInt in Hc.
Qed.

Lemma parentCommunities_nil cs c : parentCommunities cs c = [].
Proof.
  unfold parentCommunities, parentId.
  destruct (Community.parent c) as [p|]; simpl; [|done].
  by rewrite findByHumanId_parseInt.
Qed.

Lemma isChildOf_false c other : isChildOf c other = false.
Proof.
  unfold isChildOf, parentId.
  destruct (Community.parent other) as [p|]; simpl; [|done].
  apply strictEq_parseInt_Str.
Qed.

Lemma childCommunities_nil cs c : childCommunities cs c = [].
Proof.
  unfold childCommunities.
  assert (filter (λ ic : nat * Community.t, isChildOf c ic.2 = true)
                 (imap pair cs) = []) as ->.
  { induction (imap pair cs) as [|ic l IH]; [done|].
    rewrite filter_cons_False; [done|]. by rewrite isChildOf_false. }
  simpl. destruct (Community.children c) as [listed|]; [|done].
  induction listed as [|h listed IH]; [done|]. simpl.
  unfold addListedChild at 2. by rewrite findByHumanId_parseInt.
Qed.

(** What [annotate] attaches does not depend on the other communities. *)
Lemma annotate_alone ns cs c : annotate ns cs c = annotate ns [] c.
Proof.
  unfold annotate.
  by rewrite !parentCommunities_nil, !childCommunities_nil.
Qed.

Lemma bounds_again previous ns : bounds (bounds previous ns) ns = bounds previous ns.
Proof.
  unfold bounds. destruct (foldl grow None ns) as [[[[minX maxX] [minY maxY]] [minZ maxZ]]|]; done.
Qed.

Lemma annotate_again ns cs cs' c :
  annotate ns cs' (annotate ns cs c) = annotate ns cs c.
Proof.
  rewrite (annotate_alone ns cs'), (annotate_alone ns cs).
  unfold annotate. simpl. by rewrite bounds_again.
Qed.

Lemma annotate_all ns : ∀ before rest,
  foldl (annotateAt ns) (before ++ rest)
        (seq (length before) (length rest))
  = before ++ (annotate ns [] <$> rest).
Proof.
  intros before rest. revert before.
  induction rest as [|c rest IH]; intros before; [done|]. simpl.
  unfold annotateAt at 2.
  rewrite lookup_app_r, Nat.sub_diag by lia. simpl.
  rewrite insert_app_r_alt, Nat.sub_diag by lia. simpl.
  rewrite (annotate_alone ns _ c).
  replace (before ++ annotate ns [] c :: rest)
    with ((before ++ [annotate ns [] c]) ++ rest)
    by by rewrite <- app_assoc.
  replace (S (length before)) with (length (before ++ [annotate ns [] c]))
    by (rewrite length_app; simpl; lia).
  rewrite IH. by rewrite <- app_assoc.
Qed.

Lemma precomputeCommunityData_eq e :
  precomputeCommunityData e
  = withCommunities (annotate (nodes e) [] <$> communities e) e.
Proof.
  unfold precomputeCommunityData. f_equal.
  apply (annotate_all (nodes e) [] (communities e)).
Qed.

(** C9: running [precomputeCommunityData] a second time leaves the engine
    as the first run left it (so every derived field of every community
    is identical), and a run touches neither the simulation nor the
    nodes. *)
Theorem precomputeCommunityData_idempotent e :
  precomputeCommunityData (precomputeCommunityData e)
  = precomputeCommunityData e
  ∧ simulation (precomputeCommunityData e) = simulation e
  ∧ nodes (precomputeCommunityData e) = nodes e
  ∧ links (precomputeCommunityData e) = links e.
Proof.
  split; [|done].
  rewrite (precomputeCommunityData_eq (precomputeCommunityData e)).
  rewrite !(precomputeCommunityData_eq e).
  unfold withCommunities. simpl. f_equal.
  rewrite <- list_fmap_compose. apply list_fmap_ext. intros i c _. simpl.
  apply (annotate_again (nodes e) [] [] c).
Qed.

(** C4 fails on the code: the parent field and the listed children are
    turned into numbers by [parseInt] and compared with [===] to
    human-readable ids, which are strings, so no community ever matches:
    both lists of [computedHierarchy] are empty for every community.  In
    the list A, B, C, where B names A as its parent and A lists B, the
    resolver gives B no parent and A no child. *)
Theorem resolver_finds_no_parent_and_no_child :
  (∀ ns cs c,
     Community.computedHierarchy (annotate ns cs c)
     = Some {| Hierarchy.parentCommunities := [];
               Hierarchy.childCommunities := [] |})
  ∧ Community.parent Selector.commB
    = Some (Community.human_readable_id Selector.commA)
  ∧ Community.children Selector.commA
    = Some [Community.human_readable_id Selector.commB]
  ∧ Community.computedHierarchy
      <$> communities
            (precomputeCommunityData
               (withCommunities
                  [Selector.commA; Selector.commB; Selector.commC]
                  (new defaultForceConfig)))
    = [Some (Hierarchy.mk [] []); Some (Hierarchy.mk [] []);
       Some (Hierarchy.mk [] [])].
Proof.
  split; [|split; [done|split; [done|]]].
  - intros ns cs c. unfold annotate. simpl.
    by rewrite parentCommunities_nil, childCommunities_nil.
  - by vm_compute.
Qed.
End Resolver.

(** * Facts about the layout engine *)

Section Reconfiguration.
Import Engine ForceSimulation3D.
Variable h : host.
Implicit Types (e : t) (changes : ForceConfig.partial) (r : exec).

Lemma kept_libraryCall c f e : kept e (libraryCall h c f e).
Proof. unfold libraryCall. by destruct (throws h c). Qed.

Lemma kept_andThen e r k :
  kept e r → (∀ e', kept e' (k e')) → kept e (andThen r k).
Proof.
  intros (Hn & Hl & Hc & Hg & Ha) Hk. destruct r as [e'|e']; simpl in *.
  - destruct (Hk e') as (Hn' & Hl' & Hc' & Hg' & Ha').
    repeat split; congruence.
  - done.
Qed.

Lemma kept_updateIndividualForces old changes e :
  kept e (updateIndividualForces h old changes e).
Proof.
  unfold updateIndividualForces.
  apply kept_andThen; [|intros e1; apply kept_andThen;
    [|intros e2; apply kept_andThen; [|intros e3; apply kept_andThen;
      [|intros e4; apply kept_andThen; [|intros e5]]]]].
  - unfold updateCharge. destruct (ForceConfig.chargeStrength' changes);
      [|done]. destruct (Simulation.charge _); [|done].
    apply kept_libraryCall.
  - unfold updateLinkDistance. destruct (ForceConfig.linkDistance' changes);
      [|done]. destruct (Simulation.link _); [|done].
    apply kept_libraryCall.
  - unfold updateLinkStrength. destruct (ForceConfig.linkStrength' changes);
      [|done]. destruct (Simulation.link _); [|done].
    apply kept_libraryCall.
  - unfold updateCenter. destruct (ForceConfig.centerStrength' changes);
      [|done]. destruct (Simulation.center _); [|done].
    apply kept_libraryCall.
  - unfold updateCollision.
    destruct (ForceConfig.collisionRadius' changes); [|done].
    destruct (Simulation.collision _); [|done]. apply kept_libraryCall.
  - destruct (spatialChange changes); [|done].
    apply kept_andThen; [|intros e6; apply kept_libraryCall].
    unfold updateCommunityForce, libraryCall.
    by destruct (throws h community_force).
Qed.

(** Without a change no call is made on the library. *)
Lemma updateIndividualForces_empty old e :
  updateIndividualForces h old ForceConfig.empty e = Done e.
Proof. done. Qed.

Lemma merge_empty cfg : ForceConfig.merge cfg ForceConfig.empty = cfg.
Proof. by destruct cfg. Qed.

(** C6: whatever the partial configuration, [updateConfig] leaves the
    node array (hence every x, y, z), the links and the communities as
    they were; the configuration becomes the merged one and the energy
    becomes 0.1 when the incremental update completes and 0.05 when it
    throws and the forces are set up again (it is left alone when the
    engine holds no node).  With an empty partial configuration the
    engine is unchanged but for the energy set to 0.1 and the timer
    restarted. *)
Theorem updateConfig_keeps_positions newConfig e :
  nodes (updateConfig h newConfig e) = nodes e
  ∧ links (updateConfig h newConfig e) = links e
  ∧ communities (updateConfig h newConfig e) = communities e
  ∧ config (updateConfig h newConfig e)
    = ForceConfig.merge (config e) newConfig
  ∧ Simulation.alpha (simulation (updateConfig h newConfig e))
    = match nodes e with
      | [] => Simulation.alpha (simulation e)
      | _ :: _ =>
          match updateIndividualForces h (config e) newConfig
                  (withConfig (ForceConfig.merge (config e) newConfig) e)
          with
          | Done _ => 0.1%Q
          | Raised _ => 0.05%Q
          end
      end
  ∧ updateConfig h ForceConfig.empty e
    = match nodes e with
      | [] => e
      | _ :: _ => withSimulation (Simulation.alphaRestart 0.1) e
      end.
Proof.
  unfold updateConfig.
  pose proof (kept_updateIndividualForces (config e) newConfig
                (withConfig (ForceConfig.merge (config e) newConfig) e))
    as (Hn & Hl & Hc & Hg & Ha).
  rewrite updateIndividualForces_empty, merge_empty.
  destruct (updateIndividualForces h (config e) newConfig _) as [e'|e'];
    simpl in *; destruct (nodes e) eqn:E; simpl;
    repeat split; try done; try congruence; by destruct e.
Qed.
End Reconfiguration.

Section ReconfigurationWitnesses.
Import Engine ForceSimulation3D.

(** Both paths on the sample graph: the update completes with the sample
    host and falls back with the host whose library fails. *)
Lemma updateConfig_keeps_positions_witness :
  nodes (updateConfig Samples.host Samples.chargeOnly
                      (Samples.prepared Samples.graph))
  = nodes (Samples.prepared Samples.graph)
  ∧ Simulation.alpha
      (simulation (updateConfig Samples.host Samples.chargeOnly
                                (Samples.prepared Samples.graph))) = 0.1%Q
  ∧ nodes (updateConfig Samples.faultyHost Samples.chargeOnly
                        (Samples.prepared Samples.graph))
    = nodes (Samples.prepared Samples.graph)
  ∧ Simulation.alpha
      (simulation (updateConfig Samples.faultyHost Samples.chargeOnly
                                (Samples.prepared Samples.graph))) = 0.05%Q.
Proof.
  destruct (updateConfig_keeps_positions Samples.host Samples.chargeOnly
              (Samples.prepared Samples.graph)) as (Hn & _ & _ & _ & Ha & _).
  destruct (updateConfig_keeps_positions Samples.faultyHost
              Samples.chargeOnly (Samples.prepared Samples.graph))
    as (Hn' & _ & _ & _ & Ha' & _).
  split; [exact Hn|]. split; [exact Ha|]. split; [exact Hn'|exact Ha'].
Defined.
End ReconfigurationWitnesses.

Section Run.
Import Engine ForceSimulation3D.
Variable h : host.
Implicit Types (e : t) (ns : list Node3D.t).

Local Open Scope Q_scope.

(** [nodeMap] reads the id and the title of the nodes only. *)
Lemma nodeMap_snoc ns n :
  nodeMap (ns ++ [n])
  = <[Node3D.title n := length ns]>
      (<[Node3D.id n := length ns]> (nodeMap ns)).
Proof.
  unfold nodeMap. rewrite imap_app, foldl_app. simpl.
  by rewrite Nat.add_0_r.
Qed.

Lemma nodeMap_sound ns k i :
  nodeMap ns !! k = Some i →
  ∃ n, ns !! i = Some n ∧ (Node3D.id n = k ∨ Node3D.title n = k).
Proof.
  induction ns as [|n ns IH] using rev_ind; [done|].
  rewrite nodeMap_snoc, !lookup_insert. case_decide as Ht.
  - intros [= <-]. exists n. split; [|auto].
    by rewrite lookup_app_r, Nat.sub_diag by lia.
  - case_decide as Hi.
    + intros [= <-]. exists n. split; [|auto].
      by rewrite lookup_app_r, Nat.sub_diag by lia.
    + intros Hl. destruct (IH Hl) as (n' & Hn' & Hk). exists n'.
      split; [|done]. by apply lookup_app_l_Some.
Qed.

Lemma nodeMap_none ns k :
  (∀ n, n ∈ ns → Node3D.id n ≠ k ∧ Node3D.title n ≠ k) →
  nodeMap ns !! k = None.
Proof.
  intros Hno. destruct (nodeMap ns !! k) as [i|] eqn:E; [|done].
  apply nodeMap_sound in E as (n & Hn & Hk).
  apply list_elem_of_lookup_2 in Hn. destruct (Hno n Hn). by destruct Hk.
Qed.

Lemma nodeMap_entities ns ns' :
  Node3D.entity <$> ns = Node3D.entity <$> ns' → nodeMap ns = nodeMap ns'.
Proof.
  revert ns'. induction ns as [|n ns IH] using rev_ind; intros ns' Heq.
  - symmetry in Heq. by apply fmap_nil_inv in Heq as ->.
  - destruct ns' as [|n' ns' _] using rev_ind.
    + apply (f_equal length) in Heq. rewrite !length_fmap, length_app in Heq.
      simpl in Heq. lia.
    + rewrite !fmap_app in Heq. simpl in Heq.
      apply app_inj_tail in Heq as [Heq Hn].
      rewrite !nodeMap_snoc, (IH ns' Heq).
      assert (length ns = length ns') as ->
        by (apply (f_equal length) in Heq; by rewrite !length_fmap in Heq).
      unfold Node3D.id, Node3D.title. by rewrite Hn.
Qed.

Lemma toLink_valid ns rel l :
  toLink (nodeMap ns) rel = Some l →
  Link3D.id l = Relationship.id rel
  ∧ (∃ s, ns !! Link3D.source l = Some s
          ∧ (Node3D.id s = Relationship.source rel
             ∨ Node3D.title s = Relationship.source rel))
  ∧ (∃ t, ns !! Link3D.target l = Some t
          ∧ (Node3D.id t = Relationship.target rel
             ∨ Node3D.title t = Relationship.target rel)).
Proof.
  unfold toLink.
  destruct (nodeMap ns !! Relationship.source rel) as [s|] eqn:Hs; [|done].
  destruct (nodeMap ns !! Relationship.target rel) as [t|] eqn:Ht; [|done].
  intros [= <-]. simpl. split; [done|]. split; by apply nodeMap_sound.
Qed.

Lemma toLink_unresolved ns rel :
  (∀ n, n ∈ ns → Node3D.id n ≠ Relationship.source rel
                 ∧ Node3D.title n ≠ Relationship.source rel)
  ∨ (∀ n, n ∈ ns → Node3D.id n ≠ Relationship.target rel
                   ∧ Node3D.title n ≠ Relationship.target rel) →
  toLink (nodeMap ns) rel = None.
Proof.
  unfold toLink. intros [Hno | Hno]; rewrite (nodeMap_none _ _ Hno);
    [done|]. by destruct (nodeMap ns !! Relationship.source rel).
Qed.

(** The ticks move the nodes and let the energy decay; nothing else. *)
Lemma tick_entities e :
  Node3D.entity <$> nodes (tick h e) = Node3D.entity <$> nodes e.
Proof.
  unfold tick. simpl. rewrite fmap_imap.
  rewrite <- (imap_const Node3D.entity). by apply imap_ext.
Qed.

Lemma ticks_entities k e :
  Node3D.entity <$> nodes (Nat.iter k (tick h) e)
  = Node3D.entity <$> nodes e
  ∧ links (Nat.iter k (tick h) e) = links e
  ∧ Simulation.alphaMin (simulation (Nat.iter k (tick h) e))
    = Simulation.alphaMin (simulation e).
Proof.
  induction k as [|k (IH1 & IH2 & IH3)]; [done|].
  rewrite Nat.iter_succ, tick_entities. by split.
Qed.

Lemma tick_energy k e :
  Simulation.alpha (simulation (Nat.iter k (tick h) e))
  = energy (Simulation.alphaDecay (simulation e))
           (Simulation.alphaTarget (simulation e))
           (Simulation.alpha (simulation e)) k
  ∧ Simulation.alphaDecay (simulation (Nat.iter k (tick h) e))
    = Simulation.alphaDecay (simulation e)
  ∧ Simulation.alphaTarget (simulation (Nat.iter k (tick h) e))
    = Simulation.alphaTarget (simulation e).
Proof.
  induction k as [|k (IH1 & IH2 & IH3)]; [done|].
  unfold energy in *. rewrite !Nat.iter_succ.
  change (Simulation.alpha (simulation (tick h ?e)))
    with (Qred (Simulation.alpha (simulation e)
                + (Simulation.alphaTarget (simulation e)
                   - Simulation.alpha (simulation e))
                  * Simulation.alphaDecay (simulation e))).
  by rewrite IH1, IH2, IH3.
Qed.

(** What the timer loop returns. *)
Lemma ticks_spec fuel : ∀ iterationCount e,
  Simulation.alphaMin (simulation e) <= 0.001 →
  match ticks h fuel iterationCount e with
  | Resolved n layout e' =>
      ∃ j, (1 ≤ j ≤ fuel)%nat ∧ n = (iterationCount + j)%nat
           ∧ settled n (Nat.iter j (tick h) e) = true
           ∧ (∀ i, (1 ≤ i < j)%nat →
                   settled (iterationCount + i) (Nat.iter i (tick h) e)
                   = false)
           ∧ e' = precomputeCommunityData
                    (withSimulation Simulation.stop
                                    (Nat.iter j (tick h) e))
           ∧ layout = layoutOf e'
  | Ended _ _ => False
  | Pending n _ =>
      n = (iterationCount + fuel)%nat
      ∧ ∀ i, (1 ≤ i ≤ fuel)%nat →
             settled (iterationCount + i) (Nat.iter i (tick h) e) = false
  end.
Proof.
  induction fuel as [|fuel IH]; intros iter e Hmin; simpl.
  - split; [lia|]. intros i Hi. lia.
  - destruct (settled (S iter) (tick h e)) eqn:Hs.
    + exists 1%nat. simpl. rewrite Nat.add_1_r.
      repeat split; try done; try lia.
    + destruct (Qlt_le_dec _ _) as [Hlow|_].
      * unfold settled in Hs. apply orb_false_elim in Hs as [_ Hs].
        destruct (Qlt_le_dec (Simulation.alpha (simulation (tick h e)))
                             0.001) as [|Hge]; [done|].
        exfalso. apply (Qlt_irrefl 0.001).
        eapply Qle_lt_trans; [exact Hge|].
        eapply Qlt_le_trans; [exact Hlow | exact Hmin].
      * specialize (IH (S iter) (tick h e) Hmin).
        destruct (ticks h fuel (S iter) (tick h e)) as [n lay e'|?|n ?].
        -- destruct IH as (j & Hj & -> & Hset & Hbefore & -> & ->).
           exists (S j). rewrite Nat.iter_succ_r.
           replace (iter + S j)%nat with (S iter + j)%nat by lia.
           repeat split; try done; try lia.
           intros i Hi. destruct i as [|i]; [lia|].
           rewrite Nat.iter_succ_r. destruct i as [|i].
           ++ simpl. by rewrite Nat.add_1_r.
           ++ replace (iter + S (S i))%nat with (S iter + S i)%nat by lia.
              apply Hbefore. lia.
        -- done.
        -- destruct IH as (-> & Hbefore). split; [lia|].
           intros i Hi. destruct i as [|i]; [lia|].
           rewrite Nat.iter_succ_r. destruct i as [|i].
           ++ simpl. by rewrite Nat.add_1_r.
           ++ replace (iter + S (S i))%nat with (S iter + S i)%nat by lia.
              apply Hbefore. lia.
Qed.

Lemma ticks_more_fuel fuel : ∀ fuel' iterationCount e n layout e',
  ticks h fuel iterationCount e = Resolved n layout e' →
  (fuel ≤ fuel')%nat →
  ticks h fuel' iterationCount e = Resolved n layout e'.
Proof.
  induction fuel as [|fuel IH]; intros fuel' iter e n lay e'; [done|].
  destruct fuel' as [|fuel']; [lia|]. simpl. intros H Hle.
  destruct (settled (S iter) (tick h e)); [done|].
  destruct (Qlt_le_dec _ _); [done|]. apply IH; [done | lia].
Qed.
End Run.

Section Layout.
Import Engine ForceSimulation3D.
Variable h : host.
Implicit Types (e : t) (ns : list Node3D.t) (g : GraphData.t).

Local Open Scope Q_scope.

Lemma start_nodes g e :
  Node3D.entity <$> nodes (start h g e) = GraphData.entities g.
Proof.
  change (nodes (start h g e))
    with (imap (makeNode h (config e) g) (GraphData.entities g)).
  rewrite fmap_imap.
  transitivity (imap (const id) (GraphData.entities g));
    [by apply imap_ext | by rewrite imap_const, list_fmap_id].
Qed.

Lemma start_links g e :
  links (start h g e)
  = omap (toLink (nodeMap (nodes (start h g e))))
         (GraphData.relationships g).
Proof. done. Qed.

Lemma start_alphaMin g e :
  Simulation.alphaMin (simulation (start h g e))
  = Simulation.alphaMin (simulation e).
Proof. done. Qed.

Lemma start_energy g e :
  Simulation.alpha (simulation (start h g e))
  = Simulation.alpha (simulation e)
  ∧ Simulation.alphaDecay (simulation (start h g e))
    = Simulation.alphaDecay (simulation e)
  ∧ Simulation.alphaTarget (simulation (start h g e))
    = Simulation.alphaTarget (simulation e).
Proof. done. Qed.

(** A resolved promise holds the engine's arrays as some number of ticks
    left them. *)
Lemma ticks_resolved fuel : ∀ iterationCount e n layout e',
  ticks h fuel iterationCount e = Resolved n layout e' →
  ∃ j, e' = precomputeCommunityData
              (withSimulation Simulation.stop (Nat.iter j (tick h) e))
       ∧ layout = layoutOf e'.
Proof.
  induction fuel as [|fuel IH]; intros iter e n lay e'; [done|]. simpl.
  destruct (settled (S iter) (tick h e)).
  - intros [= <- <- <-]. by exists 1%nat.
  - destruct (Qlt_le_dec _ _); [done|]. intros Hr.
    destruct (IH _ _ _ _ _ Hr) as (j & -> & ->). exists (S j).
    by rewrite Nat.iter_succ_r.
Qed.

(** The energy of a new simulation after [k] ticks is 0.97 to the power
    [k]. *)
Lemma energy_closed k : energy 0.03 0 1 k == (97 # 100) ^ Z.of_nat k.
Proof.
  induction k as [|k IH]; [done|].
  unfold energy in *. rewrite Nat.iter_succ, Qred_correct, IH.
  rewrite Nat2Z.inj_succ, <- Z.add_1_r, Qpower_plus by done.
  simpl (_ ^ 1). ring.
Qed.

Lemma power_decreases i j :
  (i ≤ j)%nat → (97 # 100) ^ Z.of_nat j <= (97 # 100) ^ Z.of_nat i.
Proof.
  induction 1 as [|j Hle IH]; [apply Qle_refl|].
  eapply Qle_trans; [|exact IH].
  rewrite Nat2Z.inj_succ, <- Z.add_1_r, Qpower_plus by done.
  simpl (_ ^ 1).
  assert (0 <= (97 # 100) ^ Z.of_nat j) as Hpos
    by (by apply Qpower_0_le).
  rewrite <- (Qmult_1_r ((97 # 100) ^ Z.of_nat j)) at 2.
  apply Qmult_le_compat_nonneg; split; try done. apply Qle_refl.
Qed.

Lemma energy_schedule :
  energyLow 227 = true
  ∧ ∀ i, (1 ≤ i < 227)%nat → energyLow i = false.
Proof.
  unfold energyLow. split.
  - destruct (Qlt_le_dec _ _) as [|Hge]; [done|]. exfalso.
    rewrite energy_closed in Hge. revert Hge. by vm_compute.
  - intros i Hi. destruct (Qlt_le_dec _ _) as [Hlt|]; [|done]. exfalso.
    rewrite energy_closed in Hlt.
    assert ((97 # 100) ^ Z.of_nat 226 < 0.001) as Hlow
      by (eapply Qle_lt_trans; [apply (power_decreases i 226); lia
                               | exact Hlt]).
    revert Hlow. by vm_compute.
Qed.

(** The run of [generateLayout]. *)
Lemma run_resolves g e :
  Simulation.alphaMin (simulation e) <= 0.001 →
  ∃ n layout e',
    (∀ fuel, (500 ≤ fuel)%nat →
             generateLayout h fuel g e = Resolved n layout e')
    ∧ (1 ≤ n ≤ 500)%nat
    ∧ settled n (Nat.iter n (tick h) (start h g e)) = true
    ∧ (∀ i, (1 ≤ i < n)%nat →
            settled i (Nat.iter i (tick h) (start h g e)) = false)
    ∧ Simulation.running (simulation e') = false.
Proof.
  intros Hmin. unfold generateLayout.
  assert (Simulation.alphaMin (simulation (start h g e)) <= 0.001)
    as Hmin' by exact Hmin.
  set (e0 := start h g e) in *.
  assert (∃ fuel, fuel = 500%nat) as [fuel Hfuel] by eauto.
  pose proof (ticks_spec h fuel 0 e0 Hmin') as Hspec.
  pose proof (ticks_more_fuel h fuel) as Hmore.
  destruct (ticks h fuel 0 e0) as [n lay e'|?|n ?] eqn:Hrun.
  - destruct Hspec as (j & Hj & -> & Hset & Hbefore & -> & ->).
    rewrite Nat.add_0_l in Hset.
    assert (∀ i, (1 ≤ i < j)%nat →
              settled i (Nat.iter i (tick h) e0) = false)
      as Hbefore' by (intros i Hi; by rewrite <- (Hbefore i Hi)).
    clear Hbefore. rename Hbefore' into Hbefore. eexists j, _, _.
    split; [intros fuel' Hfuel'; apply (Hmore fuel'); [exact Hrun | lia]|].
    split; [lia|]. split; [exact Hset|]. split; [exact Hbefore|].
    reflexivity.
  - done.
  - destruct Hspec as [_ Hnever]. specialize (Hnever 500%nat).
    rewrite Nat.add_0_l in Hnever.
    unfold settled in Hnever.
    rewrite bool_decide_eq_true_2 in Hnever by (unfold maxIterations; lia).
    discriminate Hnever; lia.
Qed.

(** C2: with the constructor's [alphaMin], the promise of
    [generateLayout] resolves at the first tick at which the tick count
    has reached 500 or alpha is below 0.001, and at no other tick: the
    library's own end of simulation (alpha below [alphaMin]) never comes
    first and the run takes at most 500 ticks.  The simulation is then
    stopped.  From alpha 1 with decay 0.03 toward 0, that tick is the
    227th. *)
Theorem generateLayout_stops_when_settled g e :
  Simulation.alphaMin (simulation e) <= 0.001 →
  ∃ n layout e',
    (∀ fuel, (500 ≤ fuel)%nat →
             generateLayout h fuel g e = Resolved n layout e')
    ∧ (1 ≤ n ≤ 500)%nat
    ∧ settled n (Nat.iter n (tick h) (start h g e)) = true
    ∧ (∀ i, (1 ≤ i < n)%nat →
            settled i (Nat.iter i (tick h) (start h g e)) = false)
    ∧ Simulation.running (simulation e') = false
    ∧ (Simulation.alpha (simulation e) = 1 →
       Simulation.alphaDecay (simulation e) = 0.03 →
       Simulation.alphaTarget (simulation e) = 0 →
       n = 227%nat).
Proof.
  intros Hmin.
  destruct (run_resolves g e Hmin)
    as (n & layout & e' & Hrun & Hn & Hset & Hbefore & Hstopped).
  exists n, layout, e'.
  split; [exact Hrun|]. split; [exact Hn|]. split; [exact Hset|].
  split; [exact Hbefore|]. split; [exact Hstopped|].
  intros Ha Hd Ht. set (e0 := start h g e) in *.
  assert (∀ i, (i < 500)%nat →
            settled i (Nat.iter i (tick h) e0) = energyLow i) as Hlow.
  { intros i Hi. unfold settled, energyLow.
    destruct (tick_energy h i e0) as (-> & _).
    destruct (start_energy g e) as (He1 & He2 & He3).
    fold e0 in He1, He2, He3. rewrite He1, He2, He3, Ha, Hd, Ht.
    rewrite bool_decide_eq_false_2; [done|].
    unfold maxIterations. lia. }
  destruct (decide (n < 227)%nat) as [Hlt|Hge].
  { rewrite Hlow, (proj2 energy_schedule) in Hset by lia.
    discriminate Hset. }
  destruct (decide (n = 227%nat)) as [Heq|Hne]; [exact Heq|].
  assert (settled 227 (Nat.iter 227 (tick h) e0) = false) as Hlate
    by (apply Hbefore; lia).
  rewrite Hlow, (proj1 energy_schedule) in Hlate by lia.
  discriminate Hlate.
Qed.

(** C1: the layout [generateLayout] resolves with holds one node per
    entity; its links are the relationships whose source and target are
    both found in the node lookup (by id or title), in order; every link
    comes from a relationship, and its source and target are references
    to nodes of the layout's node array, the ones the relationship names;
    a relationship whose source, or whose target, is the id or title of no
    node yields no link.  The promise does resolve: dropping a
    relationship never stops the run. *)
Theorem generateLayout_links_resolved fuel g e :
  (Simulation.alphaMin (simulation e) <= 0.001 → (500 ≤ fuel)%nat →
   is_Some (resolvedLayout (generateLayout h fuel g e)))
  ∧ ∀ layout,
      resolvedLayout (generateLayout h fuel g e) = Some layout →
      Node3D.entity <$> GraphLayout.nodes layout = GraphData.entities g
      ∧ GraphLayout.links layout
        = omap (toLink (nodeMap (GraphLayout.nodes layout)))
               (GraphData.relationships g)
      ∧ (∀ l, l ∈ GraphLayout.links layout →
              ∃ rel s t,
                rel ∈ GraphData.relationships g
                ∧ Link3D.id l = Relationship.id rel
                ∧ GraphLayout.nodes layout !! Link3D.source l = Some s
                ∧ (Node3D.id s = Relationship.source rel
                   ∨ Node3D.title s = Relationship.source rel)
                ∧ GraphLayout.nodes layout !! Link3D.target l = Some t
                ∧ (Node3D.id t = Relationship.target rel
                   ∨ Node3D.title t = Relationship.target rel))
      ∧ (∀ rel,
           (∀ n, n ∈ GraphLayout.nodes layout →
                 Node3D.id n ≠ Relationship.source rel
                 ∧ Node3D.title n ≠ Relationship.source rel)
           ∨ (∀ n, n ∈ GraphLayout.nodes layout →
                   Node3D.id n ≠ Relationship.target rel
                   ∧ Node3D.title n ≠ Relationship.target rel) →
           toLink (nodeMap (GraphLayout.nodes layout)) rel = None).
Proof.
  split.
  - intros Hmin Hfuel.
    destruct (run_resolves g e Hmin) as (n & layout & e' & Hrun & _).
    rewrite (Hrun fuel Hfuel). by eexists.
  - intros layout. unfold generateLayout.
    destruct (ticks h fuel 0 (start h g e)) as [n lay e'|?|?] eqn:Hrun;
      [|discriminate|discriminate].
    intros [= <-].
    destruct (ticks_resolved _ _ _ _ _ _ Hrun) as (j & -> & ->).
    destruct (ticks_entities h j (start h g e)) as (Hent & Hlinks & _).
    change (GraphLayout.nodes (layoutOf (precomputeCommunityData ?x)))
      with (nodes x).
    change (GraphLayout.links (layoutOf (precomputeCommunityData ?x)))
      with (links x).
    change (nodes (withSimulation Simulation.stop ?x)) with (nodes x).
    change (links (withSimulation Simulation.stop ?x)) with (links x).
    set (ns := nodes (Nat.iter j (tick h) (start h g e))) in *.
    assert (links (Nat.iter j (tick h) (start h g e))
            = omap (toLink (nodeMap ns)) (GraphData.relationships g))
      as Hls.
    { rewrite Hlinks, start_links. f_equal. f_equal.
      symmetry. by apply nodeMap_entities. }
    split; [by rewrite Hent, start_nodes|]. split; [exact Hls|].
    split; [|apply toLink_unresolved].
    intros l Hl. rewrite Hls in Hl.
    apply list_elem_of_omap in Hl as (rel & Hin & Hrel).
    destruct (toLink_valid ns rel l Hrel)
      as (Hid & (s & Hs & Hsrc) & (t & Ht & Htgt)).
    by exists rel, s, t.
Qed.
End Layout.

Section LayoutWitnesses.
Import Engine ForceSimulation3D.
Local Open Scope Q_scope.

Lemma generateLayout_stops_when_settled_witness :
  ∃ layout e',
    generateLayout Samples.host 500 Samples.graph (new defaultForceConfig)
    = Resolved 227 layout e'.
Proof.
  destruct (generateLayout_stops_when_settled Samples.host Samples.graph
              (new defaultForceConfig))
    as (n & layout & e' & Hrun & _ & _ & _ & _ & Hn).
  - apply Qle_refl.
  - exists layout, e'. rewrite (Hn eq_refl eq_refl eq_refl) in Hrun.
    apply Hrun. apply Nat.le_refl.
Defined.

Lemma generateLayout_links_resolved_witness :
  ∃ layout,
    resolvedLayout
      (generateLayout Samples.host 500 Samples.graph
                      (new defaultForceConfig)) = Some layout
    ∧ GraphLayout.links layout
      = [{| Link3D.id := "r1"; Link3D.source := 0; Link3D.target := 1;
            Link3D.weight := 1; Link3D.description := EmptyString |}].
Proof.
  destruct (generateLayout_links_resolved Samples.host 500 Samples.graph
              (new defaultForceConfig)) as [Hsome Hlayout].
  destruct Hsome as [layout Hl]; [apply Qle_refl | apply Nat.le_refl |].
  exists layout. split; [exact Hl|].
  destruct (Hlayout layout Hl) as (Hent & Hlinks & _).
  rewrite Hlinks.
  rewrite (nodeMap_entities (GraphLayout.nodes layout)
             (nodes (start Samples.host Samples.graph
                           (new defaultForceConfig)))).
  - vm_compute. reflexivity.
  - rewrite Hent. symmetry. apply start_nodes.
Defined.
End LayoutWitnesses.

Section Radii.
Import Engine ForceSimulation3D.
Variable h : host.
Implicit Types (e : t) (ns : list Node3D.t) (g : GraphData.t).

Local Open Scope Q_scope.

(** With equal arguments [Math.max] and [Math.min] return that value. *)
Lemma mathMax_flat v : ∀ xs acc,
  (∀ x, x ∈ xs → x == v) →
  match acc with Some a => a == v | None => True end →
  match foldl (λ acc x, match acc with
                        | None => Some x
                        | Some a => Some (Qmax a x)
                        end) acc xs with
  | Some m => m == v
  | None => xs = [] ∧ acc = None
  end.
Proof.
  induction xs as [|x xs IH]; intros acc Hxs Hacc; simpl.
  - by destruct acc.
  - assert (x == v) as Hx by (apply Hxs; set_solver).
    assert (∀ y, y ∈ xs → y == v) as Hxs' by (intros y Hy; apply Hxs; set_solver).
    destruct acc as [a|].
    + specialize (IH (Some (Qmax a x)) Hxs'). simpl in IH.
      destruct (foldl _ (Some (Qmax a x)) xs) as [m|] eqn:E.
      * apply IH. destruct (Q.max_spec a x) as [[_ ->] | [_ ->]]; done.
      * destruct IH as [_ [=]].
        destruct (Q.max_spec a x) as [[_ ->] | [_ ->]]; done.
    + specialize (IH (Some x) Hxs' Hx).
      destruct (foldl _ (Some x) xs) as [m|]; [done|]. by destruct IH.
Qed.

Lemma mathMin_flat v : ∀ xs acc,
  (∀ x, x ∈ xs → x == v) →
  match acc with Some a => a == v | None => True end →
  match foldl (λ acc x, match acc with
                        | None => Some x
                        | Some a => Some (Qmin a x)
                        end) acc xs with
  | Some m => m == v
  | None => xs = [] ∧ acc = None
  end.
Proof.
  induction xs as [|x xs IH]; intros acc Hxs Hacc; simpl.
  - by destruct acc.
  - assert (x == v) as Hx by (apply Hxs; set_solver).
    assert (∀ y, y ∈ xs → y == v) as Hxs' by (intros y Hy; apply Hxs; set_solver).
    destruct acc as [a|].
    + specialize (IH (Some (Qmin a x)) Hxs'). simpl in IH.
      destruct (foldl _ (Some (Qmin a x)) xs) as [m|] eqn:E.
      * apply IH. destruct (Q.min_spec a x) as [[_ ->] | [_ ->]]; done.
      * destruct IH as [_ [=]].
        destruct (Q.min_spec a x) as [[_ ->] | [_ ->]]; done.
    + specialize (IH (Some x) Hxs' Hx).
      destruct (foldl _ (Some x) xs) as [m|]; [done|]. by destruct IH.
Qed.

Lemma normalizedAbstraction_flat entities entity :
  (∀ a b, a ∈ entities → b ∈ entities →
          abstractionScore a == abstractionScore b) →
  normalizedAbstraction entities entity = 0.5.
Proof.
  intros Hflat. unfold normalizedAbstraction.
  destruct entities as [|e0 es]; [done|].
  set (v := abstractionScore e0).
  assert (∀ x, x ∈ abstractionScore <$> e0 :: es → x == v) as Hall.
  { intros x Hx. apply list_elem_of_fmap in Hx as (a & -> & Ha).
    apply Hflat; set_solver. }
  pose proof (mathMax_flat v _ None Hall I) as Hmax.
  pose proof (mathMin_flat v _ None Hall I) as Hmin.
  unfold mathMax, mathMin.
  destruct (foldl _ None _) as [mx|]; [|done].
  destruct (foldl _ None _) as [mn|]; [|done].
  destruct (Qlt_le_dec mn mx) as [Hlt|]; [|done].
  rewrite Hmax, Hmin in Hlt. by apply Qlt_irrefl in Hlt.
Qed.

Lemma flat_radius cfg (lv : Z) :
  finalRadius cfg 0.5 lv
  == (ForceConfig.spread3D cfg * 0.1 + ForceConfig.spread3D cfg) / 2
     + inject_Z lv * ForceConfig.levelSpacing cfg * 0.3.
Proof. unfold finalRadius, radius. field. Qed.

(** C10: when all entities have the same abstraction score (a single
    entity included) the division of the normalization is not reached:
    every node gets abstraction 0.5, its seed radius ([finalRadius]) and
    the target radius of the spherical constraint are the midpoint of
    [0.1 * spread, spread] plus communityLevel * levelSpacing * 0.3, and
    the node is seeded on the golden-angle spiral at that radius times
    its random factor. *)
Theorem equal_scores_normalize_to_half g e index node :
  (∀ a b, a ∈ GraphData.entities g → b ∈ GraphData.entities g →
          abstractionScore a == abstractionScore b) →
  nodes (preprocessData h g e) !! index = Some node →
  Node3D.abstractionLevel node = 0.5
  ∧ finalRadius (config e) (Node3D.abstractionLevel node)
                (Node3D.communityLevel node)
    == (ForceConfig.spread3D (config e) * 0.1
        + ForceConfig.spread3D (config e)) / 2
       + inject_Z (Node3D.communityLevel node)
         * ForceConfig.levelSpacing (config e) * 0.3
  ∧ targetRadius (config e) node
    == (ForceConfig.spread3D (config e) * 0.1
        + ForceConfig.spread3D (config e)) / 2
       + inject_Z (Node3D.communityLevel node)
         * ForceConfig.levelSpacing (config e) * 0.3
  ∧ (Node3D.x node, Node3D.y node, Node3D.z node)
    = onSpiral h index (length (GraphData.entities g))
        (finalRadius (config e) 0.5 (Node3D.communityLevel node)
         * (0.9 + random h index * 0.2)).
Proof.
  intros Hflat Hnode. simpl in Hnode.
  rewrite list_lookup_imap in Hnode.
  destruct (GraphData.entities g !! index) as [entity|] eqn:E; [|done].
  injection Hnode as <-.
  assert (Node3D.abstractionLevel (makeNode h (config e) g index entity)
          = 0.5) as Hhalf by (by apply normalizedAbstraction_flat).
  split; [exact Hhalf|]. rewrite Hhalf. split; [apply flat_radius|].
  split.
  - unfold targetRadius. rewrite Hhalf. change (Js.orElse 0.5 0.5) with 0.5.
    field.
  - unfold makeNode, onSpiral. simpl.
    by rewrite (normalizedAbstraction_flat _ entity Hflat).
Qed.
End Radii.

Section RadiiWitnesses.
Import Engine ForceSimulation3D.
Local Open Scope Q_scope.

Lemma equal_scores_normalize_to_half_witness :
  ∃ node,
    nodes (preprocessData Samples.host Samples.flatGraph
                          (new defaultForceConfig)) !! 1%nat = Some node
    ∧ Node3D.abstractionLevel node = 0.5
    ∧ targetRadius defaultForceConfig node == 94.5.
Proof.
  eexists. split; [reflexivity|].
  destruct (equal_scores_normalize_to_half Samples.host Samples.flatGraph
              (new defaultForceConfig) 1%nat _
              ltac:(intros a b Ha Hb;
                    repeat (apply elem_of_cons in Ha as [-> | Ha]);
                    repeat (apply elem_of_cons in Hb as [-> | Hb]);
                    try (by apply not_elem_of_nil in Ha);
                    try (by apply not_elem_of_nil in Hb);
                    reflexivity)
              eq_refl)
    as (Hhalf & _ & Htarget & _).
  split; [exact Hhalf|]. rewrite Htarget. reflexivity.
Defined.
End RadiiWitnesses.

Section Centers.
Import Engine ForceSimulation3D.
Variable h : host.
Implicit Types (e : t) (ns : list Node3D.t) (cs : list Community.t).

Local Open Scope Q_scope.

Lemma orElse_nonzero x d : ¬ x == 0 → Js.orElse x d = x.
Proof.
  intros Hx. unfold Js.orElse. destruct (Qeq_bool x 0) eqn:E; [|done].
  by apply Qeq_bool_eq in E.
Qed.

(** The running sum of [reduce] is the sum of the abstraction levels when
    none of them is zero. *)
Lemma reduce_sum ns : ∀ sum,
  (∀ n, n ∈ ns → ¬ Node3D.abstractionLevel n == 0) →
  foldl (λ sum node, sum + Js.orElse (Node3D.abstractionLevel node) 0.5)
        sum ns
  == sum + foldr Qplus 0 (Node3D.abstractionLevel <$> ns).
Proof.
  induction ns as [|n ns IH]; intros sum Hnz.
  - change (sum == sum + 0). ring.
  - change (foldl (λ sum node,
                     sum + Js.orElse (Node3D.abstractionLevel node) 0.5)
                  (sum + Js.orElse (Node3D.abstractionLevel n) 0.5) ns
            == sum + (Node3D.abstractionLevel n
                      + foldr Qplus 0 (Node3D.abstractionLevel <$> ns))).
    rewrite IH by (intros m Hm; apply Hnz; set_solver).
    rewrite orElse_nonzero by (apply Hnz; set_solver). ring.
Qed.

Lemma communityCenter_members cfg ns cs i c :
  members ns cs c ≠ [] →
  ∃ ctr, communityCenter h cfg ns cs i c = Some ctr
    ∧ Engine.radius ctr
      = radius cfg
          (foldl (λ sum node,
                    sum + Js.orElse (Node3D.abstractionLevel node) 0.5)
                 0 (members ns cs c)
           / ofNat (length (members ns cs c)))
        + inject_Z (Community.level c) * ForceConfig.levelSpacing cfg * 0.2
    ∧ (Engine.x ctr, Engine.y ctr, Engine.z ctr)
      = onSpiral h i (length cs) (Engine.radius ctr).
Proof.
  intros Hne. unfold communityCenter. fold (members ns cs c).
  case_decide as Hlen.
  - eexists. split; [reflexivity|]. by split.
  - destruct (members ns cs c); [done | simpl in Hlen; lia].
Qed.

(** With distinct ids, the cache holds for each community what the loop
    body computed for it. *)
Lemma centers_other cfg ns all c : ∀ cs (k : nat → nat),
  (∀ c', c' ∈ cs → Community.id c' ≠ Community.id c) →
  foldl (storeCenter h cfg ns all) ∅ (imap (λ j, pair (k j)) cs)
    !! Community.id c = None.
Proof.
  induction cs as [|d cs IH] using rev_ind; intros k Hfresh; [done|].
  rewrite imap_app, foldl_app. simpl. unfold storeCenter at 1. simpl.
  assert (Community.id d ≠ Community.id c) as Hd
    by (apply Hfresh; set_solver).
  destruct (communityCenter h cfg ns all _ d);
    [rewrite lookup_insert_ne by done|];
    apply IH; intros c' Hc'; apply Hfresh; set_solver.
Qed.

Lemma centers_lookup cfg ns all : ∀ cs i c,
  NoDup (Community.id <$> cs) → cs !! i = Some c →
  foldl (storeCenter h cfg ns all) ∅ (imap pair cs) !! Community.id c
  = communityCenter h cfg ns all i c.
Proof.
  induction cs as [|d cs IH] using rev_ind; intros i c Hnd Hi; [done|].
  rewrite imap_app, foldl_app. simpl. unfold storeCenter at 1. simpl.
  rewrite Nat.add_0_r.
  rewrite fmap_app in Hnd. apply NoDup_app in Hnd as (Hnd & Hdisj & _).
  destruct (decide (i = length cs)) as [->|Hne].
  - rewrite lookup_app_r, Nat.sub_diag in Hi by lia. injection Hi as ->.
    destruct (communityCenter h cfg ns all (length cs) c) as [ctr|] eqn:E;
      [by rewrite lookup_insert_eq|].
    apply (centers_other cfg ns all c cs id). intros c' Hc' Heq.
    apply (Hdisj (Community.id c)).
    + rewrite <- Heq. by apply list_elem_of_fmap_2.
    + set_solver.
  - assert (i < length cs)%nat as Hlt.
    { apply lookup_lt_Some in Hi. rewrite length_app in Hi. simpl in Hi.
      lia. }
    rewrite lookup_app_l in Hi by done.
    assert (Community.id d ≠ Community.id c) as Hd.
    { intros Heq. apply (Hdisj (Community.id c)).
      - apply list_elem_of_fmap_2. by apply list_elem_of_lookup_2 in Hi.
      - rewrite <- Heq. set_solver. }
    destruct (communityCenter h cfg ns all (length cs) d);
      [rewrite lookup_insert_ne by done|]; by apply IH.
Qed.

(** C5 (amended): for a community with at least one member node, none of
    which has abstraction level exactly 0, the radius of the community
    center is minRadius + (1 - m) * (maxRadius - minRadius), the mapping
    [radius] of a node's abstraction applied to the mean [m] of the
    members' abstraction levels, plus level * levelSpacing * 0.2 (a node
    gets communityLevel * levelSpacing * 0.3); the center lies on the
    golden-angle spiral at the community's position in the array, among
    as many points as there are communities, as a node is seeded on it at
    the entity's position.  With distinct community ids the cache of
    centers holds that center under the community's id. *)
Theorem communityCenter_radius e i c :
  NoDup (Community.id <$> communities e) →
  communities e !! i = Some c →
  members (nodes e) (communities e) c ≠ [] →
  (∀ n, n ∈ members (nodes e) (communities e) c →
        ¬ Node3D.abstractionLevel n == 0) →
  ∃ ctr,
    communityCenters (calculateCommunityCenters h e) !! Community.id c
    = Some ctr
    ∧ Engine.radius ctr
      == radius (config e)
           (mean (Node3D.abstractionLevel
                    <$> members (nodes e) (communities e) c))
         + inject_Z (Community.level c)
           * ForceConfig.levelSpacing (config e) * 0.2
    ∧ Engine.radius ctr
      + inject_Z (Community.level c)
        * ForceConfig.levelSpacing (config e) * 0.1
      == finalRadius (config e)
           (mean (Node3D.abstractionLevel
                    <$> members (nodes e) (communities e) c))
           (Community.level c)
    ∧ (Engine.x ctr, Engine.y ctr, Engine.z ctr)
      = onSpiral h i (length (communities e)) (Engine.radius ctr)
    ∧ ∀ g index entity,
        let node := makeNode h (config e) g index entity in
        (Node3D.x node, Node3D.y node, Node3D.z node)
        = onSpiral h index (length (GraphData.entities g))
            (finalRadius (config e) (Node3D.abstractionLevel node)
                         (Node3D.communityLevel node)
             * (0.9 + random h index * 0.2)).
Proof.
  intros Hnd Hi Hne Hnz.
  destruct (communityCenter_members (config e) (nodes e) (communities e)
              i c Hne) as (ctr & Hctr & Hrad & Hpos).
  exists ctr.
  assert (Engine.radius ctr
          == radius (config e)
               (mean (Node3D.abstractionLevel
                        <$> members (nodes e) (communities e) c))
             + inject_Z (Community.level c)
               * ForceConfig.levelSpacing (config e) * 0.2) as Hmean.
  { rewrite Hrad. unfold radius, mean.
    rewrite (reduce_sum _ 0 Hnz), length_fmap, Qplus_0_l. reflexivity. }
  split; [|split; [exact Hmean|split; [|split; [exact Hpos|done]]]].
  - simpl. rewrite <- Hctr. by apply centers_lookup.
  - rewrite Hmean. unfold finalRadius. ring.
Qed.
End Centers.

Section CenterWitnesses.
Import Engine ForceSimulation3D.
Local Open Scope Q_scope.

(** C5 as stated fails: in the sample graph whose two entities have the
    same score, community B (level 1) has the single member e2, of
    abstraction 0.5; its center is at radius 90.5, while the mean
    abstraction mapped as a node's is mapped gives 94.5, the target
    radius of e2 itself. *)
Lemma community_radius_differs_from_node_mapping :
  ∃ c ctr node,
    communities (Samples.prepared Samples.flatGraph) !! 1%nat = Some c
    ∧ communityCenters (Samples.prepared Samples.flatGraph)
        !! Community.id c = Some ctr
    ∧ members (nodes (Samples.prepared Samples.flatGraph))
              (communities (Samples.prepared Samples.flatGraph)) c
      = [node]
    ∧ Engine.radius ctr == 90.5
    ∧ finalRadius defaultForceConfig
        (mean (Node3D.abstractionLevel
                 <$> members (nodes (Samples.prepared Samples.flatGraph))
                       (communities (Samples.prepared Samples.flatGraph))
                       c))
        (Community.level c) == 94.5
    ∧ targetRadius defaultForceConfig node == 94.5
    ∧ ¬ Engine.radius ctr
        == finalRadius defaultForceConfig
             (mean (Node3D.abstractionLevel
                      <$> members
                            (nodes (Samples.prepared Samples.flatGraph))
                            (communities
                               (Samples.prepared Samples.flatGraph)) c))
             (Community.level c).
Proof.
  eexists _, _, _.
  split; [reflexivity|]. split; [by vm_compute|].
  split; [by vm_compute|]. split; [by vm_compute|].
  split; [by vm_compute|]. split; [by vm_compute|]. by vm_compute.
Qed.

(** A member of abstraction level 0 counts as 0.5 in the average: in the
    sample graph community A has the single member e1, of abstraction 0,
    and its center is at radius 82.5, not at the outer radius 150 that
    abstraction 0 maps to. *)
Lemma zero_abstraction_counts_as_half :
  ∃ ctr,
    communityCenters (Samples.prepared Samples.graph) !! "A" = Some ctr
    ∧ Engine.radius ctr == 82.5
    ∧ radius defaultForceConfig 0 == 150.
Proof. eexists. split; [by vm_compute|]. split; by vm_compute. Qed.

Lemma communityCenter_radius_witness :
  ∃ ctr,
    communityCenters (Samples.prepared Samples.flatGraph) !! "B" = Some ctr
    ∧ Engine.radius ctr == 82.5 + 1 * 40 * 0.2.
Proof.
  destruct (communityCenter_radius Samples.host
              (preprocessData Samples.host Samples.flatGraph
                              (new defaultForceConfig))
              1%nat (Samples.community "B" "1" 1 (Some "0") [] ["e2"]))
    as (ctr & Hctr & Hrad & _).
  - apply (bool_decide_unpack _). by vm_compute.
  - reflexivity.
  - by vm_compute.
  - intros n Hn. vm_compute in Hn.
    apply list_elem_of_singleton in Hn as ->. by vm_compute.
  - exists ctr. split; [exact Hctr|]. rewrite Hrad. by vm_compute.
Defined.
End CenterWitnesses.

(** * Further facts: visual sizes *)

Section Sizes.
Local Open Scope Q_scope.

(** X1: [calculateNodeSize] never exceeds 4, is non-decreasing in the
    degree and in the frequency, is 0.8 at (0, 0), at least 0.8 for
    non-negative arguments, and is exactly 4 once degree + 0.1 * frequency
    reaches 64/3. *)
Theorem calculateNodeSize_clamped :
  (∀ d f, calculateNodeSize d f <= 4)
  ∧ (∀ d f d' f', d <= d' → f <= f' →
                  calculateNodeSize d f <= calculateNodeSize d' f')
  ∧ calculateNodeSize 0 0 == 0.8
  ∧ (∀ d f, 0 <= d → 0 <= f → 0.8 <= calculateNodeSize d f)
  ∧ (∀ d f, 64 # 3 <= d + f * 0.1 → calculateNodeSize d f == 4).
Proof.
  unfold calculateNodeSize.
  split; [|split; [|split; [|split]]].
  - intros d f. destruct (Q.min_spec (0.8 + (d + f * 0.1) * 0.15) 4.0)
      as [[H ->] | [H ->]]; lra.
  - intros d f d' f' Hd Hf.
    destruct (Q.min_spec (0.8 + (d + f * 0.1) * 0.15) 4.0)
      as [[H ->] | [H ->]];
      destruct (Q.min_spec (0.8 + (d' + f' * 0.1) * 0.15) 4.0)
        as [[H' ->] | [H' ->]]; lra.
  - reflexivity.
  - intros d f Hd Hf.
    destruct (Q.min_spec (0.8 + (d + f * 0.1) * 0.15) 4.0)
      as [[H ->] | [H ->]]; lra.
  - intros d f Hs.
    destruct (Q.min_spec (0.8 + (d + f * 0.1) * 0.15) 4.0)
      as [[H ->] | [H ->]]; lra.
Qed.

(** X2: [calculateLinkThickness] never exceeds 2, is non-decreasing in the
    weight, is 0.2 at weight 0, at least 0.2 for a non-negative weight,
    and is exactly 2 from weight 18 on. *)
Theorem calculateLinkThickness_clamped :
  (∀ w, calculateLinkThickness w <= 2)
  ∧ (∀ w w', w <= w' → calculateLinkThickness w <= calculateLinkThickness w')
  ∧ calculateLinkThickness 0 == 0.2
  ∧ (∀ w, 0 <= w → 0.2 <= calculateLinkThickness w)
  ∧ (∀ w, 18 <= w → calculateLinkThickness w == 2).
Proof.
  unfold calculateLinkThickness.
  split; [|split; [|split; [|split]]].
  - intros w. destruct (Q.min_spec (0.2 + w * 0.1) 2.0)
      as [[H ->] | [H ->]]; lra.
  - intros w w' Hw.
    destruct (Q.min_spec (0.2 + w * 0.1) 2.0) as [[H ->] | [H ->]];
      destruct (Q.min_spec (0.2 + w' * 0.1) 2.0) as [[H' ->] | [H' ->]];
      lra.
  - reflexivity.
  - intros w Hw. destruct (Q.min_spec (0.2 + w * 0.1) 2.0)
      as [[H ->] | [H ->]]; lra.
  - intros w Hw. destruct (Q.min_spec (0.2 + w * 0.1) 2.0)
      as [[H ->] | [H ->]]; lra.
Qed.
End Sizes.

(** * Further facts: abstraction levels and radii *)

Section Abstraction.
Import Engine ForceSimulation3D.
Local Open Scope Q_scope.

Lemma mathMax_snoc xs v :
  mathMax (xs ++ [v])
  = match mathMax xs with
    | None => Some v
    | Some a => Some (Qmax a v)
    end.
Proof. unfold mathMax. by rewrite foldl_snoc. Qed.

Lemma mathMin_snoc xs v :
  mathMin (xs ++ [v])
  = match mathMin xs with
    | None => Some v
    | Some a => Some (Qmin a v)
    end.
Proof. unfold mathMin. by rewrite foldl_snoc. Qed.

Lemma mathMax_nil xs : mathMax xs = None → xs = [].
Proof.
  destruct xs as [|x xs] using rev_ind; [done|].
  rewrite mathMax_snoc. by destruct (mathMax xs).
Qed.

Lemma mathMin_nil xs : mathMin xs = None → xs = [].
Proof.
  destruct xs as [|x xs] using rev_ind; [done|].
  rewrite mathMin_snoc. by destruct (mathMin xs).
Qed.

Lemma mathMax_upper xs : ∀ m x, mathMax xs = Some m → x ∈ xs → x <= m.
Proof.
  induction xs as [|v xs IH] using rev_ind; intros m x Hm Hx.
  { by apply elem_of_nil in Hx. }
  rewrite mathMax_snoc in Hm.
  apply elem_of_app in Hx as [Hx | Hx%list_elem_of_singleton].
  - destruct (mathMax xs) as [a|] eqn:Ha.
    + injection Hm as <-. specialize (IH a x eq_refl Hx).
      destruct (Q.max_spec a v) as [[H ->] | [H ->]]; lra.
    + apply mathMax_nil in Ha. subst xs. by apply elem_of_nil in Hx.
  - subst x. destruct (mathMax xs) as [a|]; injection Hm as <-.
    + destruct (Q.max_spec a v) as [[H ->] | [H ->]]; lra.
    + lra.
Qed.

Lemma mathMin_lower xs : ∀ m x, mathMin xs = Some m → x ∈ xs → m <= x.
Proof.
  induction xs as [|v xs IH] using rev_ind; intros m x Hm Hx.
  { by apply elem_of_nil in Hx. }
  rewrite mathMin_snoc in Hm.
  apply elem_of_app in Hx as [Hx | Hx%list_elem_of_singleton].
  - destruct (mathMin xs) as [a|] eqn:Ha.
    + injection Hm as <-. specialize (IH a x eq_refl Hx).
      destruct (Q.min_spec a v) as [[H ->] | [H ->]]; lra.
    + apply mathMin_nil in Ha. subst xs. by apply elem_of_nil in Hx.
  - subst x. destruct (mathMin xs) as [a|]; injection Hm as <-.
    + destruct (Q.min_spec a v) as [[H ->] | [H ->]]; lra.
    + lra.
Qed.

Lemma mathMax_attained xs : ∀ m, mathMax xs = Some m → ∃ x, x ∈ xs ∧ x == m.
Proof.
  induction xs as [|v xs IH] using rev_ind; intros m Hm; [done|].
  rewrite mathMax_snoc in Hm.
  destruct (mathMax xs) as [a|] eqn:Ha; injection Hm as <-.
  - destruct (Q.max_spec a v) as [[H E] | [H E]].
    + exists v. split; [set_solver | by symmetry].
    + destruct (IH a eq_refl) as (x & Hx & Hxa).
      exists x. split; [set_solver | by rewrite E].
  - exists v. split; [set_solver | reflexivity].
Qed.

Lemma mathMin_attained xs : ∀ m, mathMin xs = Some m → ∃ x, x ∈ xs ∧ x == m.
Proof.
  induction xs as [|v xs IH] using rev_ind; intros m Hm; [done|].
  rewrite mathMin_snoc in Hm.
  destruct (mathMin xs) as [a|] eqn:Ha; injection Hm as <-.
  - destruct (Q.min_spec a v) as [[H E] | [H E]].
    + destruct (IH a eq_refl) as (x & Hx & Hxa).
      exists x. split; [set_solver | by rewrite E].
    + exists v. split; [set_solver | by symmetry].
  - exists v. split; [set_solver | reflexivity].
Qed.

(** X3: the normalised abstraction level of an entity of the graph lies
    between 0 and 1, and normalisation preserves the order of the
    abstraction scores. *)
Theorem normalizedAbstraction_range entities :
  (∀ entity, entity ∈ entities →
             0 <= normalizedAbstraction entities entity
             ∧ normalizedAbstraction entities entity <= 1)
  ∧ (∀ a b, abstractionScore a <= abstractionScore b →
            normalizedAbstraction entities a
            <= normalizedAbstraction entities b).
Proof.
  unfold normalizedAbstraction. split.
  - intros entity Hin.
    destruct (mathMax _) as [mx|] eqn:Hmx; [|lra].
    destruct (mathMin _) as [mn|] eqn:Hmn; [|lra].
    destruct (Qlt_le_dec mn mx) as [Hlt|]; [|lra].
    assert (abstractionScore entity ∈ abstractionScore <$> entities) as Hs
      by (apply list_elem_of_fmap; eauto).
    pose proof (mathMax_upper _ _ _ Hmx Hs).
    pose proof (mathMin_lower _ _ _ Hmn Hs).
    split.
    + apply Qle_shift_div_l; lra.
    + apply Qle_shift_div_r; lra.
  - intros a b Hab.
    destruct (mathMax _) as [mx|]; [|lra].
    destruct (mathMin _) as [mn|]; [|lra].
    destruct (Qlt_le_dec mn mx) as [Hlt|]; [|lra].
    unfold Qdiv. apply Qmult_le_compat_r; [lra|].
    apply Qinv_le_0_compat. lra.
Qed.

(** X4: when two entities of the graph differ in abstraction score, some
    entity of the graph is normalised to exactly 0 and some entity to
    exactly 1.  The node of the former is seeded with the base radius
    [spread3D], but the spherical constraint reads its level 0 as absent
    and aims at the radius of level 0.5, 0.55 * spread3D plus the
    community offset. *)
Theorem normalizedAbstraction_extremes g a b :
  a ∈ GraphData.entities g → b ∈ GraphData.entities g →
  abstractionScore a < abstractionScore b →
  ∃ lo hi, lo ∈ GraphData.entities g ∧ hi ∈ GraphData.entities g
    ∧ normalizedAbstraction (GraphData.entities g) lo == 0
    ∧ normalizedAbstraction (GraphData.entities g) hi == 1
    ∧ ∀ h cfg index,
        let node := makeNode h cfg g index lo in
        radius cfg (Node3D.abstractionLevel node) == ForceConfig.spread3D cfg
        ∧ targetRadius cfg node
          == ForceConfig.spread3D cfg * 0.55
             + inject_Z (Node3D.communityLevel node)
               * ForceConfig.levelSpacing cfg * 0.3.
Proof.
  intros Ha Hb Hab.
  assert (∃ lo hi, lo ∈ GraphData.entities g ∧ hi ∈ GraphData.entities g
            ∧ normalizedAbstraction (GraphData.entities g) lo == 0
            ∧ normalizedAbstraction (GraphData.entities g) hi == 1)
    as (lo & hi & Hlo & Hhi & Hzero & Hone).
  { unfold normalizedAbstraction.
    assert (abstractionScore a ∈ abstractionScore <$> GraphData.entities g)
      as Hsa by (apply list_elem_of_fmap; eauto).
    assert (abstractionScore b ∈ abstractionScore <$> GraphData.entities g)
      as Hsb by (apply list_elem_of_fmap; eauto).
    destruct (mathMax _) as [mx|] eqn:Hmx;
      [|apply mathMax_nil in Hmx; rewrite Hmx in Hsa;
        by apply elem_of_nil in Hsa].
    destruct (mathMin _) as [mn|] eqn:Hmn;
      [|apply mathMin_nil in Hmn; rewrite Hmn in Hsa;
        by apply elem_of_nil in Hsa].
    pose proof (mathMax_upper _ _ _ Hmx Hsb).
    pose proof (mathMin_lower _ _ _ Hmn Hsa).
    destruct (mathMax_attained _ _ Hmx) as (sx & Hx & Hxm).
    destruct (mathMin_attained _ _ Hmn) as (sn & Hn & Hnm).
    apply list_elem_of_fmap in Hx as (hi & -> & Hhi).
    apply list_elem_of_fmap in Hn as (lo & -> & Hlo).
    exists lo, hi. split; [exact Hlo|]. split; [exact Hhi|].
    destruct (Qlt_le_dec mn mx) as [Hlt|]; [|lra].
    split.
    - rewrite Hnm. field. lra.
    - rewrite Hxm. field. lra. }
  exists lo, hi. split; [exact Hlo|]. split; [exact Hhi|].
  split; [exact Hzero|]. split; [exact Hone|].
  intros h cfg index node. unfold targetRadius, radius.
  change (Node3D.abstractionLevel node)
    with (normalizedAbstraction (GraphData.entities g) lo).
  split; [rewrite Hzero; ring|].
  unfold Js.orElse.
  destruct (Qeq_bool (normalizedAbstraction (GraphData.entities g) lo) 0)
    eqn:E; [ring|].
  apply Qeq_bool_neq in E. by destruct E.
Qed.

(** X5: for a non-negative spread the base radius decreases as the
    normalised abstraction grows; it is the whole spread at 0, a tenth of
    it at 1, and for a level between 0 and 1 the final radius lies between
    these two bounds shifted by the community offset
    [communityLevel * levelSpacing * 0.3]. *)
Theorem radius_range cfg :
  0 <= ForceConfig.spread3D cfg →
  (∀ n n', n <= n' → radius cfg n' <= radius cfg n)
  ∧ radius cfg 0 == ForceConfig.spread3D cfg
  ∧ radius cfg 1 == ForceConfig.spread3D cfg * 0.1
  ∧ (∀ n lv, 0 <= n → n <= 1 →
       ForceConfig.spread3D cfg * 0.1
       + inject_Z lv * ForceConfig.levelSpacing cfg * 0.3
       <= finalRadius cfg n lv
       ∧ finalRadius cfg n lv
         <= ForceConfig.spread3D cfg
            + inject_Z lv * ForceConfig.levelSpacing cfg * 0.3).
Proof.
  intros Hs. unfold finalRadius, radius.
  split; [|split; [|split]].
  - intros n n' Hn. nra.
  - ring.
  - ring.
  - intros n lv H0 H1. split; nra.
Qed.
End Abstraction.

Section AbstractionWitnesses.
Import Engine ForceSimulation3D.
Local Open Scope Q_scope.

Lemma normalizedAbstraction_extremes_witness :
  ∃ lo hi, lo ∈ GraphData.entities Samples.graph
    ∧ hi ∈ GraphData.entities Samples.graph
    ∧ normalizedAbstraction (GraphData.entities Samples.graph) lo == 0
    ∧ normalizedAbstraction (GraphData.entities Samples.graph) hi == 1
    ∧ ∀ h cfg index,
        let node := makeNode h cfg Samples.graph index lo in
        radius cfg (Node3D.abstractionLevel node) == ForceConfig.spread3D cfg
        ∧ targetRadius cfg node
          == ForceConfig.spread3D cfg * 0.55
             + inject_Z (Node3D.communityLevel node)
               * ForceConfig.levelSpacing cfg * 0.3.
Proof.
  apply (normalizedAbstraction_extremes Samples.graph
           (Samples.entity "e1" 1 2) (Samples.entity "e2" 3 4)).
  - apply list_elem_of_here.
  - apply list_elem_of_further, list_elem_of_here.
  - reflexivity.
Defined.

Lemma radius_range_witness :
  (∀ n n', n <= n' → radius defaultForceConfig n'
                     <= radius defaultForceConfig n)
  ∧ radius defaultForceConfig 0 == 150
  ∧ radius defaultForceConfig 1 == 150 * 0.1
  ∧ (∀ n lv, 0 <= n → n <= 1 →
       150 * 0.1 + inject_Z lv * 40 * 0.3 <= finalRadius defaultForceConfig n lv
       ∧ finalRadius defaultForceConfig n lv
         <= 150 + inject_Z lv * 40 * 0.3).
Proof.
  apply (radius_range defaultForceConfig). discriminate.
Defined.
End AbstractionWitnesses.

(** * Further facts: the lookups of [preprocessData] *)

Section Lookups.
Import Engine ForceSimulation3D.
Variable h : host.
Implicit Types (e : t) (ns : list Node3D.t) (cs : list Community.t).
Local Open Scope Q_scope.

Lemma setAll_lookup (i : nat) (ids : list string) : ∀ (m : gmap string nat) k,
  foldl (λ m' entityId, <[entityId := i]> m') m ids !! k
  = if decide (k ∈ ids) then Some i else m !! k.
Proof.
  induction ids as [|a ids IH] using rev_ind; intros m k.
  - simpl. destruct (decide (k ∈ [])) as [H|]; [|done].
    by apply elem_of_nil in H.
  - rewrite foldl_snoc, lookup_insert. case_decide as Ha.
    + subst a. rewrite decide_True; [done | set_solver].
    + rewrite IH. repeat case_decide; set_solver.
Qed.

Lemma entityToCommunity_snoc cs c :
  entityToCommunity (cs ++ [c])
  = foldl (λ m' entityId, <[entityId := length cs]> m')
          (entityToCommunity cs) (Community.entity_ids c).
Proof.
  unfold entityToCommunity. rewrite imap_app, foldl_app. simpl.
  by rewrite Nat.add_0_r.
Qed.

Lemma entityToCommunity_last cs k :
  match entityToCommunity cs !! k with
  | Some i =>
      (∃ c, cs !! i = Some c ∧ k ∈ Community.entity_ids c)
      ∧ ∀ j c', (i < j)%nat → cs !! j = Some c' →
                k ∉ Community.entity_ids c'
  | None => ∀ c, c ∈ cs → k ∉ Community.entity_ids c
  end.
Proof.
  induction cs as [|c cs IH] using rev_ind.
  - unfold entityToCommunity. simpl. rewrite lookup_empty.
    intros c Hc. by apply elem_of_nil in Hc.
  - rewrite entityToCommunity_snoc, setAll_lookup. case_decide as Hk.
    + split.
      * exists c. split; [|done].
        by rewrite lookup_app_r, Nat.sub_diag by lia.
      * intros j c' Hj Hc'. apply lookup_lt_Some in Hc'.
        rewrite length_app in Hc'. simpl in Hc'. lia.
    + destruct (entityToCommunity cs !! k) as [i|].
      * destruct IH as ((c0 & Hc0 & Hin) & Hlast). split.
        -- exists c0. split; [|done]. by apply lookup_app_l_Some.
        -- intros j c' Hj Hc'.
           apply lookup_app_Some in Hc' as [Hc' | [Hlen Hc']].
           ++ by apply (Hlast j).
           ++ apply list_lookup_singleton_Some in Hc' as [_ <-]. done.
      * intros c' Hc'.
        apply elem_of_app in Hc' as [Hc' | ->%list_elem_of_singleton];
          [by apply IH | done].
Qed.

(** X6: [preprocessData] attaches to each node the last community of the
    graph that lists the node's entity id, and copies that community's
    level; a node listed by no community has no community and level 0. *)
Theorem preprocessData_community g e i node :
  nodes (preprocessData h g e) !! i = Some node →
  match Node3D.community node with
  | Some r =>
      ∃ c, GraphData.communities g !! r = Some c
           ∧ Node3D.id node ∈ Community.entity_ids c
           ∧ Node3D.communityLevel node = Community.level c
           ∧ ∀ j c', (r < j)%nat → GraphData.communities g !! j = Some c' →
                     Node3D.id node ∉ Community.entity_ids c'
  | None =>
      Node3D.communityLevel node = 0%Z
      ∧ ∀ c, c ∈ GraphData.communities g →
             Node3D.id node ∉ Community.entity_ids c
  end.
Proof.
  unfold preprocessData. simpl. rewrite list_lookup_imap.
  destruct (GraphData.entities g !! i) as [entity|]; [|done].
  intros [= <-]. unfold makeNode, Node3D.id. simpl.
  pose proof (entityToCommunity_last (GraphData.communities g)
                                     (Entity.id entity)) as Hlast.
  destruct (entityToCommunity (GraphData.communities g) !! Entity.id entity)
    as [r|]; simpl.
  - destruct Hlast as ((c & Hc & Hin) & Hlast).
    exists c. rewrite Hc. done.
  - done.
Qed.



End Lookups.

(** * Further facts: what the resolver attaches *)

Section Annotations.
Import Engine ForceSimulation3D.
Implicit Types (e : t) (ns : list Node3D.t) (c : Community.t).
Local Open Scope Q_scope.




(** X9: the palette color of a non-negative level is one of the five
    colors and repeats every five levels; a negative level that is no
    multiple of five has no color. *)
Theorem paletteColor_periodic (level : Z) :
  ((0 ≤ level)%Z →
   (∃ color, paletteColor level = Some color ∧ color ∈ colors)
   ∧ paletteColor (level + 5) = paletteColor level)
  ∧ ((level < 0)%Z → (level `rem` 5 ≠ 0)%Z → paletteColor level = None).
Proof.
  unfold paletteColor. change (Z.of_nat (length colors)) with 5%Z. split.
  - intros Hl.
    rewrite !Z.rem_mod_nonneg by lia.
    replace ((level + 5) `mod` 5)%Z with (level `mod` 5)%Z
      by (rewrite <- (Z.mul_1_l 5) at 2; by rewrite Z.mod_add).
    split; [|done].
    pose proof (Z.mod_pos_bound level 5 ltac:(lia)) as Hb.
    rewrite decide_True by lia.
    destruct (colors !! Z.to_nat (level `mod` 5)) as [color|] eqn:Hc.
    + exists color. split; [done|]. by apply list_elem_of_lookup_2 in Hc.
    + apply lookup_ge_None in Hc. simpl in Hc. lia.
  - intros Hneg Hrem.
    pose proof (Z.rem_nonpos level 5 ltac:(lia) ltac:(lia)).
    rewrite decide_False by lia. done.
Qed.

(** X10: [precomputeCommunityData] keeps the number and the order of the
    communities and every field they were loaded with; it gives each one
    a hierarchy, the opacity 0.15 and the palette color of its level. *)
Theorem precomputeCommunityData_keeps_source e :
  Forall2 sameSource (communities e)
          (communities (precomputeCommunityData e))
  ∧ ∀ c', c' ∈ communities (precomputeCommunityData e) →
      is_Some (Community.computedHierarchy c')
      ∧ Community.computedOpacity c' = Some 0.15
      ∧ Community.computedColor c' = paletteColor (Community.level c').
Proof.
  rewrite precomputeCommunityData_eq. simpl. split.
  - apply Forall2_fmap_r, Forall_Forall2_diag, Forall_forall.
    intros c _. by repeat split.
  - intros c' (c & -> & _)%list_elem_of_fmap. by repeat split.
Qed.
End Annotations.

(** * Further facts: the cache of community centers and the custom forces *)

Section CustomForces.
Import Engine ForceSimulation3D CustomForce.
Variable h : host.
Implicit Types (e : t) (ns : list Node3D.t) (cs : list Community.t).
Local Open Scope Q_scope.

Lemma centers_snoc cfg ns all l c :
  foldl (storeCenter h cfg ns all) ∅ (imap pair (l ++ [c]))
  = storeCenter h cfg ns all
      (foldl (storeCenter h cfg ns all) ∅ (imap pair l)) (length l, c).
Proof.
  rewrite imap_app, foldl_app. simpl. by rewrite Nat.add_0_r.
Qed.

(** A community for which the loop body computes a center has one in the
    cache, under its id. *)
Lemma centers_has cfg ns all : ∀ l i c,
  l !! i = Some c →
  is_Some (communityCenter h cfg ns all i c) →
  is_Some (foldl (storeCenter h cfg ns all) ∅ (imap pair l)
             !! Community.id c).
Proof.
  induction l as [|d l IH] using rev_ind; intros i c Hi Hc; [done|].
  rewrite centers_snoc. unfold storeCenter at 1. simpl.
  apply lookup_app_Some in Hi as [Hi | [Hlen Hi]].
  - specialize (IH i c Hi Hc).
    destruct (communityCenter h cfg ns all (length l) d); [|done].
    rewrite lookup_insert_is_Some. destruct (decide (Community.id d
                                                    = Community.id c)); auto.
  - apply list_lookup_singleton_Some in Hi as [Hi <-].
    assert (i = length l) as -> by lia.
    destruct Hc as [ctr ->]. rewrite lookup_insert_eq. by eexists.
Qed.

(** The centers depend on the configuration through two fields, on the
    nodes through their community and abstraction level, and on the
    communities through their id and level. *)
Lemma centers_ext cfg cfg' ns ns' all all' (f : Community.t → Community.t) :
  (∀ i c, communityCenter h cfg' ns' all' i (f c)
          = communityCenter h cfg ns all i c) →
  (∀ c, Community.id (f c) = Community.id c) →
  ∀ l, foldl (storeCenter h cfg' ns' all') ∅ (imap pair (f <$> l))
       = foldl (storeCenter h cfg ns all) ∅ (imap pair l).
Proof.
  intros Hc Hid l. induction l as [|d l IH] using rev_ind; [done|].
  rewrite fmap_app. simpl. rewrite !centers_snoc, IH, length_fmap.
  unfold storeCenter. simpl. by rewrite Hc, Hid.
Qed.

Lemma centers_same cfg cfg' ns ns' all all' :
  (∀ i c, communityCenter h cfg' ns' all' i c
          = communityCenter h cfg ns all i c) →
  ∀ l, foldl (storeCenter h cfg' ns' all') ∅ (imap pair l)
       = foldl (storeCenter h cfg ns all) ∅ (imap pair l).
Proof.
  intros Hc l.
  rewrite <- (centers_ext cfg cfg' ns ns' all all' id Hc (λ _, eq_refl) l).
  by rewrite list_fmap_id.
Qed.

Lemma communityId_fmap (f : Community.t → Community.t) cs n :
  (∀ c, Community.id (f c) = Community.id c) →
  communityId (f <$> cs) n = communityId cs n.
Proof.
  intros Hid. unfold communityId.
  destruct (Node3D.community n) as [r|]; simpl; [|done].
  rewrite list_lookup_fmap. destruct (cs !! r); simpl; [|done].
  by rewrite Hid.
Qed.

(** Nodes that were moved: same community, same abstraction level. *)
Lemma members_moved (P : Node3D.t → Prop) `{!∀ n, Decision (P n)}
    (step : Q → Node3D.t → Q) :
  ∀ ns (f : nat → Node3D.t → Node3D.t) sum,
  (∀ i n, (P (f i n) ↔ P n) ∧ step sum (f i n) = step sum n) →
  (∀ i n s, step s (f i n) = step s n) →
  length (filter P (imap f ns)) = length (filter P ns)
  ∧ foldl step sum (filter P (imap f ns)) = foldl step sum (filter P ns).
Proof.
  induction ns as [|n ns IH]; intros f sum Hf Hstep; [done|].
  simpl. rewrite !filter_cons.
  destruct (Hf 0%nat n) as [HP _].
  destruct (decide (P n)) as [Hn|Hn].
  - rewrite decide_True by by apply HP. simpl. rewrite Hstep.
    destruct (IH (f ∘ S) (step sum n)) as [-> ->]; [|..|done].
    + intros i m. split; [apply Hf | apply Hstep].
    + intros i m s. apply Hstep.
  - rewrite decide_False by by rewrite HP.
    destruct (IH (f ∘ S) sum) as [-> ->]; [|..|done].
    + intros i m. apply Hf.
    + intros i m s. apply Hstep.
Qed.

Lemma communityCenter_moved cfg ns cs (f : nat → Node3D.t → Node3D.t) i c :
  (∀ j n, Node3D.community (f j n) = Node3D.community n
          ∧ Node3D.abstractionLevel (f j n) = Node3D.abstractionLevel n) →
  communityCenter h cfg (imap f ns) cs i c = communityCenter h cfg ns cs i c.
Proof.
  intros Hf. unfold communityCenter.
  destruct (members_moved
              (λ node, communityId cs node = Some (Community.id c))
              (λ sum node, sum + Js.orElse (Node3D.abstractionLevel node) 0.5)
              ns f 0) as [Hlen Hsum].
  - intros j n. destruct (Hf j n) as [Hc Ha]. unfold communityId.
    by rewrite Hc, Ha.
  - intros j n s. destruct (Hf j n) as [_ Ha]. by rewrite Ha.
  - by rewrite Hlen, Hsum.
Qed.

Lemma centers_no_nodes cfg all : ∀ l,
  foldl (storeCenter h cfg [] all) ∅ (imap pair l) = ∅.
Proof.
  induction l as [|d l IH] using rev_ind; [done|].
  by rewrite centers_snoc, IH.
Qed.

(** X11: in the cache [calculateCommunityCenters] fills, every node that
    has a community finds a center under its community's id, so the
    community force never skips it: the force leaves the node where it is
    and changes its velocity by (center - position) * communityStrength,
    which for a non-negative strength never points away from the center.
    A node without community is left as it is. *)
Theorem communityForce_attracts e node :
  node ∈ nodes e →
  let e' := calculateCommunityCenters h e in
  match communityId (communities e) node with
  | Some k =>
      ∃ center,
        communityCenters e' !! k = Some center
        ∧ sameButVelocity node (attract e' node)
        ∧ (impulse node (attract e' node)).1.1
          == (Engine.x center - Node3D.x node)
             * ForceConfig.communityStrength (config e)
        ∧ (impulse node (attract e' node)).1.2
          == (Engine.y center - Node3D.y node)
             * ForceConfig.communityStrength (config e)
        ∧ (impulse node (attract e' node)).2
          == (Engine.z center - Node3D.z node)
             * ForceConfig.communityStrength (config e)
        ∧ (0 <= ForceConfig.communityStrength (config e) →
           0 <= dot (impulse node (attract e' node))
                    (minus (centerPoint center) (position node)))
  | None => attract e' node = node
  end.
Proof.
  intros Hin e'. unfold attract.
  change (communities e') with (communities e).
  change (config e') with (config e).
  destruct (communityId (communities e) node) as [k|] eqn:Hk; [|done].
  assert (is_Some (communityCenters e' !! k)) as [center Hcenter].
  { unfold communityId in Hk.
    destruct (Node3D.community node) as [r|] eqn:Hr; [|done]. simpl in Hk.
    destruct (communities e !! r) as [c|] eqn:Hc; [|done].
    injection Hk as <-. simpl.
    apply (centers_has _ _ _ _ r c Hc).
    destruct (communityCenter_members h (config e) (nodes e) (communities e)
                r c) as (ctr & -> & _); [|by eexists].
    intros Hnil.
    assert (node ∈ members (nodes e) (communities e) c) as Hm.
    { apply list_elem_of_filter. split; [|done].
      unfold communityId. by rewrite Hr; simpl; rewrite Hc. }
    rewrite Hnil in Hm. by apply elem_of_nil in Hm. }
  exists center. rewrite Hcenter. split; [done|]. split; [by repeat split|].
  assert (∀ v d, Js.orElse (velocity v + d) 0 - velocity v == d) as Hv.
  { intros v d. unfold Js.orElse.
    destruct (Qeq_bool (velocity v + d) 0) eqn:E; [|ring].
    apply Qeq_bool_eq in E. lra. }
  unfold impulse, push. cbn [Node3D.vx Node3D.vy Node3D.vz velocity fst snd].
  split; [apply Hv|]. split; [apply Hv|]. split; [apply Hv|].
  intros Hs. unfold dot, minus, centerPoint, position.
  cbn [fst snd]. rewrite !Hv.
  set (s := ForceConfig.communityStrength (config e)) in *.
  set (dx := Engine.x center - Node3D.x node).
  set (dy := Engine.y center - Node3D.y node).
  set (dz := Engine.z center - Node3D.z node).
  nra.
Qed.

(** X12: the spherical constraint leaves a node where it is and pushes
    it along the line through the origin: with [d] the distance the host's
    square root gives, the change of velocity is position / d times
    (targetRadius - d) * sphericalConstraint.  For a non-negative strength
    it points outward when the node is inside its target radius and inward
    when outside, vanishes at the target radius, and a node at distance 0
    is left as it is. *)
Theorem sphericalForce_radial e node :
  let d := sqrt h (Node3D.x node * Node3D.x node
                   + Node3D.y node * Node3D.y node
                   + Node3D.z node * Node3D.z node) in
  let node' := constrain h e node in
  let force :=
    (targetRadius (config e) node - d)
    * ForceConfig.sphericalConstraint (config e) in
  sameButVelocity node node'
  ∧ (d <= 0 → node' = node)
  ∧ (0 < d →
     (impulse node node').1.1 == Node3D.x node / d * force
     ∧ (impulse node node').1.2 == Node3D.y node / d * force
     ∧ (impulse node node').2 == Node3D.z node / d * force
     ∧ (0 <= ForceConfig.sphericalConstraint (config e) →
        (d <= targetRadius (config e) node →
         0 <= dot (impulse node node') (position node))
        ∧ (targetRadius (config e) node <= d →
           dot (impulse node node') (position node) <= 0))
     ∧ (d == targetRadius (config e) node →
        (impulse node node').1.1 == 0 ∧ (impulse node node').1.2 == 0
        ∧ (impulse node node').2 == 0)).
Proof.
  intros d node' force. unfold node', constrain. fold d.
  destruct (Qlt_le_dec 0 d) as [Hd|Hd].
  - split; [by repeat split|]. split; [lra|]. intros _.
    assert (∀ v a, Js.orElse (velocity v + a) 0 - velocity v == a) as Hv.
    { intros v a. unfold Js.orElse.
      destruct (Qeq_bool (velocity v + a) 0) eqn:E; [|ring].
      apply Qeq_bool_eq in E. lra. }
    unfold impulse, push.
    cbn [Node3D.vx Node3D.vy Node3D.vz velocity fst snd].
    split; [apply Hv|]. split; [apply Hv|]. split; [apply Hv|].
    assert (0 < / d) as Hi by by apply Qinv_lt_0_compat.
    split.
    + intros Hs. unfold dot, position. cbn [fst snd]. rewrite !Hv.
      unfold Qdiv. set (i := / d) in *.
      set (x := Node3D.x node). set (y := Node3D.y node).
      set (z := Node3D.z node).
      set (f := (targetRadius (config e) node - d)
                * ForceConfig.sphericalConstraint (config e)).
      assert (x * i * f * x + y * i * f * y + z * i * f * z
              == i * f * (x * x + y * y + z * z)) as -> by ring.
      assert (0 <= x * x + y * y + z * z) as Hsq by nra.
      unfold f.
      set (s := ForceConfig.sphericalConstraint (config e)) in *.
      set (tr := targetRadius (config e) node) in *.
      split; intros Hr.
      * assert (0 <= (tr - d) * s) as Hf by nra.
        apply Qmult_le_0_compat; [|exact Hsq].
        apply Qmult_le_0_compat; [lra | exact Hf].
      * assert (0 <= (d - tr) * s) as Hf by nra.
        assert (0 <= i * ((d - tr) * s) * (x * x + y * y + z * z)) as Hp.
        { apply Qmult_le_0_compat; [|exact Hsq].
          apply Qmult_le_0_compat; [lra | exact Hf]. }
        assert (i * ((tr - d) * s) * (x * x + y * y + z * z)
                == - (i * ((d - tr) * s) * (x * x + y * y + z * z)))
          as -> by ring.
        lra.
    + intros Heq. rewrite !Hv. rewrite <- Heq.
      repeat (split; [ring|]); ring.
  - split; [by repeat split|]. split; [done|]. lra.
Qed.
End CustomForces.

Section Coherence.
Import Engine ForceSimulation3D CustomForce.
Variable h : host.
Implicit Types (e : t) (ns : list Node3D.t) (cs : list Community.t)
               (changes : ForceConfig.partial).
Local Open Scope Q_scope.

(** What a completed library call leaves alone. *)
Lemma libraryCall_Done c f e e' :
  libraryCall h c f e = Done e' →
  nodes e' = nodes e ∧ communities e' = communities e
  ∧ config e' = config e ∧ communityCenters e' = communityCenters e.
Proof.
  unfold libraryCall. destruct (throws h c); [done|]. by intros [= <-].
Qed.

Lemma andThen_Done r k e' :
  andThen r k = Done e' → ∃ e1, r = Done e1 ∧ k e1 = Done e'.
Proof. destruct r as [e1|e1]; [|done]. intros Hk. by exists e1. Qed.

Lemma library_steps_Done changes e e' :
  andThen (updateCharge h changes e) (λ e,
  andThen (updateLinkDistance h changes e) (λ e,
  andThen (updateLinkStrength h changes e) (λ e,
  andThen (updateCenter h changes e) (λ e,
  andThen (updateCollision h changes e) Done)))) = Done e' →
  nodes e' = nodes e ∧ communities e' = communities e
  ∧ config e' = config e ∧ communityCenters e' = communityCenters e.
Proof.
  intros (e1 & H1 & (e2 & H2 & (e3 & H3 & (e4 & H4 & (e5 & H5 & [= <-])
    %andThen_Done)%andThen_Done)%andThen_Done)%andThen_Done)%andThen_Done.
  assert (nodes e1 = nodes e ∧ communities e1 = communities e
          ∧ config e1 = config e ∧ communityCenters e1 = communityCenters e)
    as (? & ? & ? & ?).
  { unfold updateCharge in H1.
    destruct (ForceConfig.chargeStrength' changes);
      [|by injection H1 as <-].
    destruct (Simulation.charge _); [|by injection H1 as <-].
    by apply libraryCall_Done in H1. }
  assert (nodes e2 = nodes e1 ∧ communities e2 = communities e1
          ∧ config e2 = config e1
          ∧ communityCenters e2 = communityCenters e1) as (? & ? & ? & ?).
  { unfold updateLinkDistance in H2.
    destruct (ForceConfig.linkDistance' changes);
      [|by injection H2 as <-].
    destruct (Simulation.link _); [|by injection H2 as <-].
    by apply libraryCall_Done in H2. }
  assert (nodes e3 = nodes e2 ∧ communities e3 = communities e2
          ∧ config e3 = config e2
          ∧ communityCenters e3 = communityCenters e2) as (? & ? & ? & ?).
  { unfold updateLinkStrength in H3.
    destruct (ForceConfig.linkStrength' changes);
      [|by injection H3 as <-].
    destruct (Simulation.link _); [|by injection H3 as <-].
    by apply libraryCall_Done in H3. }
  assert (nodes e4 = nodes e3 ∧ communities e4 = communities e3
          ∧ config e4 = config e3
          ∧ communityCenters e4 = communityCenters e3) as (? & ? & ? & ?).
  { unfold updateCenter in H4.
    destruct (ForceConfig.centerStrength' changes);
      [|by injection H4 as <-].
    destruct (Simulation.center _); [|by injection H4 as <-].
    by apply libraryCall_Done in H4. }
  assert (nodes e5 = nodes e4 ∧ communities e5 = communities e4
          ∧ config e5 = config e4
          ∧ communityCenters e5 = communityCenters e4) as (? & ? & ? & ?).
  { unfold updateCollision in H5.
    destruct (ForceConfig.collisionRadius' changes);
      [|by injection H5 as <-].
    destruct (Simulation.collision _); [|by injection H5 as <-].
    by apply libraryCall_Done in H5. }
  repeat split; congruence.
Qed.

Lemma centers_of e e' :
  nodes e' = nodes e → communities e' = communities e →
  config e' = config e →
  communityCenters (calculateCommunityCenters h e')
  = communityCenters (calculateCommunityCenters h e).
Proof. simpl. by intros -> -> ->. Qed.

(** A completed incremental update recomputed the cache if a spatial
    parameter was given, and left it alone otherwise. *)
Lemma updateIndividualForces_centers old changes e e' :
  updateIndividualForces h old changes e = Done e' →
  communityCenters e'
  = if spatialChange changes
    then communityCenters (calculateCommunityCenters h e)
    else communityCenters e.
Proof.
  unfold updateIndividualForces. intros Hrun.
  assert (∃ e5,
    andThen (updateCharge h changes e) (λ e,
    andThen (updateLinkDistance h changes e) (λ e,
    andThen (updateLinkStrength h changes e) (λ e,
    andThen (updateCenter h changes e) (λ e,
    andThen (updateCollision h changes e) Done)))) = Done e5
    ∧ (if spatialChange changes
       then andThen (updateCommunityForce h e5) (updateSphericalForce h)
       else Done e5) = Done e') as (e5 & Hsteps & Hlast).
  { destruct (updateCharge h changes e) as [e1|]; [|done]. simpl in *.
    destruct (updateLinkDistance h changes e1) as [e2|]; [|done].
    simpl in *.
    destruct (updateLinkStrength h changes e2) as [e3|]; [|done].
    simpl in *.
    destruct (updateCenter h changes e3) as [e4|]; [|done]. simpl in *.
    destruct (updateCollision h changes e4) as [e5|]; [|done]. simpl in *.
    by exists e5. }
  apply library_steps_Done in Hsteps as (Hn & Hc & Hg & Hm).
  destruct (spatialChange changes).
  - apply andThen_Done in Hlast as (e6 & H6 & H7).
    apply libraryCall_Done in H6 as (_ & _ & _ & H6).
    apply libraryCall_Done in H7 as (_ & _ & _ & H7).
    rewrite H7, H6. by apply centers_of.
  - by injection Hlast as <-.
Qed.

(** X13: the cache of community centers is never stale.  It holds what
    [calculateCommunityCenters] computes from the present nodes,
    communities and configuration once the forces are set up and when
    the timer starts, and it still does after a tick, after
    [precomputeCommunityData], and after [updateConfig] with any partial
    configuration, whether the incremental update completes (and skips
    the recomputation) or throws. *)
Theorem communityCenters_coherent :
  (∀ e, coherent h (setupForces h e))
  ∧ (∀ g e, coherent h (start h g e))
  ∧ (∀ e, coherent h e → coherent h (tick h e))
  ∧ (∀ e, coherent h e → coherent h (precomputeCommunityData e))
  ∧ (∀ newConfig e, coherent h e → coherent h (updateConfig h newConfig e)).
Proof.
  unfold coherent. split; [done|]. split; [done|].
  split; [|split].
  - intros e He. simpl in *. rewrite He.
    symmetry. apply centers_same.
    intros i c. by apply communityCenter_moved.
  - intros e He. rewrite precomputeCommunityData_eq. simpl in *.
    rewrite He. symmetry. apply centers_ext; [|done].
    intros i c. unfold communityCenter. rewrite length_fmap.
    cbn [annotate Community.id Community.level].
    rewrite (list_filter_iff _
               (λ node, communityId (communities e) node
                        = Some (Community.id c))); [done|].
    intros node. by rewrite communityId_fmap.
  - intros newConfig e He. unfold updateConfig.
    set (e1 := withConfig (ForceConfig.merge (config e) newConfig) e).
    case_decide as Hlen.
    + change (nodes e1) with (nodes e) in Hlen.
      apply length_zero_iff_nil in Hlen. simpl in *.
      rewrite He, Hlen. by rewrite !centers_no_nodes.
    + pose proof (kept_updateIndividualForces h (config e) newConfig e1)
        as (Hn & _ & Hc & Hg & _).
      destruct (updateIndividualForces h (config e) newConfig e1)
        as [e2|e2] eqn:Hrun; simpl in Hn, Hc, Hg.
      * apply updateIndividualForces_centers in Hrun.
        change (communityCenters e2
                = communityCenters (calculateCommunityCenters h e2)).
        rewrite (centers_of e1 e2 Hn Hc Hg), Hrun.
        destruct (spatialChange newConfig) eqn:Hsp; [done|].
        change (communityCenters e1) with (communityCenters e).
        rewrite He. simpl.
        symmetry. apply centers_same.
        intros i c. unfold communityCenter.
        unfold spatialChange in Hsp. apply bool_decide_eq_false in Hsp.
        unfold ForceConfig.merge. simpl.
        destruct (ForceConfig.spread3D' newConfig);
          [destruct Hsp; right; left; by eexists|].
        destruct (ForceConfig.levelSpacing' newConfig);
          [destruct Hsp; right; right; left; by eexists|].
        done.
      * done.
Qed.
End Coherence.

(** * Further facts: seeds on their spheres, accessors of the forces *)

Section Spheres.
Import Engine ForceSimulation3D.
Variable h : host.
Local Open Scope Q_scope.



(** X15: the accessors handed to the library.  For a non-negative weight
    and a non-negative configured distance, the distance of a link lies
    between 0 and the configured distance and shrinks as the weight
    grows; the strength of a link is at most the configured strength and
    at most 0.05 times its weight; the charge of a node is the configured
    charge lowered by 5 per degree; the collision radius exceeds the
    configured one by the node size, between 0.8 and 4. *)
Theorem accessors_bounds cfg :
  (∀ d, 0 <= Link3D.weight d → 0 <= ForceConfig.linkDistance cfg →
        0 <= linkDistance cfg d
        ∧ linkDistance cfg d <= ForceConfig.linkDistance cfg)
  ∧ (∀ d d', 0 <= Link3D.weight d → Link3D.weight d <= Link3D.weight d' →
             0 <= ForceConfig.linkDistance cfg →
             linkDistance cfg d' <= linkDistance cfg d)
  ∧ (∀ d, linkStrength cfg d <= ForceConfig.linkStrength cfg
          ∧ linkStrength cfg d <= Link3D.weight d * 0.05)
  ∧ (∀ d, 0 <= Node3D.degree d →
          nodeChargeStrength cfg d <= ForceConfig.chargeStrength cfg)
  ∧ (∀ d, collisionRadius cfg d <= ForceConfig.collisionRadius cfg + 4
          ∧ (0 <= Node3D.degree d → 0 <= Node3D.frequency d →
             ForceConfig.collisionRadius cfg + 0.8
             <= collisionRadius cfg d)).
Proof.
  assert (∀ w, 0 <= w → 0 < / (w * 0.05 + 1) ∧ / (w * 0.05 + 1) <= 1)
    as Hinv.
  { intros w Hw. split; [apply Qinv_lt_0_compat; lra|].
    assert (/ (w * 0.05 + 1) == 1 / (w * 0.05 + 1)) as ->
      by (field; lra).
    apply Qle_shift_div_r; lra. }
  split; [|split; [|split; [|split]]].
  - intros d Hw HL. unfold linkDistance.
    destruct (Hinv _ Hw) as [Hpos Hle].
    assert (1 / (Link3D.weight d * 0.05 + 1)
            == / (Link3D.weight d * 0.05 + 1)) as -> by (field; lra).
    split; nra.
  - intros d d' Hw Hww HL. unfold linkDistance.
    rewrite !(Qmult_comm (ForceConfig.linkDistance cfg)).
    apply Qmult_le_compat_r; [|exact HL].
    apply Qle_shift_div_l; [lra|].
    assert (1 / (Link3D.weight d' * 0.05 + 1)
              * (Link3D.weight d * 0.05 + 1)
            == (Link3D.weight d * 0.05 + 1)
               / (Link3D.weight d' * 0.05 + 1)) as -> by (field; lra).
    apply Qle_shift_div_r; lra.
  - intros d. unfold linkStrength.
    split; [apply Q.le_min_r | apply Q.le_min_l].
  - intros d Hd. unfold nodeChargeStrength. lra.
  - intros d. unfold collisionRadius, calculateNodeSize.
    destruct (Q.min_spec
                (0.8 + (Node3D.degree d + Node3D.frequency d * 0.1) * 0.15)
                4.0) as [[H E] | [H E]]; rewrite E; split; intros; lra.
Qed.
End Spheres.

Section SphereWitnesses.
Import Engine ForceSimulation3D.
Local Open Scope Q_scope.

End SphereWitnesses.

(** * Further facts: the subtree selector on any list *)

Section SelectorMore.
Import Community Selector.
Implicit Types (c p r : Community.t) (l all : list Community.t).

Lemma reached_trans all p c x :
  reached all p c → reached all c x → reached all p x.
Proof.
  intros Hpc. induction 1 as [|q x Hq IH Hx]; [exact Hpc|].
  by apply (reached_child all p q x).
Qed.

(** The upward walk stops at a community from which the descent finds
    its way back to every community of the path. *)
Lemma walkUp_reaches all n : ∀ c tail r rest,
  c ∈ all → (∀ x, x ∈ tail → reached all c x) →
  walkUp n (communityByHumanIdMap all) c (c :: tail) = r :: rest →
  r ∈ all ∧ ∀ x, x ∈ c :: tail → reached all r x.
Proof.
  induction n as [|n IH]; intros c tail r rest Hc Htail Hwalk.
  - simpl in Hwalk. injection Hwalk as <- <-. split; [done|].
    intros x [-> | Hx]%elem_of_cons; [apply reached_root | by apply Htail].
  - simpl in Hwalk.
    assert (r = c → r ∈ all ∧ ∀ x, x ∈ c :: tail → reached all r x)
      as Hstop.
    { intros ->. split; [done|].
      intros x [-> | Hx]%elem_of_cons; [apply reached_root | by apply Htail]. }
    destruct (parent c) as [parentId|] eqn:Hp;
      [|injection Hwalk as <- <-; by apply Hstop].
    destruct (communityByHumanIdMap all !! parentId) as [p|] eqn:Hm;
      [|injection Hwalk as <- <-; by apply Hstop].
    apply byHumanId_sound in Hm as [Hin Hh].
    assert (reached all p c) as Hpc.
    { apply (reached_child all p p c); [apply reached_root|]. left.
      apply byParent_spec. split; [done|]. by rewrite Hh. }
    assert (∀ x, x ∈ c :: tail → reached all p x) as Hall.
    { intros x [-> | Hx]%elem_of_cons; [done|].
      apply (reached_trans all p c x); [done | by apply Htail]. }
    case_decide.
    + injection Hwalk as <- <-. split; [done | exact Hall].
    + destruct (IH p (c :: tail) r rest Hin Hall Hwalk) as [Hr Hreach].
      split; [done|]. intros x Hx. apply Hreach. by apply elem_of_cons; right.
Qed.

Lemma rootCommunity_reaches all sel :
  sel ∈ all →
  rootCommunity (communityByHumanIdMap all) sel ∈ all
  ∧ reached all (rootCommunity (communityByHumanIdMap all) sel) sel.
Proof.
  intros Hsel. unfold rootCommunity.
  destruct (walkUp_head 10 (communityByHumanIdMap all) sel [])
    as (r & rest & Hwalk).
  rewrite Hwalk.
  destruct (walkUp_reaches all 10 sel [] r rest Hsel) as [Hr Hreach];
    [intros x Hx; by apply elem_of_nil in Hx | done |].
  split; [done|]. apply Hreach. by apply list_elem_of_here.
Qed.

(** The function returns the selection alone (its [catch]) or the
    communities of the list whose id the descent collected, sorted. *)
Lemma tree_cases all sel fuel :
  (loopBound all ≤ fuel)%nat → all ≠ [] →
  (tryBlock fuel sel all = Some Thrown
   ∧ getCompleteHierarchyTree fuel sel all = Some [sel])
  ∨ ∃ ids,
      bfs fuel (communityByHumanIdMap all)
          (initial (rootCommunity (communityByHumanIdMap all) sel) all)
      = Some (Returned ids)
      ∧ getCompleteHierarchyTree fuel sel all
        = Some (sortByLevel (filter (λ c, id c ∈ ids) all)).
Proof.
  intros Hfuel Hne. unfold getCompleteHierarchyTree, tryBlock, subtreeOf.
  destruct all as [|c0 all']; [done|].
  destruct (bfs_within_loopBound (c0 :: all')
              (rootCommunity (communityByHumanIdMap (c0 :: all')) sel)
              fuel Hfuel) as [[ids|] Hbfs]; rewrite Hbfs.
  - right. by exists ids.
  - by left.
Qed.

(** X16: in a list with distinct ids, the tree of a community of the list
    always holds that community and the community the upward walk
    stopped at, however deep the selection lies and whatever the parent
    links are (cycles included). *)
Theorem selection_in_its_tree all sel fuel :
  NoDup (id <$> all) → sel ∈ all → (loopBound all ≤ fuel)%nat →
  ∃ result,
    getCompleteHierarchyTree fuel sel all = Some result
    ∧ sel ∈ result
    ∧ (tryBlock fuel sel all ≠ Some Thrown →
       rootCommunity (communityByHumanIdMap all) sel ∈ result).
Proof.
  intros Hnd Hsel Hfuel.
  assert (all ≠ []) as Hne by (intros ->; by apply elem_of_nil in Hsel).
  destruct (rootCommunity_reaches all sel Hsel) as [Hroot Hreach].
  set (root := rootCommunity (communityByHumanIdMap all) sel) in *.
  destruct (tree_cases all sel fuel Hfuel Hne)
    as [[Hthrown ->] | (ids & Hbfs & ->)].
  - exists [sel]. split; [done|]. split; [apply list_elem_of_here|].
    by intros [].
  - eexists. split; [done|].
    assert (∀ c c', (c = root ∨ c ∈ all) → (c' = root ∨ c' ∈ all) →
                    id c = id c' → c = c') as Hinj.
    { intros c c' Hc Hc'. apply (id_injective all); [done| |].
      - by destruct Hc as [-> | ?].
      - by destruct Hc' as [-> | ?]. }
    unfold sortByLevel. rewrite !sortBy_elem, !list_elem_of_filter.
    split; [split; [|done]|intros _; split; [|done]].
    + apply (bfs_reached all root Hinj fuel _ ids
               (exploring_initial all root) Hbfs); auto.
    + apply (bfs_reached all root Hinj fuel _ ids
               (exploring_initial all root) Hbfs); [auto | apply reached_root].
Qed.

(** X17: for any list and any selection the result is sorted by level;
    it is the selection alone or a rearrangement of a sublist of the
    list, so it holds no community twice when the list holds none twice,
    and it is never longer than the list unless the list is empty. *)
Theorem getCompleteHierarchyTree_shape all sel fuel :
  (loopBound all ≤ fuel)%nat →
  ∃ result,
    getCompleteHierarchyTree fuel sel all = Some result
    ∧ sortedByLevel result
    ∧ (result = [sel] ∨ ∃ kept, sublist kept all ∧ result ≡ₚ kept)
    ∧ (NoDup all → NoDup result)
    ∧ (all = [] → result = []).
Proof.
  intros Hfuel. destruct all as [|c0 all'] eqn:Hall.
  { exists []. split; [done|]. split; [apply SSorted_nil|].
    split; [right; by exists []|]. done. }
  rewrite <- Hall in *.
  assert (all ≠ []) as Hne by by rewrite Hall.
  destruct (tree_cases all sel fuel Hfuel Hne)
    as [[_ ->] | (ids & _ & ->)].
  - exists [sel]. split; [done|].
    split; [repeat constructor|]. split; [by left|].
    split; [intros _; apply NoDup_singleton | by intros ->].
  - eexists. split; [done|]. split; [apply sortBy_sorted|].
    assert (sortByLevel (filter (λ c, id c ∈ ids) all)
            ≡ₚ filter (λ c, id c ∈ ids) all) as Hperm
      by apply sortBy_perm.
    split; [|split].
    + right. exists (filter (λ c, id c ∈ ids) all).
      split; [apply sublist_filter | exact Hperm].
    + intros Hnd. rewrite Hperm. by apply NoDup_filter.
    + by intros ->.
Qed.
End SelectorMore.

Section SelectorMoreWitnesses.
Import Community Selector.

Lemma selection_in_its_tree_witness :
  ∃ result,
    getCompleteHierarchyTree (loopBound chain) deepest chain = Some result
    ∧ deepest ∈ result
    ∧ (tryBlock (loopBound chain) deepest chain ≠ Some Thrown →
       rootCommunity (communityByHumanIdMap chain) deepest ∈ result).
Proof.
  apply (selection_in_its_tree chain deepest (loopBound chain)).
  - apply (bool_decide_unpack _). by vm_compute.
  - apply (list_elem_of_lookup_2 chain 11). reflexivity.
  - reflexivity.
Defined.

Lemma getCompleteHierarchyTree_shape_witness :
  ∃ result,
    getCompleteHierarchyTree 26 orphan [commA; orphan; orphanChild]
    = Some result
    ∧ sortedByLevel result
    ∧ (result = [orphan]
       ∨ ∃ kept, sublist kept [commA; orphan; orphanChild]
                 ∧ result ≡ₚ kept)
    ∧ (NoDup [commA; orphan; orphanChild] → NoDup result)
    ∧ ([commA; orphan; orphanChild] = [] → result = []).
Proof.
  apply (getCompleteHierarchyTree_shape [commA; orphan; orphanChild]
                                        orphan 26).
  by vm_compute.
Defined.
End SelectorMoreWitnesses.

(** * Further facts: the filters of the page and of the visualizer *)

Section Filters.
Import Page.
Implicit Types (s : state) (lay v : GraphLayout.t) (n : Node3D.t)
               (l : Link3D.t).
Local Open Scope Q_scope.

Lemma filter_all {A} (P : A → Prop) `{!∀ x, Decision (P x)} (xs : list A) :
  (∀ x, x ∈ xs → P x) → filter P xs = xs.
Proof.
  induction xs as [|x xs IH]; intros HP; [done|].
  rewrite filter_cons_True by (apply HP; apply list_elem_of_here).
  f_equal. apply IH. intros y Hy. apply HP. by apply list_elem_of_further.
Qed.

Lemma filter_none {A} (P : A → Prop) `{!∀ x, Decision (P x)} (xs : list A) :
  (∀ x, x ∈ xs → ¬ P x) → filter P xs = [].
Proof.
  induction xs as [|x xs IH]; intros HP; [done|].
  rewrite filter_cons_False by (apply HP; apply list_elem_of_here).
  apply IH. intros y Hy. apply HP. by apply list_elem_of_further.
Qed.

Lemma visibleEnd_true owner (ns : list Node3D.t) r :
  visibleEnd owner (list_to_set (Node3D.id <$> ns)) r = true
  ↔ ∃ a, a ∈ ns ∧ endpointId owner r = Some (Node3D.id a).
Proof.
  unfold visibleEnd. destruct (endpointId owner r) as [i|].
  - rewrite bool_decide_eq_true, elem_of_list_to_set, list_elem_of_fmap.
    split.
    + intros (a & -> & Ha). by exists a.
    + intros (a & Ha & [= ->]). by exists a.
  - split; [done | by intros (a & _ & ?)].
Qed.

(** The nodes [filteredLayout] keeps. *)
Lemma filteredLayout_nodes s lay v :
  layout s = Some lay → filteredLayout s = Some v →
  GraphLayout.communities v = GraphLayout.communities lay
  ∧ sublist (GraphLayout.nodes v) (GraphLayout.nodes lay)
  ∧ (∀ n, n ∈ GraphLayout.nodes v
          ↔ n ∈ GraphLayout.nodes lay
            ∧ ((0 < base.size (selectedEntityTypes s))%nat →
               type n ∈ selectedEntityTypes s)
            ∧ (∀ level, selectedLevel s = Some level →
                        Node3D.communityLevel n = level))
  ∧ GraphLayout.links v
    = filter (λ link,
                Qle_bool (minRelationshipWeight s) (Link3D.weight link)
                && visibleEnd (GraphLayout.nodes lay)
                     (list_to_set (Node3D.id <$> GraphLayout.nodes v))
                     (Link3D.source link)
                && visibleEnd (GraphLayout.nodes lay)
                     (list_to_set (Node3D.id <$> GraphLayout.nodes v))
                     (Link3D.target link) = true)
             (GraphLayout.links lay).
Proof.
  intros Hlay. unfold filteredLayout. rewrite Hlay.
  destruct (graphData s) as [g|]; [|done]. intros [= <-]. simpl.
  split; [done|].
  destruct (selectedLevel s) as [level|];
    case_decide as Hsize; (split; [|split; [|done]]);
    try (intros n; rewrite ?list_elem_of_filter);
    try naive_solver.
  - etrans; apply sublist_filter.
  - apply sublist_filter.
  - apply sublist_filter.
Qed.

(** X18: [filteredLayout] keeps the communities, and keeps the nodes and
    the links in their order.  A node is kept exactly when it passes the
    type filter (if any type is selected) and the level filter (if a level
    is selected); a link is kept exactly when its weight reaches the
    minimum and each of its ends has the id of a kept node.  With
    distinct node ids both ends of a kept link are kept nodes. *)
Theorem filteredLayout_closed s lay v :
  layout s = Some lay → filteredLayout s = Some v →
  GraphLayout.communities v = GraphLayout.communities lay
  ∧ sublist (GraphLayout.nodes v) (GraphLayout.nodes lay)
  ∧ sublist (GraphLayout.links v) (GraphLayout.links lay)
  ∧ (∀ n, n ∈ GraphLayout.nodes v
          ↔ n ∈ GraphLayout.nodes lay
            ∧ ((0 < base.size (selectedEntityTypes s))%nat →
               type n ∈ selectedEntityTypes s)
            ∧ (∀ level, selectedLevel s = Some level →
                        Node3D.communityLevel n = level))
  ∧ (∀ l, l ∈ GraphLayout.links v
          ↔ l ∈ GraphLayout.links lay
            ∧ minRelationshipWeight s <= Link3D.weight l
            ∧ (∃ a, a ∈ GraphLayout.nodes v
                    ∧ endpointId (GraphLayout.nodes lay) (Link3D.source l)
                      = Some (Node3D.id a))
            ∧ (∃ b, b ∈ GraphLayout.nodes v
                    ∧ endpointId (GraphLayout.nodes lay) (Link3D.target l)
                      = Some (Node3D.id b)))
  ∧ (NoDup (Node3D.id <$> GraphLayout.nodes lay) →
     ∀ l, l ∈ GraphLayout.links v →
          ∃ a b, GraphLayout.nodes lay !! Link3D.source l = Some a
                 ∧ a ∈ GraphLayout.nodes v
                 ∧ GraphLayout.nodes lay !! Link3D.target l = Some b
                 ∧ b ∈ GraphLayout.nodes v).
Proof.
  intros Hlay Hv.
  destruct (filteredLayout_nodes s lay v Hlay Hv)
    as (Hcs & Hsub & Hnodes & Hlinks).
  assert (∀ l, l ∈ GraphLayout.links v
          ↔ l ∈ GraphLayout.links lay
            ∧ minRelationshipWeight s <= Link3D.weight l
            ∧ (∃ a, a ∈ GraphLayout.nodes v
                    ∧ endpointId (GraphLayout.nodes lay) (Link3D.source l)
                      = Some (Node3D.id a))
            ∧ (∃ b, b ∈ GraphLayout.nodes v
                    ∧ endpointId (GraphLayout.nodes lay) (Link3D.target l)
                      = Some (Node3D.id b))) as Hl.
  { intros l. rewrite Hlinks, list_elem_of_filter, !andb_true_iff.
    rewrite Qle_bool_iff, !visibleEnd_true. naive_solver. }
  split; [done|]. split; [done|].
  split; [rewrite Hlinks; apply sublist_filter|].
  split; [done|]. split; [done|].
  intros Hnd l (_ & _ & (a & Ha & Hsrc) & (b & Hb & Htgt))%Hl.
  assert (∀ r c, c ∈ GraphLayout.nodes v →
                 endpointId (GraphLayout.nodes lay) r = Some (Node3D.id c) →
                 GraphLayout.nodes lay !! r = Some c) as Hsame.
  { intros r c Hc Hr. unfold endpointId in Hr.
    destruct (GraphLayout.nodes lay !! r) as [c'|] eqn:Hc'; [|done].
    injection Hr as Hid. f_equal.
    apply Hnodes in Hc as [Hc _].
    apply list_elem_of_lookup in Hc as [j Hj].
    assert (r = j) as ->; [|congruence].
    apply (NoDup_lookup (Node3D.id <$> GraphLayout.nodes lay) r j
                        (Node3D.id c)); [done| |].
    - by rewrite list_lookup_fmap, Hc'; simpl; rewrite Hid.
    - by rewrite list_lookup_fmap, Hj. }
  exists a, b. split; [by apply Hsame|]. split; [done|].
  split; [by apply Hsame | done].
Qed.

(** X19: every connected link is a link of the filtered layout that has
    the selected node's id at one end; when no kept node has the selected
    node's id (the selection is filtered out), no link is connected. *)
Theorem connectedLinks_of_filtered s :
  (∀ l, l ∈ connectedLinks s →
        ∃ lay v selected,
          layout s = Some lay ∧ filteredLayout s = Some v
          ∧ selectedNode s = Some selected
          ∧ l ∈ GraphLayout.links v
          ∧ (endpointId (GraphLayout.nodes lay) (Link3D.source l)
             = Some (Node3D.id selected)
             ∨ endpointId (GraphLayout.nodes lay) (Link3D.target l)
               = Some (Node3D.id selected)))
  ∧ (∀ v selected,
       filteredLayout s = Some v → selectedNode s = Some selected →
       (∀ n, n ∈ GraphLayout.nodes v → Node3D.id n ≠ Node3D.id selected) →
       connectedLinks s = []).
Proof.
  unfold connectedLinks. split.
  - intros l Hl.
    destruct (selectedNode s) as [selected|];
      [|by apply elem_of_nil in Hl].
    destruct (filteredLayout s) as [v|] eqn:Hv;
      [|by apply elem_of_nil in Hl].
    destruct (layout s) as [lay|] eqn:Hlay;
      [|by apply elem_of_nil in Hl].
    apply list_elem_of_filter in Hl as [Ht Hl].
    exists lay, v, selected. repeat (split; [done|]).
    unfold touches in Ht. apply orb_true_iff in Ht.
    by rewrite !bool_decide_eq_true in Ht.
  - intros v selected Hv Hsel Hout. rewrite Hsel, Hv.
    destruct (layout s) as [lay|] eqn:Hlay; [|done].
    destruct (filteredLayout_nodes s lay v Hlay Hv) as (_ & _ & _ & Hlinks).
    apply filter_none. intros l Hl Ht.
    rewrite Hlinks in Hl. apply list_elem_of_filter in Hl as [Hkeep _].
    rewrite !andb_true_iff, !visibleEnd_true in Hkeep.
    destruct Hkeep as [[_ (a & Ha & Hsrc)] (b & Hb & Htgt)].
    unfold touches in Ht. apply orb_true_iff in Ht.
    rewrite !bool_decide_eq_true in Ht.
    destruct Ht as [Ht | Ht].
    + rewrite Hsrc in Ht. injection Ht as Ht. by apply (Hout a).
    + rewrite Htgt in Ht. injection Ht as Ht. by apply (Hout b).
Qed.

(** X20: the visualizer filters once more the layout the page hands it,
    with the same settings, and this second pass removes nothing: its
    nodes and links are those of the page's filtered layout. *)
Theorem visualizer_filters_again s lay v :
  layout s = Some lay → filteredLayout s = Some v →
  Visualizer.filteredNodes (Some v) (selectedEntityTypes s)
                           (selectedLevel s)
  = GraphLayout.nodes v
  ∧ Visualizer.filteredLinks (GraphLayout.nodes lay) (Some v)
      (Visualizer.filteredNodes (Some v) (selectedEntityTypes s)
                                (selectedLevel s))
      (minRelationshipWeight s)
    = GraphLayout.links v.
Proof.
  intros Hlay Hv.
  destruct (filteredLayout_nodes s lay v Hlay Hv)
    as (_ & _ & Hnodes & Hlinks).
  assert (Visualizer.filteredNodes (Some v) (selectedEntityTypes s)
                                   (selectedLevel s)
          = GraphLayout.nodes v) as Hn.
  { unfold Visualizer.filteredNodes. apply filter_all. intros n Hn.
    apply Hnodes in Hn as (_ & Ht & Hlv). unfold Visualizer.keep.
    destruct (bool_decide (0 < base.size (selectedEntityTypes s))%nat)
      eqn:Hsize; simpl.
    - apply bool_decide_eq_true in Hsize.
      rewrite (bool_decide_eq_true_2 _ (Ht Hsize)). simpl.
      destruct (selectedLevel s) as [level|]; [|done].
      by rewrite bool_decide_eq_false_2 by (intros Hne; by apply Hne, Hlv).
    - destruct (selectedLevel s) as [level|]; [|done].
      by rewrite bool_decide_eq_false_2 by (intros Hne; by apply Hne, Hlv). }
  split; [exact Hn|]. rewrite Hn. unfold Visualizer.filteredLinks.
  apply filter_all. intros l Hl. rewrite Hlinks in Hl.
  apply list_elem_of_filter in Hl as [Hkeep _].
  rewrite !andb_true_iff in Hkeep. destruct Hkeep as [[Hw Hs] Ht].
  apply Qle_bool_iff in Hw.
  destruct (Qlt_le_dec (Link3D.weight l) (minRelationshipWeight s));
    [lra|]. by rewrite Hs, Ht.
Qed.
End Filters.

(** * Further facts: hero edges *)

Section HeroEdges.
Import Visualizer.
Local Open Scope Q_scope.

Lemma insertAsc_perm a l : insertAsc a l ≡ₚ a :: l.
Proof.
  induction l as [|b l IH]; simpl; [done|].
  destruct (Qle_bool a b); [done|]. rewrite IH. apply Permutation_swap.
Qed.

Lemma sortAsc_perm l : sortAsc l ≡ₚ l.
Proof.
  induction l as [|a l IH]; simpl; [done|].
  by rewrite insertAsc_perm, IH.
Qed.

Lemma insertAsc_sorted a l :
  StronglySorted Qle l → StronglySorted Qle (insertAsc a l).
Proof.
  induction 1 as [|b l Hs IH Hb]; simpl; [by repeat constructor|].
  destruct (Qle_bool a b) eqn:E.
  - apply Qle_bool_iff in E. constructor; [by constructor|].
    constructor; [done|]. eapply Forall_impl; [exact Hb|].
    intros c Hc. simpl in Hc. lra.
  - assert (b <= a) as Hba.
    { destruct (Qlt_le_dec b a) as [?|Hle]; [lra|].
      apply Qle_bool_iff in Hle. congruence. }
    constructor; [done|]. rewrite insertAsc_perm. by constructor.
Qed.

Lemma sortAsc_sorted l : StronglySorted Qle (sortAsc l).
Proof.
  induction l as [|a l IH]; simpl; [constructor | by apply insertAsc_sorted].
Qed.

(** From an index on, a sorted list holds nothing below the element at
    that index. *)
Lemma sorted_drop (ws : list Q) :
  StronglySorted Qle ws → ∀ i t w,
  ws !! i = Some t → w ∈ drop i ws → t <= w.
Proof.
  induction 1 as [|a ws Hs IH Ha]; intros i t w Hi Hw; [done|].
  destruct i as [|i]; simpl in *.
  - injection Hi as <-.
    apply elem_of_cons in Hw as [-> | Hw]; [lra|].
    by apply (proj1 (Forall_forall _ _) Ha).
  - by apply (IH i).
Qed.

Lemma filter_split {A} (f : A → bool) (l : list A) :
  (length (filter (λ x, f x = true) l)
   + length (filter (λ x, f x = false) l))%nat = length l.
Proof.
  induction l as [|x l IH]; [done|]. rewrite !filter_cons.
  destruct (decide (f x = true)) as [Ht|Ht];
    destruct (decide (f x = false)) as [Hf|Hf]; simpl; try lia.
  - congruence.
  - by destruct (f x).
Qed.

Lemma filter_fmap_length {A B} (g : A → B) (P : B → Prop)
    `{!∀ y, Decision (P y)} `{!∀ x, Decision (P (g x))} (l : list A) :
  length (filter (λ x, P (g x)) l) = length (filter P (g <$> l)).
Proof.
  induction l as [|x l IH]; [done|]. rewrite fmap_cons, !filter_cons.
  repeat case_decide; simpl; try done; by rewrite IH.
Qed.

Lemma threshold_index (ws : list Q) :
  ws ≠ [] →
  ∃ t, threshold ws = Some t ∧ ws !! (length ws * 9 / 10)%nat = Some t.
Proof.
  intros Hne. unfold threshold.
  assert (0 < length ws)%nat by (destruct ws; [done | simpl; lia]).
  assert (length ws * 9 / 10 < length ws)%nat
    by (apply Nat.Div0.div_lt_upper_bound; lia).
  replace (Nat.min (length ws - 1) (Nat.max 0 (length ws * 9 / 10)))
    with (length ws * 9 / 10)%nat by lia.
  destruct (lookup_lt_is_Some_2 ws (length ws * 9 / 10)%nat) as [t Ht];
    [lia|]. by exists t.
Qed.

(** X21: for a layout with at least one link, the threshold of the hero
    edges is the weight of some link; the hero edges are the links at
    least that heavy; every link of largest weight is one of them; and
    the links that are not hero edges number at most nine tenths of the
    links (rounded down), so at least one link in ten is a hero edge. *)
Theorem heroLinks_top layout :
  GraphLayout.links layout ≠ [] →
  ∃ t,
    threshold (sortAsc (Link3D.weight <$> GraphLayout.links layout))
    = Some t
    ∧ (∃ l, l ∈ GraphLayout.links layout ∧ Link3D.weight l = t)
    ∧ (∀ l, l ∈ heroLinks layout
            ↔ l ∈ GraphLayout.links layout ∧ t <= Link3D.weight l)
    ∧ (∀ l, l ∈ GraphLayout.links layout →
            (∀ l', l' ∈ GraphLayout.links layout →
                   Link3D.weight l' <= Link3D.weight l) →
            l ∈ heroLinks layout)
    ∧ (length (GraphLayout.links layout)
       ≤ length (heroLinks layout)
         + length (GraphLayout.links layout) * 9 / 10)%nat
    ∧ heroLinks layout ≠ [].
Proof.
  intros Hne.
  set (links := GraphLayout.links layout) in *.
  set (ws := sortAsc (Link3D.weight <$> links)).
  assert (ws ≡ₚ Link3D.weight <$> links) as Hperm by apply sortAsc_perm.
  assert (length ws = length links) as Hlen
    by by rewrite Hperm, length_fmap.
  assert (ws ≠ []) as Hws.
  { intros Hnil. rewrite Hnil in Hlen. destruct links; [done|].
    simpl in Hlen. lia. }
  destruct (threshold_index ws Hws) as (t & Ht & Hidx).
  exists t. split; [exact Ht|].
  assert (∃ l, l ∈ links ∧ Link3D.weight l = t) as (l0 & Hl0 & Hw0).
  { apply list_elem_of_lookup_2 in Hidx. rewrite Hperm in Hidx.
    apply list_elem_of_fmap in Hidx as (l & -> & Hl). by exists l. }
  assert (∀ l, l ∈ heroLinks layout ↔ l ∈ links ∧ t <= Link3D.weight l)
    as Hhero.
  { intros l. unfold heroLinks. fold links. fold ws. rewrite Ht.
    by rewrite list_elem_of_filter, Qle_bool_iff, (comm and). }
  split; [by exists l0|]. split; [exact Hhero|].
  split; [|split].
  - intros l Hl Hmax. apply Hhero. split; [done|].
    rewrite <- Hw0. by apply Hmax.
  - unfold heroLinks. fold links. fold ws. rewrite Ht.
    pose proof (filter_split (λ l, Qle_bool t (Link3D.weight l)) links)
      as Hsplit.
    assert (length (filter (λ l, Qle_bool t (Link3D.weight l) = false)
                           links)
            ≤ length ws * 9 / 10)%nat as Hlow; [|rewrite Hlen in Hlow; lia].
    assert (length (filter (λ l, Qle_bool t (Link3D.weight l) = false)
                           links)
            = length (filter (λ w, Qle_bool t w = false)
                             (Link3D.weight <$> links))) as ->
      by apply (filter_fmap_length Link3D.weight
                  (λ w, Qle_bool t w = false)).
    rewrite <- Hperm.
    rewrite <- (take_drop (length ws * 9 / 10) ws) at 1.
    rewrite filter_app, length_app.
    rewrite (filter_none _ (drop _ ws)).
    + simpl. rewrite Nat.add_0_r.
      etrans; [apply length_filter|]. rewrite length_take. lia.
    + intros w Hw Hfalse.
      pose proof (sorted_drop ws (sortAsc_sorted _) _ t w Hidx Hw) as Hle.
      apply Qle_bool_iff in Hle. congruence.
  - intros Hnil.
    assert (l0 ∈ heroLinks layout) as Hin
      by (apply Hhero; split; [done | rewrite Hw0; lra]).
    rewrite Hnil in Hin. by apply elem_of_nil in Hin.
Qed.
End HeroEdges.

(** * Further facts: visible communities, the inspector, the boundaries *)

Section Panels.
Import Community Selector.
Implicit Types (c : Community.t) (cs vis : list Community.t).
Local Open Scope Q_scope.

(** X22: the communities the page shows are communities of the layout.
    Outside inspector mode, or with no node selected, they are all of
    them; in inspector mode with a selected node they are sorted by level,
    and none is shown when the node has no community. *)
Theorem visibleCommunities_within fuel s lay :
  Page.layout s = Some lay →
  (loopBound (GraphLayout.communities lay) ≤ fuel)%nat →
  ∃ vis,
    Page.visibleCommunities fuel s = Some vis
    ∧ (∀ c, c ∈ vis → c ∈ GraphLayout.communities lay)
    ∧ (Page.inspectorMode s = false ∨ Page.selectedNode s = None →
       vis = GraphLayout.communities lay)
    ∧ (Page.inspectorMode s = true →
       ∀ node, Page.selectedNode s = Some node →
         sortedByLevel vis
         ∧ (Page.communityOf (GraphLayout.communities lay) node = None →
            vis = [])).
Proof.
  intros Hlay Hfuel. unfold Page.visibleCommunities. rewrite Hlay.
  destruct (Page.inspectorMode s);
    [destruct (Page.selectedNode s) as [node|]|].
  - destruct (Page.communityOf (GraphLayout.communities lay) node)
      as [sel|] eqn:Hsel.
    + assert (sel ∈ GraphLayout.communities lay) as Hin.
      { unfold Page.communityOf in Hsel.
        destruct (Node3D.community node) as [r|]; [|done].
        by apply list_elem_of_lookup_2 in Hsel. }
      assert (GraphLayout.communities lay ≠ []) as Hne
        by (intros Hnil; rewrite Hnil in Hin; by apply elem_of_nil in Hin).
      destruct (tree_cases _ sel fuel Hfuel Hne)
        as [[_ ->] | (ids & _ & ->)]; eexists; (split; [done|]).
      * split; [by intros c ->%list_elem_of_singleton|].
        split; [by intros [? | ?]|]. intros _ node' [= <-].
        split; [|by rewrite Hsel].
        apply SSorted_cons; [apply SSorted_nil | apply Forall_nil_2].
      * split.
        { intros c. unfold sortByLevel.
          rewrite sortBy_elem, list_elem_of_filter. by intros [_ ?]. }
        split; [by intros [? | ?]|]. intros _ node' [= <-].
        split; [apply sortBy_sorted | by rewrite Hsel].
    + exists []. split; [done|].
      split; [by intros c Hc; apply elem_of_nil in Hc|].
      split; [by intros [? | ?]|]. intros _ node' [= <-].
      split; [apply SSorted_nil | done].
  - eexists. split; [done|]. split; [done|]. split; [done|].
    by intros _ node.
  - eexists. split; [done|]. split; [done|]. split; [done|]. done.
Qed.

Lemma find_parseInt vis t : Inspector.find vis (Js.parseInt t) = None.
Proof.
  unfold Inspector.find.
  destruct (list_find _ vis) as [[i c]|] eqn:E; [|done].
  apply list_find_Some in E as (_ & Hc & _).
  by rewrite strictEq_Str_parseInt in Hc.
Qed.

Lemma find_Str_sound vis h c :
  Inspector.find vis (Js.Str h) = Some c →
  c ∈ vis ∧ human_readable_id c = h.
Proof.
  unfold Inspector.find.
  destruct (list_find _ vis) as [[i c']|] eqn:E; [|done].
  intros [= <-]. apply list_find_Some in E as (Hi & Hc & _).
  split; [by apply list_elem_of_lookup_2 in Hi|].
  simpl in Hc. by apply bool_decide_eq_true in Hc.
Qed.

Lemma find_Str_complete vis c :
  NoDup (human_readable_id <$> vis) → c ∈ vis →
  Inspector.find vis (Js.Str (human_readable_id c)) = Some c.
Proof.
  intros Hnd Hc. unfold Inspector.find.
  destruct (list_find _ vis) as [[i c']|] eqn:E.
  - apply list_find_Some in E as (Hi & Heq & _). simpl. f_equal.
    simpl in Heq. apply bool_decide_eq_true in Heq.
    apply list_elem_of_lookup in Hc as [j Hj].
    assert (i = j) as ->; [|congruence].
    apply (NoDup_lookup (human_readable_id <$> vis) i j
                        (human_readable_id c)); [done| |].
    + by rewrite list_lookup_fmap, Hi; simpl; rewrite Heq.
    + by rewrite list_lookup_fmap, Hj.
  - apply list_find_None in E.
    apply (proj1 (Forall_forall _ _) E) in Hc. simpl in Hc.
    by rewrite bool_decide_eq_true_2 in Hc.
Qed.

Lemma listed_from vis cur listed c :
  c ∈ foldl (Inspector.addListedChild vis) cur listed →
  c ∈ cur ∨ ∃ h, h ∈ listed ∧ Inspector.find vis (Js.Str h) = Some c.
Proof.
  revert cur. induction listed as [|h listed IH]; intros cur Hc; [by left|].
  simpl in Hc. apply IH in Hc as [Hc | (h' & Hh' & Hf)].
  - unfold Inspector.addListedChild in Hc.
    destruct (Inspector.find vis (Js.Str h)) as [child|] eqn:Hf; [|by left].
    destruct (existsb _ cur); [by left|].
    apply elem_of_app in Hc as [Hc | ->%list_elem_of_singleton];
      [by left|].
    right. exists h. split; [apply list_elem_of_here | done].
  - right. exists h'. split; [by apply list_elem_of_further | done].
Qed.

Lemma listed_keeps vis cur listed c :
  c ∈ cur → c ∈ foldl (Inspector.addListedChild vis) cur listed.
Proof.
  revert cur. induction listed as [|h listed IH]; intros cur Hc; [done|].
  simpl. apply IH. unfold Inspector.addListedChild.
  destruct (Inspector.find vis (Js.Str h)); [|done].
  destruct (existsb _ cur); [done|]. apply elem_of_app. by left.
Qed.

Lemma listed_covers vis cur listed h c :
  h ∈ listed → Inspector.find vis (Js.Str h) = Some c →
  ∃ c', c' ∈ foldl (Inspector.addListedChild vis) cur listed ∧ id c' = id c.
Proof.
  revert cur. induction listed as [|h' listed IH]; intros cur Hh Hf.
  { by apply elem_of_nil in Hh. }
  apply elem_of_cons in Hh as [<- | Hh]; [|by apply IH].
  simpl. unfold Inspector.addListedChild at 2. rewrite Hf.
  destruct (existsb (hasId (id c)) cur) eqn:E.
  - apply existsb_hasId in E as (c' & Hc' & Hid).
    exists c'. split; [by apply listed_keeps | done].
  - exists c. split; [|done]. apply listed_keeps, elem_of_app.
    right. apply list_elem_of_here.
Qed.

(** X23: the inspector never finds a parent, and finds no child through
    the parent field of the visible communities, because both searches
    compare what [parseInt] returns with a string.  The children it shows
    come from the selected community's own list of children, whose ids
    are compared as strings: they are visible communities that the list
    names, sorted by level, and with distinct ids and human-readable ids
    every visible community the list names is shown. *)
Theorem hierarchyInfo_children cs node vis mode info :
  Inspector.hierarchyInfo cs (Some node) vis mode = Some info →
  ∃ sel,
    Page.communityOf cs node = Some sel
    ∧ Inspector.selected info = sel
    ∧ mode ≠ Inspector.off
    ∧ Inspector.parents info = []
    ∧ sortedByLevel (Inspector.children info)
    ∧ (∀ c, c ∈ Inspector.children info →
            c ∈ vis
            ∧ ∃ listed, children sel = Some listed
                        ∧ human_readable_id c ∈ listed)
    ∧ (NoDup (id <$> vis) → NoDup (human_readable_id <$> vis) →
       ∀ c listed, c ∈ vis → children sel = Some listed →
                   human_readable_id c ∈ listed →
                   c ∈ Inspector.children info).
Proof.
  unfold Inspector.hierarchyInfo. simpl.
  destruct (Page.communityOf cs node) as [sel|]; [|done].
  assert (filter (λ community,
                    ForceSimulation3D.isChildOf sel community = true) vis
          = []) as Hnone.
  { apply filter_none. intros c _. by rewrite isChildOf_false. }
  assert (match ForceSimulation3D.parentId sel with
          | Some parentId =>
              match Inspector.find vis parentId with
              | Some parentCommunity => [parentCommunity]
              | None => []
              end
          | None => []
          end = []) as Hparents.
  { unfold ForceSimulation3D.parentId.
    destruct (parent sel) as [p|]; simpl; [|done].
    by rewrite find_parseInt. }
  rewrite Hnone, Hparents.
  intros Hinfo.
  assert (mode ≠ Inspector.off ∧
          info = {| Inspector.selected := sel;
                    Inspector.parents := Js.sortBy level [];
                    Inspector.children :=
                      Js.sortBy level
                        match children sel with
                        | Some listed =>
                            foldl (Inspector.addListedChild vis) [] listed
                        | None => []
                        end |}) as [Hmode ->]
    by (destruct mode; [done|by injection Hinfo as <-..]).
  exists sel. split; [done|]. split; [done|]. split; [done|].
  split; [done|]. simpl. split; [apply sortBy_sorted|]. split.
  - intros c Hc. apply sortBy_elem in Hc.
    destruct (children sel) as [listed|]; [|by apply elem_of_nil in Hc].
    apply listed_from in Hc as [Hc | (h & Hh & Hf)];
      [by apply elem_of_nil in Hc|].
    apply find_Str_sound in Hf as [Hin <-]. split; [done|].
    by exists listed.
  - intros Hid Hhid c listed Hc Hlisted Hh. rewrite Hlisted.
    apply sortBy_elem.
    destruct (listed_covers vis [] listed (human_readable_id c) c Hh
                (find_Str_complete vis c Hhid Hc)) as (c' & Hc' & Heq).
    assert (c' = c) as <-; [|done].
    apply (id_injective vis); [done| |done..].
    apply listed_from in Hc' as [Hc' | (h & _ & Hf)];
      [by apply elem_of_nil in Hc'|].
    by apply find_Str_sound in Hf as [? _].
Qed.

Lemma colorOr_palette (lv : Z) :
  Visualizer.colorOr (ForceSimulation3D.paletteColor lv) "#95a5a6"
  ∈ "#95a5a6" :: ForceSimulation3D.colors.
Proof.
  unfold ForceSimulation3D.paletteColor. case_decide; [|set_solver].
  destruct (ForceSimulation3D.colors !! _) as [col|] eqn:E; [|set_solver].
  apply list_elem_of_lookup_2 in E.
  assert (Visualizer.colorOr (Some col) "#95a5a6" = col) as ->.
  { unfold ForceSimulation3D.colors in E.
    repeat (apply elem_of_cons in E as [-> | E]; [done|]).
    by apply elem_of_nil in E. }
  by apply list_elem_of_further.
Qed.

(** X24: among the communities [precomputeCommunityData] annotated, a
    boundary is drawn exactly for a visible community that has bounds; it
    is orange with base opacity 0.25 when it is the selected community and
    has the palette color of its level (gray if that is absent) with base
    opacity 0.15 otherwise, 0.2 more in the mode [auto]; the colors and
    opacities of an ancestor and of a descendant are never used, because
    the hierarchy lists are empty. *)
Theorem communityBoundary_after_precompute e c visible selected mode :
  let cs := Engine.communities
              (ForceSimulation3D.precomputeCommunityData e) in
  c ∈ cs → (∀ s, selected = Some s → s ∈ cs) →
  let isSelected :=
    match selected with
    | Some s => bool_decide (id c = id s)
    | None => false
    end in
  match Visualizer.communityBoundary cs c visible selected mode with
  | Some b =>
      visible = true
      ∧ computedBounds c = Some (Visualizer.bounds b)
      ∧ Visualizer.color b
        = (if isSelected then "#ffaa00"
           else Visualizer.colorOr
                  (ForceSimulation3D.paletteColor (level c)) "#95a5a6")
      ∧ Visualizer.color b ≠ "#4a90e2"
      ∧ Visualizer.color b ≠ "#7ed321"
      ∧ Visualizer.opacity b
        == (if isSelected then 0.25 else 0.15)
           + (if mode is Inspector.auto then 0.2 else 0)
  | None => visible = false ∨ computedBounds c = None
  end.
Proof.
  intros cs Hc Hsel isSelected.
  unfold cs in Hc, Hsel. rewrite precomputeCommunityData_eq in Hc, Hsel.
  simpl in Hc, Hsel.
  apply list_elem_of_fmap in Hc as (c0 & -> & _).
  assert (∀ pick : Hierarchy.t → list nat,
            (pick = Hierarchy.parentCommunities
             ∨ pick = Hierarchy.childCommunities) →
            match selected ≫= computedHierarchy with
            | Some hierarchy =>
                Visualizer.someSameId cs
                  (ForceSimulation3D.annotate (Engine.nodes e) [] c0)
                  (pick hierarchy)
            | None => false
            end = false) as Hnone.
  { intros pick Hpick. destruct selected as [s|]; [|done].
    pose proof (Hsel s eq_refl) as Hs.
    apply list_elem_of_fmap in Hs as (s0 & -> & _). simpl.
    rewrite parentCommunities_nil, childCommunities_nil.
    by destruct Hpick as [-> | ->]. }
  unfold Visualizer.communityBoundary. fold isSelected.
  rewrite (Hnone Hierarchy.parentCommunities) by by left.
  rewrite (Hnone Hierarchy.childCommunities) by by right.
  destruct visible; [|by left].
  destruct (computedBounds _) as [b|]; [|by right].
  cbn [Visualizer.color Visualizer.opacity Visualizer.bounds
       computedColor computedOpacity ForceSimulation3D.annotate level].
  pose proof (colorOr_palette (level c0)) as Hcolor.
  split; [done|]. split; [done|]. split; [done|].
  split; [|split].
  - destruct isSelected; [done|]. intros Heq. rewrite Heq in Hcolor.
    unfold ForceSimulation3D.colors in Hcolor.
    repeat (apply elem_of_cons in Hcolor as [? | Hcolor]; [done|]).
    by apply elem_of_nil in Hcolor.
  - destruct isSelected; [done|]. intros Heq. rewrite Heq in Hcolor.
    unfold ForceSimulation3D.colors in Hcolor.
    repeat (apply elem_of_cons in Hcolor as [? | Hcolor]; [done|]).
    by apply elem_of_nil in Hcolor.
  - destruct isSelected, mode; reflexivity.
Qed.
End Panels.

(** * Further facts: the connected entities of the inspector *)

Section Connected.
Import Inspector.
Variables (owner : list Node3D.t) (selectedNode : Node3D.t).
Implicit Types (m : list (string * entry)) (l : Link3D.t)
               (links : list Link3D.t).
Local Open Scope Q_scope.

Lemma mapSet_keys key value m :
  (mapSet key value m).*1
  = if decide (key ∈ m.*1) then m.*1 else m.*1 ++ [key].
Proof.
  induction m as [|[k e] m IH].
  - destruct (decide (key ∈ ([] : list (string * entry)).*1)) as [H|];
      [by apply elem_of_nil in H | done].
  - change ((mapSet key value ((k, e) :: m)).*1)
      with ((if decide (k = key) then (key, value) :: m
             else (k, e) :: mapSet key value m).*1).
    change (((k, e) :: m).*1) with (k :: m.*1).
    destruct (decide (k = key)) as [->|Hk].
    + rewrite decide_True by apply list_elem_of_here. done.
    + rewrite fmap_cons, IH. simpl.
      destruct (decide (key ∈ m.*1)) as [Hin|Hin].
      * by rewrite decide_True by by apply list_elem_of_further.
      * rewrite decide_False; [done|].
        intros [? | ?]%elem_of_cons; [congruence | done].
Qed.

Lemma mapSet_NoDup key value m : NoDup m.*1 → NoDup (mapSet key value m).*1.
Proof.
  intros Hnd. rewrite mapSet_keys. case_decide as Hin; [done|].
  apply NoDup_app. split; [done|].
  split; [|apply NoDup_singleton].
  by intros k Hk ->%list_elem_of_singleton.
Qed.

Lemma mapSet_elem key value m k e :
  NoDup m.*1 →
  (k, e) ∈ mapSet key value m
  ↔ (k = key ∧ e = value) ∨ (k ≠ key ∧ (k, e) ∈ m).
Proof.
  induction m as [|[k0 e0] m IH]; intros Hnd; simpl.
  - rewrite list_elem_of_singleton. split.
    + intros [= -> ->]. by left.
    + intros [[-> ->] | [_ H]]; [done | by apply elem_of_nil in H].
  - apply NoDup_cons in Hnd as [Hk0 Hnd]. simpl in Hk0.
    case_decide as Heq; simpl in Heq.
    + subst k0. rewrite !elem_of_cons. split.
      * intros [[= -> ->] | Hin]; [by left|]. right. split; [|by right].
        intros ->. apply Hk0. by apply (list_elem_of_fmap_2 fst) in Hin.
      * intros [[-> ->] | [Hne [[= ? ?] | Hin]]];
          [by left | done | by right].
    + rewrite !elem_of_cons, (IH Hnd). split.
      * intros [[= -> ->] | [[-> ->] | [Hne Hin]]].
        -- right. split; [done | by left].
        -- by left.
        -- right. split; [done | by right].
      * intros [[-> ->] | [Hne [[= -> ->] | Hin]]].
        -- right. by left.
        -- by left.
        -- right. right. by split.
Qed.

Lemma mapGet_Some key m e : mapGet key m = Some e → (key, e) ∈ m.
Proof.
  unfold mapGet. destruct (list_find _ m) as [[i [k e']]|] eqn:E; [|done].
  intros [= <-]. apply list_find_Some in E as (Hi & Hk & _).
  simpl in Hk. subst k. by apply list_elem_of_lookup_2 in Hi.
Qed.

Lemma mapGet_None key m : mapGet key m = None → key ∉ m.*1.
Proof.
  unfold mapGet. destruct (list_find _ m) as [[i [k e']]|] eqn:E; [done|].
  intros _ Hin. apply list_find_None in E.
  apply list_elem_of_fmap in Hin as ([k e] & -> & Hin).
  by apply (proj1 (Forall_forall _ _) E) in Hin.
Qed.

Lemma NoDup_keys_eq m k e e' :
  NoDup m.*1 → (k, e) ∈ m → (k, e') ∈ m → e = e'.
Proof.
  intros Hnd He He'.
  apply list_elem_of_lookup in He as [i Hi].
  apply list_elem_of_lookup in He' as [j Hj].
  assert (i = j) as ->; [|congruence].
  apply (NoDup_lookup m.*1 i j k); [done| |].
  - by rewrite list_lookup_fmap, Hi.
  - by rewrite list_lookup_fmap, Hj.
Qed.

Lemma recorded_skip links m l :
  recorded owner selectedNode links m →
  otherId owner selectedNode l = None →
  recorded owner selectedNode (links ++ [l]) m.
Proof.
  intros (Hnd & Hfrom & Hmax & Hkeys) Hnone.
  split; [done|]. split; [|split].
  - intros k e He. destruct (Hfrom k e He) as (l' & Hl' & ?).
    exists l'. split; [set_solver | done].
  - intros k e l' He Hl' Hk.
    apply elem_of_app in Hl' as [Hl' | ->%list_elem_of_singleton];
      [by apply (Hmax k e l') | congruence].
  - intros l' k Hl' Hk.
    apply elem_of_app in Hl' as [Hl' | ->%list_elem_of_singleton];
      [by apply (Hkeys l') | congruence].
Qed.

Lemma recorded_keep links m l key existing :
  recorded owner selectedNode links m →
  otherId owner selectedNode l = Some key →
  (key, existing) ∈ m → Link3D.weight l <= maxWeight existing →
  recorded owner selectedNode (links ++ [l]) m.
Proof.
  intros (Hnd & Hfrom & Hmax & Hkeys) Hkey Hin Hle.
  split; [done|]. split; [|split].
  - intros k e He. destruct (Hfrom k e He) as (l' & Hl' & ?).
    exists l'. split; [set_solver | done].
  - intros k e l' He Hl' Hk.
    apply elem_of_app in Hl' as [Hl' | ->%list_elem_of_singleton];
      [by apply (Hmax k e l')|].
    assert (k = key) as -> by congruence.
    by rewrite (NoDup_keys_eq m key e existing Hnd He Hin).
  - intros l' k Hl' Hk.
    apply elem_of_app in Hl' as [Hl' | ->%list_elem_of_singleton];
      [by apply (Hkeys l')|].
    assert (k = key) as -> by congruence.
    by apply (list_elem_of_fmap_2 fst) in Hin.
Qed.

Lemma recorded_set links m l key :
  recorded owner selectedNode links m →
  otherId owner selectedNode l = Some key →
  (∀ e, (key, e) ∈ m → maxWeight e < Link3D.weight l) →
  recorded owner selectedNode (links ++ [l])
    (mapSet key (mkEntry (otherNode owner selectedNode l)
                         (Link3D.weight l)) m).
Proof.
  intros (Hnd & Hfrom & Hmax & Hkeys) Hkey Hlt.
  split; [by apply mapSet_NoDup|]. split; [|split].
  - intros k e He.
    apply (mapSet_elem _ _ _ _ _ Hnd) in He as [[-> ->] | [Hne He]].
    + exists l. split; [set_solver|]. by repeat split.
    + destruct (Hfrom k e He) as (l' & Hl' & ?).
      exists l'. split; [set_solver | done].
  - intros k e l' He Hl' Hk.
    apply (mapSet_elem _ _ _ _ _ Hnd) in He as [[-> ->] | [Hne He]].
    + simpl. apply elem_of_app in Hl'
        as [Hl' | ->%list_elem_of_singleton]; [|lra].
      pose proof (Hkeys l' key Hl' Hk) as Hin.
      apply list_elem_of_fmap in Hin as ([k e] & Hk' & Hin).
      simpl in Hk'. subst k.
      pose proof (Hmax key e l' Hin Hl' Hk). pose proof (Hlt e Hin). lra.
    + apply elem_of_app in Hl'
        as [Hl' | ->%list_elem_of_singleton];
        [by apply (Hmax k e l') | congruence].
  - intros l' k Hl' Hk. rewrite mapSet_keys.
    apply elem_of_app in Hl' as [Hl' | ->%list_elem_of_singleton].
    + case_decide; [by apply (Hkeys l')|].
      apply elem_of_app. left. by apply (Hkeys l').
    + assert (k = key) as -> by congruence.
      case_decide; [done | set_solver].
Qed.

Lemma recorded_links links :
  recorded owner selectedNode links
           (connectedNodesMap owner selectedNode links).
Proof.
  unfold connectedNodesMap.
  induction links as [|l links IH] using rev_ind.
  { split; [constructor|]. split; [by intros k e H; apply elem_of_nil in H|].
    split; [by intros k e l H; apply elem_of_nil in H|].
    by intros l k H; apply elem_of_nil in H. }
  rewrite foldl_snoc.
  set (m := foldl (record owner selectedNode) [] links) in *.
  unfold record. fold (otherId owner selectedNode l).
  destruct (otherId owner selectedNode l) as [key|] eqn:Hkey;
    [|by apply recorded_skip].
  destruct (mapGet key m) as [existing|] eqn:Hget.
  - apply mapGet_Some in Hget.
    destruct (Qlt_le_dec (maxWeight existing) (Link3D.weight l))
      as [Hlt | Hle]; [|by apply (recorded_keep _ _ _ key existing)].
    apply recorded_set; [done..|]. intros e He.
    destruct IH as (Hnd & _).
    by rewrite (NoDup_keys_eq m key e existing Hnd He Hget).
  - apply mapGet_None in Hget. apply recorded_set; [done..|].
    intros e He. destruct Hget. by apply (list_elem_of_fmap_2 fst) in He.
Qed.

Lemma insertDesc_perm {A} (key : A → Q) a (xs : list A) :
  insertDesc key a xs ≡ₚ a :: xs.
Proof.
  induction xs as [|b xs IH]; simpl; [done|].
  destruct (Qle_bool (key b) (key a)); [done|].
  rewrite IH. apply Permutation_swap.
Qed.

Lemma sortDesc_perm {A} (key : A → Q) (xs : list A) :
  sortDesc key xs ≡ₚ xs.
Proof.
  induction xs as [|a xs IH]; simpl; [done|].
  by rewrite insertDesc_perm, IH.
Qed.

Lemma insertDesc_sorted {A} (key : A → Q) a (xs : list A) :
  StronglySorted (λ x y, key y <= key x) xs →
  StronglySorted (λ x y, key y <= key x) (insertDesc key a xs).
Proof.
  induction 1 as [|b xs Hs IH Hb]; simpl; [by repeat constructor|].
  destruct (Qle_bool (key b) (key a)) eqn:E.
  - apply Qle_bool_iff in E. constructor; [by constructor|].
    constructor; [done|]. eapply Forall_impl; [exact Hb|].
    intros c Hc. simpl in Hc. lra.
  - assert (key a <= key b) as Hab.
    { destruct (Qlt_le_dec (key b) (key a)) as [Hlt|?]; [|done].
      assert (key b <= key a) as Hle by lra.
      apply Qle_bool_iff in Hle. congruence. }
    constructor; [done|]. rewrite insertDesc_perm. by constructor.
Qed.

Lemma sortDesc_sorted {A} (key : A → Q) (xs : list A) :
  StronglySorted (λ x y, key y <= key x) (sortDesc key xs).
Proof.
  induction xs as [|a xs IH]; simpl;
    [constructor | by apply insertDesc_sorted].
Qed.

(** X25: the connected entities of the inspector.  The list holds one
    entry for each id met at the other end of a connected link (its
    length is the number of these ids); an entry names the other end of a
    link of the largest weight among the links that lead to its id, and
    the entries come by decreasing largest weight. *)
Theorem connectedNodes_by_weight links :
  ∃ entries,
    connectedNodes owner selectedNode links = node <$> entries
    ∧ StronglySorted (λ a b, maxWeight b <= maxWeight a) entries
    ∧ length entries
      = base.size (list_to_set (omap (otherId owner selectedNode) links)
                   : gset string)
    ∧ (∀ e, e ∈ entries →
         ∃ l, l ∈ links
           ∧ otherNode owner selectedNode l = node e
           ∧ Link3D.weight l = maxWeight e
           ∧ ∀ l', l' ∈ links →
               otherId owner selectedNode l'
               = otherId owner selectedNode l →
               Link3D.weight l' <= maxWeight e)
    ∧ (∀ l k, l ∈ links → otherId owner selectedNode l = Some k →
         ∃ e, e ∈ entries
              ∧ Page.endpointId owner (node e) = Some k
              ∧ Link3D.weight l <= maxWeight e).
Proof.
  pose proof (recorded_links links) as (Hnd & Hfrom & Hmax & Hkeys).
  set (m := connectedNodesMap owner selectedNode links) in *.
  exists (sortDesc maxWeight m.*2).
  assert (sortDesc maxWeight m.*2 ≡ₚ m.*2) as Hperm
    by apply sortDesc_perm.
  split; [done|]. split; [apply sortDesc_sorted|]. split; [|split].
  - rewrite Hperm, length_fmap, <- (length_fmap fst).
    rewrite <- (size_list_to_set (C := gset string) m.*1) by done.
    f_equal. apply set_eq. intros k.
    rewrite !elem_of_list_to_set, list_elem_of_omap. split.
    + intros ([k' e] & -> & He)%list_elem_of_fmap. simpl.
      destruct (Hfrom k' e He) as (l & Hl & Hk & _). by exists l.
    + intros (l & Hl & Hk). by apply (Hkeys l).
  - intros e He. rewrite Hperm in He.
    apply list_elem_of_fmap in He as ([k e'] & -> & He). simpl.
    destruct (Hfrom k e' He) as (l & Hl & Hk & Hn & Hw).
    exists l. split; [done|]. split; [done|]. split; [done|].
    intros l' Hl' Heq. apply (Hmax k e' l' He Hl'). by rewrite Heq.
  - intros l k Hl Hk.
    pose proof (Hkeys l k Hl Hk) as Hin.
    apply list_elem_of_fmap in Hin as ([k' e] & -> & Hin). simpl in *.
    exists e. split; [|split].
    + rewrite Hperm. by apply (list_elem_of_fmap_2 snd) in Hin.
    + destruct (Hfrom k' e Hin) as (l0 & _ & Hk0 & Hn0 & _).
      unfold otherId in Hk0. by rewrite Hn0 in Hk0.
    + by apply (Hmax k' e l).
Qed.
End Connected.

(** * Further facts: what a resolved layout holds *)

Section Resolved.
Import Engine ForceSimulation3D.
Variable h : host.
Implicit Types (e : t) (g : GraphData.t).
Local Open Scope Q_scope.



End Resolved.

Section ResolvedWitnesses.
Import Engine ForceSimulation3D.
Local Open Scope Q_scope.

End ResolvedWitnesses.

(** * Further facts: the links the link force holds *)

Section LinkForce.
Import Engine ForceSimulation3D CustomForce.
Variable h : host.
Implicit Types (e : t) (changes : ForceConfig.partial).
Local Open Scope Q_scope.

Lemma libraryCall_held c f e e' :
  (∀ fs, Simulation.links <$> Simulation.link (f fs)
         = Simulation.links <$> Simulation.link fs) →
  libraryCall h c f e = Done e' → heldLinks e' = heldLinks e.
Proof.
  intros Hf. unfold libraryCall. destruct (throws h c); [done|].
  intros [= <-]. apply Hf.
Qed.

(** A completed incremental update leaves the link force its links. *)
Lemma updateIndividualForces_held old changes e e' :
  updateIndividualForces h old changes e = Done e' →
  heldLinks e' = heldLinks e.
Proof.
  unfold updateIndividualForces.
  intros (e1 & H1 & (e2 & H2 & (e3 & H3 & (e4 & H4 & (e5 & H5 & H6)
    %andThen_Done)%andThen_Done)%andThen_Done)%andThen_Done)%andThen_Done.
  assert (heldLinks e1 = heldLinks e) as E1.
  { unfold updateCharge in H1.
    destruct (ForceConfig.chargeStrength' changes);
      [|by injection H1 as <-].
    destruct (Simulation.charge _); [|by injection H1 as <-].
    by apply libraryCall_held in H1. }
  assert (heldLinks e2 = heldLinks e1) as E2.
  { unfold updateLinkDistance in H2.
    destruct (ForceConfig.linkDistance' changes);
      [|by injection H2 as <-].
    destruct (Simulation.link _) as [l|] eqn:Hl; [|by injection H2 as <-].
    unfold libraryCall in H2. destruct (throws h link_distance); [done|].
    injection H2 as <-. unfold heldLinks. simpl. by rewrite Hl. }
  assert (heldLinks e3 = heldLinks e2) as E3.
  { unfold updateLinkStrength in H3.
    destruct (ForceConfig.linkStrength' changes);
      [|by injection H3 as <-].
    destruct (Simulation.link _) as [l|] eqn:Hl; [|by injection H3 as <-].
    unfold libraryCall in H3. destruct (throws h link_strength); [done|].
    injection H3 as <-. unfold heldLinks. simpl. by rewrite Hl. }
  assert (heldLinks e4 = heldLinks e3) as E4.
  { unfold updateCenter in H4.
    destruct (ForceConfig.centerStrength' changes);
      [|by injection H4 as <-].
    destruct (Simulation.center _); [|by injection H4 as <-].
    by apply libraryCall_held in H4. }
  assert (heldLinks e5 = heldLinks e4) as E5.
  { unfold updateCollision in H5.
    destruct (ForceConfig.collisionRadius' changes);
      [|by injection H5 as <-].
    destruct (Simulation.collision _); [|by injection H5 as <-].
    by apply libraryCall_held in H5. }
  assert (heldLinks e' = heldLinks e5) as E6.
  { destruct (spatialChange changes); [|by injection H6 as <-].
    apply andThen_Done in H6 as (e6 & H6 & H7).
    apply libraryCall_held in H6; [|done].
    apply libraryCall_held in H7; [|done]. by rewrite H7, H6. }
  congruence.
Qed.

(** X27: when the timer starts, the link force holds every link of the
    engine, and a tick leaves them there.  An [updateConfig] whose
    incremental update completes leaves the link force its links; one
    whose incremental update throws sets the forces up again, and the new
    link force holds no link. *)
Theorem link_force_links :
  (∀ g e, heldLinks (start h g e) = Some (links (start h g e)))
  ∧ (∀ e, heldLinks (tick h e) = heldLinks e)
  ∧ (∀ newConfig e,
       nodes e ≠ [] →
       heldLinks (updateConfig h newConfig e)
       = match updateIndividualForces h (config e) newConfig
                 (withConfig (ForceConfig.merge (config e) newConfig) e)
         with
         | Done _ => heldLinks e
         | Raised _ => Some []
         end).
Proof.
  split; [done|]. split; [done|].
  intros newConfig e Hne. unfold updateConfig.
  rewrite decide_False
    by (change (nodes (withConfig _ e)) with (nodes e);
        by destruct (nodes e)).
  destruct (updateIndividualForces h (config e) newConfig _)
    as [e2|e2] eqn:Hrun; [|done].
  apply updateIndividualForces_held in Hrun. exact Hrun.
Qed.
End LinkForce.

Section LinkForceWitnesses.
Import Engine ForceSimulation3D CustomForce.
Local Open Scope Q_scope.

Lemma link_force_links_witness :
  heldLinks (start Samples.faultyHost Samples.graph
                   (new defaultForceConfig))
  = Some (links (start Samples.faultyHost Samples.graph
                       (new defaultForceConfig)))
  ∧ heldLinks (updateConfig Samples.faultyHost Samples.chargeOnly
                 (start Samples.faultyHost Samples.graph
                        (new defaultForceConfig)))
    = Some [].
Proof.
  destruct (link_force_links Samples.faultyHost) as (Hstart & _ & Hupdate).
  split; [apply Hstart|].
  rewrite Hupdate; [reflexivity|].
  intros Hnil. apply (f_equal length) in Hnil. discriminate Hnil.
Defined.
End LinkForceWitnesses.

(** * Further facts: nodes and the box of their community *)

Section OwnBox.
Import Engine ForceSimulation3D.
Variable h : host.
Implicit Types (e : t) (g : GraphData.t).
Local Open Scope Q_scope.


End OwnBox.

Section OwnBoxWitnesses.
Import Engine ForceSimulation3D.
Local Open Scope Q_scope.


End OwnBoxWitnesses.

(** * Further facts: the keys of the cache, the camera *)

Section CacheKeys.
Import Engine ForceSimulation3D.
Variable h : host.
Implicit Types (e : t) (ns : list Node3D.t) (cs : list Community.t).
Local Open Scope Q_scope.

(** A key of the cache is the id of a community for which the loop body
    computed a center. *)
Lemma centers_from cfg ns all : ∀ l k,
  is_Some (foldl (storeCenter h cfg ns all) ∅ (imap pair l) !! k) →
  ∃ i c, l !! i = Some c ∧ Community.id c = k
         ∧ is_Some (communityCenter h cfg ns all i c).
Proof.
  induction l as [|d l IH] using rev_ind; intros k Hk.
  { simpl in Hk. rewrite lookup_empty in Hk. by destruct Hk. }
  rewrite centers_snoc in Hk. unfold storeCenter in Hk. simpl in Hk.
  assert (is_Some (foldl (storeCenter h cfg ns all) ∅ (imap pair l) !! k) →
          ∃ i c, (l ++ [d]) !! i = Some c ∧ Community.id c = k
                 ∧ is_Some (communityCenter h cfg ns all i c)) as Hold.
  { intros Hin. destruct (IH k Hin) as (i & c & Hi & Hid & Hc).
    exists i, c. split; [by apply lookup_app_l_Some | done]. }
  destruct (communityCenter h cfg ns all (length l) d) as [ctr|] eqn:E;
    [|by apply Hold].
  apply lookup_insert_is_Some in Hk as [<- | [_ Hk]]; [|by apply Hold].
  exists (length l), d.
  split; [by rewrite lookup_app_r, Nat.sub_diag by lia|].
  split; [done|]. rewrite E. by eexists.
Qed.

Lemma centers_size cfg ns all : ∀ l,
  (base.size (foldl (storeCenter h cfg ns all) ∅ (imap pair l))
   ≤ length l)%nat.
Proof.
  induction l as [|d l IH] using rev_ind; [done|].
  rewrite centers_snoc, length_app. unfold storeCenter at 1.
  cbn [fst snd length].
  destruct (communityCenter h cfg ns all (length l) d) as [ctr|]; [|lia].
  rewrite map_size_insert.
  destruct (foldl (storeCenter h cfg ns all) ∅ (imap pair l)
              !! Community.id d); simpl; lia.
Qed.

(** X29: the cache [calculateCommunityCenters] fills holds a center
    under exactly the ids of the communities that some node of the engine
    belongs to; it holds at most one center per community. *)
Theorem communityCenters_keys e :
  (∀ k, is_Some (communityCenters (calculateCommunityCenters h e) !! k)
        ↔ ∃ node, node ∈ nodes e
                  ∧ communityId (communities e) node = Some k)
  ∧ (base.size (communityCenters (calculateCommunityCenters h e))
     ≤ length (communities e))%nat.
Proof.
  split.
  - intros k. simpl. split.
    + intros (i & c & Hi & <- & Hc)%centers_from.
      unfold communityCenter in Hc. case_decide as Hlen; [|by destruct Hc].
      destruct (filter _ (nodes e)) as [|node rest] eqn:Hm;
        [simpl in Hlen; lia|].
      assert (node ∈ filter (λ node, communityId (communities e) node
                                     = Some (Community.id c)) (nodes e))
        as Hin by (rewrite Hm; apply list_elem_of_here).
      apply list_elem_of_filter in Hin as [Hid Hin]. by exists node.
    + intros (node & Hin & Hk). unfold communityId in Hk.
      destruct (Node3D.community node) as [r|] eqn:Hr; [|done].
      simpl in Hk.
      destruct (communities e !! r) as [c|] eqn:Hc; [|done].
      injection Hk as <-.
      apply (centers_has h _ _ _ _ r c Hc).
      destruct (communityCenter_members h (config e) (nodes e)
                  (communities e) r c) as (ctr & -> & _); [|by eexists].
      intros Hnil.
      assert (node ∈ members (nodes e) (communities e) c) as Hm.
      { apply list_elem_of_filter. split; [|done].
        unfold communityId. by rewrite Hr; simpl; rewrite Hc. }
      rewrite Hnil in Hm. by apply elem_of_nil in Hm.
  - apply centers_size.
Qed.
End CacheKeys.

Section Camera.
Import Visualizer.
Local Open Scope Q_scope.

End Camera.

Section CameraWitnesses.
Local Open Scope Q_scope.

End CameraWitnesses.

(** * Sample runs of the further facts *)

Section MoreWitnesses.
Import Engine ForceSimulation3D.
Local Open Scope Q_scope.

Lemma preprocessData_community_witness :
  ∃ node,
    nodes (preprocessData Samples.host Samples.graph
                          (new defaultForceConfig)) !! 1%nat = Some node
    ∧ match Node3D.community node with
      | Some r =>
          ∃ c, GraphData.communities Samples.graph !! r = Some c
            ∧ Node3D.id node ∈ Community.entity_ids c
            ∧ Node3D.communityLevel node = Community.level c
            ∧ ∀ j c', (r < j)%nat →
                GraphData.communities Samples.graph !! j = Some c' →
                Node3D.id node ∉ Community.entity_ids c'
      | None =>
          Node3D.communityLevel node = 0%Z
          ∧ ∀ c, c ∈ GraphData.communities Samples.graph →
                 Node3D.id node ∉ Community.entity_ids c
      end.
Proof.
  assert (∃ node,
            nodes (preprocessData Samples.host Samples.graph
                                  (new defaultForceConfig)) !! 1%nat
            = Some node) as [node E] by (eexists; reflexivity).
  exists node. split; [exact E|].
  exact (preprocessData_community Samples.host Samples.graph
           (new defaultForceConfig) 1 node E).
Defined.


Lemma communityForce_attracts_witness :
  ∃ node,
    node ∈ nodes (Samples.prepared Samples.graph)
    ∧ match communityId (communities (Samples.prepared Samples.graph))
                        node with
      | Some k =>
          ∃ center,
            communityCenters
              (calculateCommunityCenters Samples.host
                 (Samples.prepared Samples.graph)) !! k = Some center
            ∧ (0 <= ForceConfig.communityStrength
                      (config (Samples.prepared Samples.graph)) →
               0 <= CustomForce.dot
                      (CustomForce.impulse node
                         (CustomForce.attract
                            (calculateCommunityCenters Samples.host
                               (Samples.prepared Samples.graph)) node))
                      (CustomForce.minus (CustomForce.centerPoint center)
                                         (CustomForce.position node)))
      | None => True
      end.
Proof.
  assert (∃ node, nodes (Samples.prepared Samples.graph) !! 0%nat
                  = Some node) as [node E] by (eexists; reflexivity).
  apply list_elem_of_lookup_2 in E.
  exists node. split; [exact E|].
  pose proof (communityForce_attracts Samples.host
                (Samples.prepared Samples.graph) node E) as H.
  cbv zeta in H.
  destruct (communityId (communities (Samples.prepared Samples.graph)) node)
    as [k|]; [|exact I].
  destruct H as (center & Hc & _ & _ & _ & _ & Hdot).
  exists center. split; [exact Hc | exact Hdot].
Defined.

Lemma filteredLayout_closed_witness :
  ∃ v,
    Page.filteredLayout (MoreSamples.page (Some 0%Z) None false) = Some v
    ∧ sublist (GraphLayout.nodes v) (GraphLayout.nodes MoreSamples.layout)
    ∧ sublist (GraphLayout.links v) (GraphLayout.links MoreSamples.layout)
    ∧ length (GraphLayout.nodes v) = 1%nat
    ∧ GraphLayout.links v = [].
Proof.
  assert (∃ v, Page.filteredLayout (MoreSamples.page (Some 0%Z) None false)
               = Some v
               ∧ length (GraphLayout.nodes v) = 1%nat
               ∧ GraphLayout.links v = [])
    as (v & E & Hlen & Hlinks)
    by (eexists; split; [reflexivity | by vm_compute]).
  exists v. split; [exact E|].
  destruct (filteredLayout_closed (MoreSamples.page (Some 0%Z) None false)
              MoreSamples.layout v eq_refl E) as (_ & Hn & Hl & _).
  split; [exact Hn|]. split; [exact Hl|]. split; [exact Hlen | exact Hlinks].
Defined.

Lemma visualizer_filters_again_witness :
  ∃ v,
    Page.filteredLayout (MoreSamples.page (Some 0%Z) None false) = Some v
    ∧ Visualizer.filteredNodes (Some v) ∅ (Some 0%Z) = GraphLayout.nodes v
    ∧ Visualizer.filteredLinks (GraphLayout.nodes MoreSamples.layout)
        (Some v) (Visualizer.filteredNodes (Some v) ∅ (Some 0%Z)) 1
      = GraphLayout.links v.
Proof.
  assert (∃ v, Page.filteredLayout (MoreSamples.page (Some 0%Z) None false)
               = Some v) as [v E] by (eexists; reflexivity).
  exists v. split; [exact E|].
  exact (visualizer_filters_again
           (MoreSamples.page (Some 0%Z) None false) MoreSamples.layout v
           eq_refl E).
Defined.

Lemma heroLinks_top_witness :
  ∃ t,
    Visualizer.threshold
      (Visualizer.sortAsc
         (Link3D.weight <$> GraphLayout.links MoreSamples.layout)) = Some t
    ∧ Visualizer.heroLinks MoreSamples.layout ≠ [].
Proof.
  assert (GraphLayout.links MoreSamples.layout ≠ []) as Hne.
  { intros Hnil. apply (f_equal length) in Hnil.
    vm_compute in Hnil. discriminate Hnil. }
  destruct (heroLinks_top MoreSamples.layout Hne)
    as (t & Ht & _ & _ & _ & _ & Hhero).
  exists t. split; [exact Ht | exact Hhero].
Defined.

Lemma visibleCommunities_within_witness :
  ∃ vis,
    Page.visibleCommunities
      (Selector.loopBound (GraphLayout.communities MoreSamples.layout))
      (MoreSamples.page None None true) = Some vis
    ∧ vis = GraphLayout.communities MoreSamples.layout.
Proof.
  destruct (visibleCommunities_within
              (Selector.loopBound
                 (GraphLayout.communities MoreSamples.layout))
              (MoreSamples.page None None true) MoreSamples.layout
              eq_refl (le_n _)) as (vis & Hvis & _ & Hall & _).
  exists vis. split; [exact Hvis|]. apply Hall. by right.
Defined.

Lemma hierarchyInfo_children_witness :
  ∃ info,
    Inspector.hierarchyInfo
      [Selector.commA; Selector.commB; Selector.commC]
      (Some (MoreSamples.nodeAt 0 0 0 (Some 0%nat)))
      [Selector.commA; Selector.commB; Selector.commC] Inspector.auto
    = Some info
    ∧ Inspector.selected info = Selector.commA
    ∧ Inspector.parents info = []
    ∧ Inspector.children info = [Selector.commB].
Proof.
  assert (∃ info,
            Inspector.hierarchyInfo
              [Selector.commA; Selector.commB; Selector.commC]
              (Some (MoreSamples.nodeAt 0 0 0 (Some 0%nat)))
              [Selector.commA; Selector.commB; Selector.commC]
              Inspector.auto = Some info
            ∧ Inspector.children info = [Selector.commB])
    as (info & E & Hchildren)
    by (eexists; split; [reflexivity | by vm_compute]).
  exists info. split; [exact E|].
  destruct (hierarchyInfo_children _ _ _ _ _ E)
    as (sel & Hsel & Hs & _ & Hp & _).
  injection Hsel as <-.
  split; [exact Hs|]. split; [exact Hp | exact Hchildren].
Defined.

Lemma communityBoundary_after_precompute_witness :
  ∃ c b,
    communities (precomputeCommunityData (Samples.prepared Samples.graph))
      !! 0%nat = Some c
    ∧ Visualizer.communityBoundary
        (communities
           (precomputeCommunityData (Samples.prepared Samples.graph)))
        c true None Inspector.all = Some b
    ∧ Visualizer.color b ≠ "#4a90e2"
    ∧ Visualizer.color b ≠ "#7ed321".
Proof.
  assert (∃ c b,
            communities
              (precomputeCommunityData (Samples.prepared Samples.graph))
              !! 0%nat = Some c
            ∧ Visualizer.communityBoundary
                (communities
                   (precomputeCommunityData
                      (Samples.prepared Samples.graph)))
                c true None Inspector.all = Some b)
    as (c & b & E & Hb) by (do 2 eexists; split; reflexivity).
  exists c, b. split; [exact E|]. split; [exact Hb|].
  pose proof (communityBoundary_after_precompute
                (Samples.prepared Samples.graph) c true None Inspector.all)
    as H.
  cbv zeta in H. rewrite Hb in H.
  destruct H as (_ & _ & _ & Hblue & Hgreen & _).
  - by apply list_elem_of_lookup_2 in E.
  - intros s Hs. discriminate Hs.
  - split; [exact Hblue | exact Hgreen].
Defined.
End MoreWitnesses.
